(** * StoryForge: graph store and validation engine

    A shallow embedding of [node_system.py] (the [NodeManager] graph store with
    its [Port], [Connection] and [BaseNode] entities) and of the graph analyses
    of the validation dialog in [storyforge/dialogs.py].

    Conventions of the embedding.
    - A Python [dict] keeps insertion order and that order is observable (the
      analyses iterate over [connections.items()]); it is an association list
      with the operations of [PyDict].
    - A Python [set] is a [gset string].
    - Objects are mutated in place by the store.  A port object is reached
      through the node dict and the first port of the node carrying the
      requested id, exactly as [next((p for p in node.ports if p.id == ...))]
      reaches it, so a mutation is an update at that address.  Two addresses
      denote one object only when they are equal: nodes do not share port
      objects.
    - The change listeners [on_node_changed] and [on_connection_changed] are
      [None] after construction; the store is modelled with no listener
      registered.
    - [uuid.uuid4()] is an input of the operation that draws it. *)

From stdpp Require Import gmap strings list pretty relations.
From Stdlib Require Import ZArith.

Set Warnings "-clear-no-such-hyp".

(** ** Insertion-ordered dictionaries *)

Module PyDict.
Section ops.
Context {V : Type}.

(** [d.get(k)] *)
Fixpoint get (k : string) (d : list (string * V)) : option V :=
match d with
| [] => None
| (k', v) :: d' => if decide (k' = k) then Some v else get k d'
end.

(** [k in d] *)
Definition contains (k : string) (d : list (string * V)) : bool :=
match get k d with Some _ => true | None => false end.

(** [d[k] = v]: an existing key keeps its place, a new key goes last. *)
Fixpoint set (k : string) (v : V) (d : list (string * V)) : list (string * V) :=
match d with
| [] => [(k, v)]
| (k', v') :: d' =>
    if decide (k' = k) then (k, v) :: d' else (k', v') :: set k v d'
end.

(** [del d[k]] for a key that is present (keys are unique in a dict, so at
  most one entry goes). *)
Fixpoint del (k : string) (d : list (string * V)) : list (string * V) :=
match d with
| [] => []
| (k', v') :: d' =>
    if decide (k' = k) then del k d' else (k', v') :: del k d'
end.

Definition keys (d : list (string * V)) : list string := d.*1.
Definition values (d : list (string * V)) : list V := d.*2.
End ops.
End PyDict.

(** ** Entities ([node_system.py]) *)

Inductive NodeType :=
  | NT_DIALOGUE | NT_QUEST | NT_OBJECTIVE | NT_CHOICE | NT_CONDITION | NT_HUB
  | NT_MERGE | NT_STATE_CHANGE | NT_RESOURCE_CHECK | NT_TIME_CHECK
  | NT_REPUTATION_CHECK.

Inductive ConnectionType :=
  | SIMPLE | CONDITIONAL | PREREQUISITE | DEPENDENCY | CHOICE | RESOURCE_GATED
  | TIME_BASED | REPUTATION_BASED | STATE_CHANGE.

Global Instance ConnectionType_eq_dec : EqDecision ConnectionType.
Proof. solve_decision. Defined.

(** [connection_type.value] *)
Definition ConnectionType_value (t : ConnectionType) : string :=
  match t with
  | SIMPLE => "simple"
  | CONDITIONAL => "conditional"
  | PREREQUISITE => "prerequisite"
  | DEPENDENCY => "dependency"
  | CHOICE => "choice"
  | RESOURCE_GATED => "resource_gated"
  | TIME_BASED => "time_based"
  | REPUTATION_BASED => "reputation_based"
  | STATE_CHANGE => "state_change"
  end.

Definition all_ConnectionTypes : list ConnectionType :=
  [SIMPLE; CONDITIONAL; PREREQUISITE; DEPENDENCY; CHOICE; RESOURCE_GATED;
   TIME_BASED; REPUTATION_BASED; STATE_CHANGE].

(** [ConnectionType(s)]; [None] stands for the [ValueError] of an unknown
    value. *)
Definition ConnectionType_of_value (s : string) : option ConnectionType :=
  List.find (λ t, bool_decide (ConnectionType_value t = s)) all_ConnectionTypes.

(** Values of type [Any] held in the property and state-change maps. *)
Inductive pyval :=
  | PyNone
  | PyBool (b : bool)
  | PyInt (z : Z)
  | PyStr (s : string).

Record Port := mkPort {
  p_id : string;
  name : string;
  port_type : string;
  data_type : string;
  connected_to : list string;
  p_position : Z * Z;
  connection_limit : Z;
  required : bool
}.

Record Connection := mkConnection {
  c_id : string;
  from_node : string;
  to_node : string;
  from_port : string;
  to_port : string;
  connection_type : ConnectionType;
  condition : string;
  priority : Z;
  c_required_resources : list (string * Z);
  c_required_flags : list string;
  required_reputation : list (string * Z);
  time_condition : string;
  c_state_changes : list (string * pyval);
  reputation_changes : list (string * Z)
}.

Record BaseNode := mkBaseNode {
  n_id : string;
  node_type : NodeType;
  title : string;
  n_position : Z * Z;
  n_size : Z * Z;
  n_color : Z * Z * Z;
  ports : list Port;
  properties : list (string * pyval);
  collapsed : bool;
  needs_resize : bool;
  conditions : list string;
  n_required_resources : list (string * Z);
  n_required_flags : list string;
  n_state_changes : list (string * pyval)
}.

Definition set_connected_to (l : list string) (p : Port) : Port :=
  mkPort (p_id p) (name p) (port_type p) (data_type p) l (p_position p)
         (connection_limit p) (required p).

Definition set_ports (ps : list Port) (n : BaseNode) : BaseNode :=
  mkBaseNode (n_id n) (node_type n) (title n) (n_position n) (n_size n)
             (n_color n) ps (properties n) (collapsed n) (needs_resize n)
             (conditions n) (n_required_resources n) (n_required_flags n)
             (n_state_changes n).

Definition set_n_id (i : string) (n : BaseNode) : BaseNode :=
  mkBaseNode i (node_type n) (title n) (n_position n) (n_size n)
             (n_color n) (ports n) (properties n) (collapsed n) (needs_resize n)
             (conditions n) (n_required_resources n) (n_required_flags n)
             (n_state_changes n).

(** The keyword arguments [**connection_props] of [add_connection]: a field
    is [None] when the keyword is not passed and the dataclass default
    applies. *)
Record ConnectionProps := mkProps {
  kw_id : option string;
  kw_condition : option string;
  kw_priority : option Z;
  kw_required_resources : option (list (string * Z));
  kw_required_flags : option (list string);
  kw_required_reputation : option (list (string * Z));
  kw_time_condition : option string;
  kw_state_changes : option (list (string * pyval));
  kw_reputation_changes : option (list (string * Z))
}.

Definition no_props : ConnectionProps :=
  mkProps None None None None None None None None None.

(** ** The graph store ([NodeManager]) *)

Record NodeManager := mkManager {
  nodes : list (string * BaseNode);
  connections : list (string * Connection);
  next_id : Z
}.

(** [NodeManager.__init__] *)
Definition init : NodeManager := mkManager [] [] 1%Z.

(** [next((p for p in ports if p.id == pid), None)] *)
Definition find_port (pid : string) (ps : list Port) : option Port :=
  List.find (λ p, bool_decide (p_id p = pid)) ps.

Definition get_node (node_id : string) (self : NodeManager) : option BaseNode :=
  PyDict.get node_id (nodes self).

(** The port object reached from node [nid] under port id [pid]. *)
Definition port_at (nid pid : string) (ns : list (string * BaseNode)) : option Port :=
  match PyDict.get nid ns with
  | Some n => find_port pid (ports n)
  | None => None
  end.

(** In-place mutation of the port object at an address. *)
Fixpoint update_port (pid : string) (f : Port → Port) (ps : list Port) : list Port :=
  match ps with
  | [] => []
  | p :: ps' =>
      if decide (p_id p = pid) then f p :: ps' else p :: update_port pid f ps'
  end.

Definition mutate_port (nid pid : string) (f : Port → Port)
    (ns : list (string * BaseNode)) : list (string * BaseNode) :=
  match PyDict.get nid ns with
  | Some n => PyDict.set nid (set_ports (update_port pid f (ports n)) n) ns
  | None => ns
  end.

(** [port.connected_to.append(x)] *)
Definition append_peer (x : string) (p : Port) : Port :=
  set_connected_to (connected_to p ++ [x]) p.

(** [l.remove(x)]: drops the first occurrence. *)
Fixpoint list_remove (x : string) (l : list string) : list string :=
  match l with
  | [] => []
  | y :: l' => if decide (y = x) then l' else y :: list_remove x l'
  end.

(** [if x in port.connected_to: port.connected_to.remove(x)] *)
Definition remove_peer (x : string) (p : Port) : Port :=
  if bool_decide (x ∈ connected_to p)
  then set_connected_to (list_remove x (connected_to p)) p
  else p.

(** [if x not in port.connected_to: port.connected_to.append(x)] *)
Definition add_peer_once (x : string) (p : Port) : Port :=
  if bool_decide (x ∈ connected_to p) then p else append_peer x p.

Definition add_node (node : BaseNode) (self : NodeManager) : BaseNode * NodeManager :=
  let '(node, next) :=
    if decide (n_id node = "")
    then (set_n_id ("node_" +:+ pretty (next_id self)) node, (next_id self + 1)%Z)
    else (node, next_id self) in
  (node, mkManager (PyDict.set (n_id node) node (nodes self)) (connections self) next).

Definition remove_node (node_id : string) (self : NodeManager) : bool * NodeManager :=
  match PyDict.get node_id (nodes self) with
  | None => (false, self)
  | Some node =>
      let connections_to_remove :=
        (filter (λ kc, from_node kc.2 = node_id ∨ to_node kc.2 = node_id)
                (connections self)).*1 in
      let conns :=
        foldl (λ d conn_id, PyDict.del conn_id d) (connections self)
              connections_to_remove in
      (true, mkManager (PyDict.del node_id (nodes self)) conns (next_id self))
  end.

(** [Connection(from_node=..., ..., connection_type=..., **connection_props)];
    [uuid] is the value the default factory of [id] draws. *)
Definition new_connection (from_node_id from_port_id to_node_id to_port_id : string)
    (connection_type : ConnectionType) (kw : ConnectionProps) (uuid : string) : Connection :=
  mkConnection (default uuid (kw_id kw)) from_node_id to_node_id from_port_id to_port_id
    connection_type
    (default "" (kw_condition kw)) (default 0%Z (kw_priority kw))
    (default [] (kw_required_resources kw)) (default [] (kw_required_flags kw))
    (default [] (kw_required_reputation kw)) (default "" (kw_time_condition kw))
    (default [] (kw_state_changes kw)) (default [] (kw_reputation_changes kw)).

Definition add_connection (from_node_id from_port_id to_node_id to_port_id : string)
    (connection_type : ConnectionType) (connection_props : ConnectionProps)
    (uuid : string) (self : NodeManager) : option Connection * NodeManager :=
  match get_node from_node_id self, get_node to_node_id self with
  | Some from_node, Some to_node =>
      match find_port from_port_id (ports from_node),
            find_port to_port_id (ports to_node) with
      | Some from_port, Some to_port =>
          if bool_decide (0 < connection_limit from_port
                          ∧ connection_limit from_port
                            ≤ Z.of_nat (length (connected_to from_port)))%Z
          then (None, self)
          else
            let connection :=
              new_connection from_node_id from_port_id to_node_id to_port_id
                             connection_type connection_props uuid in
            let conns := PyDict.set (c_id connection) connection (connections self) in
            let ns1 := mutate_port from_node_id from_port_id
                                   (append_peer to_port_id) (nodes self) in
            let ns2 := mutate_port to_node_id to_port_id
                                   (append_peer from_port_id) ns1 in
            (Some connection, mkManager ns2 conns (next_id self))
      | _, _ => (None, self)
      end
  | _, _ => (None, self)
  end.

Definition remove_connection (connection_id : string) (self : NodeManager)
    : bool * NodeManager :=
  match PyDict.get connection_id (connections self) with
  | None => (false, self)
  | Some connection =>
      let ns :=
        match get_node (from_node connection) self,
              get_node (to_node connection) self with
        | Some _, Some _ =>
            let ns1 := mutate_port (from_node connection) (from_port connection)
                                   (remove_peer (to_port connection)) (nodes self) in
            mutate_port (to_node connection) (to_port connection)
                        (remove_peer (from_port connection)) ns1
        | _, _ => nodes self
        end in
      (true, mkManager ns (PyDict.del connection_id (connections self)) (next_id self))
  end.

(** ** Restricted cycle check ([NodeManager.detect_circular_dependencies]) *)

(** Outcome of a call that may raise: [ValueError] is the exception of
    [list.index] on a missing element; [OutOfFuel] is the budget of the
    recursion running out, which the budget [detect_circular_dependencies]
    grants excludes. *)
Inductive result (A : Type) :=
  | Ok (a : A)
  | ValueError
  | OutOfFuel.
Arguments Ok {A} a.
Arguments ValueError {A}.
Arguments OutOfFuel {A}.

(** [l.index(x)] *)
Fixpoint list_index (x : string) (l : list string) : option nat :=
  match l with
  | [] => None
  | y :: l' => if decide (y = x) then Some 0 else S <$> list_index x l'
  end.

(** A loop whose body may answer [True], which returns from the enclosing
    function at once. *)
Fixpoint loop_until {A S : Type} (body : A → S → result (bool * S))
    (l : list A) (st : S) : result (bool * S) :=
  match l with
  | [] => Ok (false, st)
  | x :: l' =>
      match body x st with
      | Ok (false, st') => loop_until body l' st'
      | r => r
      end
  end.

(** The mutable variables the closure [has_cycle] captures. *)
Record cycle_state := mkCycleState {
  cycles : list (list string);
  visited : gset string;
  rec_stack : gset string
}.

Definition is_dependency_edge (conn : Connection) : bool :=
  bool_decide (connection_type conn ∈ [PREREQUISITE; DEPENDENCY]).

Fixpoint has_cycle (fuel : nat) (conns : list (string * Connection))
    (temp_node_id : string) (path : list string) (st : cycle_state)
    : result (bool * cycle_state) :=
  match fuel with
  | O => OutOfFuel
  | S fuel' =>
      if bool_decide (temp_node_id ∈ rec_stack st) then
        match list_index temp_node_id path with
        | None => ValueError
        | Some cycle_start =>
            Ok (true, mkCycleState
                        (cycles st ++ [drop cycle_start path ++ [temp_node_id]])
                        (visited st) (rec_stack st))
        end
      else if bool_decide (temp_node_id ∈ visited st) then Ok (false, st)
      else
        let st1 := mkCycleState (cycles st) ({[temp_node_id]} ∪ visited st)
                                ({[temp_node_id]} ∪ rec_stack st) in
        match
          loop_until
            (λ conn st',
               if bool_decide (from_node conn = temp_node_id) && is_dependency_edge conn
               then has_cycle fuel' conns (to_node conn) (path ++ [temp_node_id]) st'
               else Ok (false, st'))
            (PyDict.values conns) st1
        with
        | Ok (false, st2) =>
            (* rec_stack.remove: the node is still on the stack here *)
            Ok (false, mkCycleState (cycles st2) (visited st2)
                                    (rec_stack st2 ∖ {[temp_node_id]}))
        | r => r
        end
  end.

(** Every node id the traversal can meet. *)
Definition store_node_ids (self : NodeManager) : gset string :=
  list_to_set (PyDict.keys (nodes self))
  ∪ list_to_set (from_node <$> PyDict.values (connections self))
  ∪ list_to_set (to_node <$> PyDict.values (connections self)).

Fixpoint detect_roots (fuel : nat) (conns : list (string * Connection))
    (roots : list string) (st : cycle_state) : result cycle_state :=
  match roots with
  | [] => Ok st
  | node_id :: roots' =>
      if bool_decide (node_id ∈ visited st) then detect_roots fuel conns roots' st
      else
        match has_cycle fuel conns node_id [] st with
        | Ok (_, st') => detect_roots fuel conns roots' st'
        | ValueError => ValueError
        | OutOfFuel => OutOfFuel
        end
  end.

Definition detect_circular_dependencies (self : NodeManager)
    : result (list (list string)) :=
  match detect_roots (S (size (store_node_ids self))) (connections self)
                     (PyDict.keys (nodes self)) (mkCycleState [] ∅ ∅) with
  | Ok st => Ok (cycles st)
  | ValueError => ValueError
  | OutOfFuel => OutOfFuel
  end.

(** ** Persistence of connections *)

(** One exported dict; a field is [None] when the key is absent. *)
Record ConnectionData := mkData {
  d_id : option string;
  d_from_node : option string;
  d_to_node : option string;
  d_from_port : option string;
  d_to_port : option string;
  d_connection_type : option string;
  d_condition : option string;
  d_priority : option Z;
  d_required_resources : option (list (string * Z));
  d_required_flags : option (list string);
  d_required_reputation : option (list (string * Z));
  d_time_condition : option string;
  d_state_changes : option (list (string * pyval));
  d_reputation_changes : option (list (string * Z))
}.

Definition export_connection (connection : Connection) : ConnectionData :=
  mkData (Some (c_id connection)) (Some (from_node connection))
         (Some (to_node connection)) (Some (from_port connection))
         (Some (to_port connection))
         (Some (ConnectionType_value (connection_type connection)))
         (Some (condition connection)) (Some (priority connection))
         (Some (c_required_resources connection))
         (Some (c_required_flags connection))
         (Some (required_reputation connection))
         (Some (time_condition connection))
         (Some (c_state_changes connection))
         (Some (reputation_changes connection)).

Definition export_connections (self : NodeManager) : list ConnectionData :=
  export_connection <$> PyDict.values (connections self).

(** The [Connection(...)] call of the import loop; [None] is the [KeyError]
    of a missing endpoint key, which the enclosing [try] catches. *)
Definition connection_of_data (uuid : string) (data : ConnectionData) : option Connection :=
  let connection_type_str := default "simple" (d_connection_type data) in
  let connection_type := default SIMPLE (ConnectionType_of_value connection_type_str) in
  fn ← d_from_node data;
  tn ← d_to_node data;
  fp ← d_from_port data;
  tp ← d_to_port data;
  Some (mkConnection (default uuid (d_id data)) fn tn fp tp connection_type
          (default "" (d_condition data)) (default 0%Z (d_priority data))
          (default [] (d_required_resources data))
          (default [] (d_required_flags data))
          (default [] (d_required_reputation data))
          (default "" (d_time_condition data))
          (default [] (d_state_changes data))
          (default [] (d_reputation_changes data))).

(** The body of the import loop for one entry. *)
Definition import_connection (uuid : string) (data : ConnectionData)
    (self : NodeManager) : NodeManager :=
  match connection_of_data uuid data with
  | None => self
  | Some connection =>
      let conns := PyDict.set (c_id connection) connection (connections self) in
      let ns :=
        match get_node (from_node connection) self,
              get_node (to_node connection) self with
        | Some from_node_, Some to_node_ =>
            match find_port (from_port connection) (ports from_node_),
                  find_port (to_port connection) (ports to_node_) with
            | Some _, Some _ =>
                let ns1 := mutate_port (from_node connection) (from_port connection)
                             (add_peer_once (to_port connection)) (nodes self) in
                mutate_port (to_node connection) (to_port connection)
                            (add_peer_once (from_port connection)) ns1
            | _, _ => nodes self
            end
        | _, _ => nodes self
        end in
      mkManager ns conns (next_id self)
  end.

Fixpoint import_loop (uuid4 : nat → string) (i : nat)
    (connections_data : list ConnectionData) (self : NodeManager) : NodeManager :=
  match connections_data with
  | [] => self
  | data :: rest => import_loop uuid4 (S i) rest (import_connection (uuid4 i) data self)
  end.

(** [uuid4 i] is the uuid drawn while entry [i] is read. *)
Definition import_connections (uuid4 : nat → string)
    (connections_data : list ConnectionData) (self : NodeManager) : NodeManager :=
  import_loop uuid4 0 connections_data (mkManager (nodes self) [] (next_id self)).

(** ** Validation engine ([storyforge/dialogs.py]) *)

(** A finding: the dict the analyses append to [issues]. *)
Record Issue := mkIssue {
  i_id : string;
  level : string;
  i_title : string;
  description : string;
  i_node_id : option string;
  i_connection_id : option string;
  nodes_involved : option (list string);
  auto_fixable : bool;
  suggested_fix : string
}.

Definition dquote : string := String (Ascii.ascii_of_nat 34) EmptyString.

(** [sep.join(l)] *)
Fixpoint str_join (sep : string) (l : list string) : string :=
  match l with
  | [] => ""
  | [x] => x
  | x :: l' => x +:+ sep +:+ str_join sep l'
  end.

(** The adjacency dict both topology analyses build:
    [if from not in graph: graph[from] = []; graph[from].append(to)]. *)
Definition graph_add (graph : list (string * list string)) (conn : Connection)
    : list (string * list string) :=
  let graph1 :=
    if PyDict.contains (from_node conn) graph then graph
    else PyDict.set (from_node conn) [] graph in
  PyDict.set (from_node conn)
             (default [] (PyDict.get (from_node conn) graph1) ++ [to_node conn]) graph1.

Definition build_graph (conns : list (string * Connection)) : list (string * list string) :=
  foldl graph_add [] (PyDict.values conns).

(** [graph.get(node, [])] *)
Definition neighbors (graph : list (string * list string)) (node : string) : list string :=
  default [] (PyDict.get node graph).

Definition graph_nodes (graph : list (string * list string)) : gset string :=
  list_to_set (PyDict.keys graph) ∪ list_to_set (concat (PyDict.values graph)).

(** *** Full-graph circular dependencies *)

Inductive dfs_color := WHITE | GRAY | BLACK.

Global Instance dfs_color_eq_dec : EqDecision dfs_color.
Proof. solve_decision. Defined.

(** [f"{a} -> {b}"] for consecutive nodes of the cycle. *)
Fixpoint cycle_description (cycle_nodes : list string) : list string :=
  match cycle_nodes with
  | a :: (b :: _) as rest => (a +:+ " -> " +:+ b) :: cycle_description rest
  | _ => []
  end.

Definition cycle_issue (temp_node : string) (cycle_nodes : list string) (n : nat) : Issue :=
  mkIssue ("circular_dependency_" +:+ temp_node +:+ "_" +:+ pretty n)
          "error"
          "Circular dependency detected"
          ("Circular dependency found: " +:+ str_join " -> " (cycle_description cycle_nodes))
          None None
          (Some (take (length cycle_nodes - 1) cycle_nodes))
          false
          "Remove one of the connections in the cycle to break the circular dependency.".

(** A loop over neighbours whose body may answer [True] (return at once);
    [None] is the recursion budget running out. *)
Fixpoint visit_until {S : Type} (visit : string → S → option (bool * S))
    (l : list string) (st : S) : option (bool * S) :=
  match l with
  | [] => Some (false, st)
  | x :: l' =>
      match visit x st with
      | Some (false, st') => visit_until visit l' st'
      | r => r
      end
  end.

Fixpoint dfs_visit (fuel : nat) (graph : list (string * list string))
    (temp_node : string) (path : list string)
    (st : gmap string dfs_color * list Issue)
    : option (bool * (gmap string dfs_color * list Issue)) :=
  match fuel with
  | O => None
  | S fuel' =>
      let '(colors, issues) := st in
      let colors :=
        match colors !! temp_node with
        | None => <[temp_node := WHITE]> colors
        | Some _ => colors
        end in
      match colors !! temp_node with
      | Some GRAY =>
          let issues :=
            match list_index temp_node path with
            | Some cycle_start_idx =>
                let cycle_nodes := drop cycle_start_idx path ++ [temp_node] in
                issues ++ [cycle_issue temp_node cycle_nodes (length issues)]
            | None => issues
            end in
          Some (true, (colors, issues))
      | Some BLACK => Some (false, (colors, issues))
      | _ =>
          let colors := <[temp_node := GRAY]> colors in
          let current_path := path ++ [temp_node] in
          match visit_until (λ neighbor st', dfs_visit fuel' graph neighbor current_path st')
                            (neighbors graph temp_node) (colors, issues) with
          | Some (false, (colors', issues')) =>
              Some (false, (<[temp_node := BLACK]> colors', issues'))
          | r => r
          end
      end
  end.

(** [for node in graph: if node not in colors or colors[node] == WHITE:
    dfs_visit(node, [])] *)
Fixpoint visit_roots (fuel : nat) (graph : list (string * list string))
    (roots : list string) (st : gmap string dfs_color * list Issue)
    : option (gmap string dfs_color * list Issue) :=
  match roots with
  | [] => Some st
  | node :: roots' =>
      match st.1 !! node with
      | None | Some WHITE =>
          match dfs_visit fuel graph node [] st with
          | Some (_, st') => visit_roots fuel graph roots' st'
          | None => None
          end
      | Some _ => visit_roots fuel graph roots' st
      end
  end.

(** [connection_map] of the source is written and never read; it is left
    out. *)
Definition _validate_circular_dependencies (conns : list (string * Connection))
    : option (list Issue) :=
  let graph := build_graph conns in
  snd <$> visit_roots (S (size (graph_nodes graph))) graph (PyDict.keys graph) (∅, []).

(** *** Unreachable nodes *)

Fixpoint for_each {S : Type} (body : string → S → option S)
    (l : list string) (st : S) : option S :=
  match l with
  | [] => Some st
  | x :: l' =>
      match body x st with
      | Some st' => for_each body l' st'
      | None => None
      end
  end.

Fixpoint dfs (fuel : nat) (graph : list (string * list string))
    (temp_node : string) (reachable : gset string) : option (gset string) :=
  match fuel with
  | O => None
  | S fuel' =>
      if bool_decide (temp_node ∈ reachable) then Some reachable
      else for_each (dfs fuel' graph) (neighbors graph temp_node)
                    ({[temp_node]} ∪ reachable)
  end.

Definition unreachable_issue (node_id : string) (node : BaseNode) : Issue :=
  mkIssue ("unreachable_node_" +:+ node_id)
          "warning"
          "Unreachable node"
          ("Node " +:+ dquote +:+ title node +:+ dquote
             +:+ " cannot be reached from any start point.")
          (Some node_id) None None
          false
          "Add a connection path from a start node or remove this node.".

(** [next(iter(s))]: the element the iterator of a set yields first. Which
    one that is Python does not specify; [choice] selects it, so that every
    element can come first and equal sets answer alike. *)
Definition set_first (choice : nat) (s : gset string) : option string :=
  elements s !! (choice `mod` size s).

Definition start_candidates (choice : nat) (all_nodes incoming : gset string)
    : gset string :=
  let start_nodes := all_nodes ∖ incoming in
  if bool_decide (start_nodes = ∅) then
    if bool_decide (all_nodes = ∅) then start_nodes
    else match set_first choice all_nodes with
         | Some n => {[n]}
         | None => start_nodes
         end
  else start_nodes.

(** The findings come in the iteration order of the set [unreachable], which
    Python leaves unspecified; the model lists them in the order of
    [elements]. [None] is the recursion budget running out, or the
    [KeyError] of [nodes[node_id]]. *)
Definition _validate_unreachable_nodes (choice : nat)
    (nodes : list (string * BaseNode)) (conns : list (string * Connection))
    : option (list Issue) :=
  if bool_decide (nodes = []) || bool_decide (conns = []) then Some []
  else
    let graph := build_graph conns in
    let incoming : gset string := list_to_set (to_node <$> PyDict.values conns) in
    let all_nodes : gset string := list_to_set (PyDict.keys nodes) in
    let start_nodes := start_candidates choice all_nodes incoming in
    reachable ← for_each (dfs (S (size (graph_nodes graph ∪ all_nodes))) graph)
                         (elements start_nodes) ∅;
    let unreachable := all_nodes ∖ reachable in
    mapM (λ node_id, node ← PyDict.get node_id nodes;
                     Some (unreachable_issue node_id node))
         (elements unreachable).

(** *** Condition syntax *)

(** [str.isspace] on the code points below 256. *)
Definition is_space (c : Ascii.ascii) : bool :=
  let n := Ascii.nat_of_ascii c in
  bool_decide (9 ≤ n ≤ 13 ∨ 28 ≤ n ≤ 32 ∨ n = 133 ∨ n = 160)%nat.

Fixpoint lstrip (s : string) : string :=
  match s with
  | EmptyString => EmptyString
  | String c s' => if is_space c then lstrip s' else s
  end.

Fixpoint rstrip (s : string) : string :=
  match s with
  | EmptyString => EmptyString
  | String c s' =>
      match rstrip s' with
      | EmptyString => if is_space c then EmptyString else String c EmptyString
      | r => String c r
      end
  end.

(** [s.strip()] *)
Definition strip (s : string) : string := rstrip (lstrip s).

(** [pattern in s] *)
Fixpoint str_in (pattern s : string) : bool :=
  if String.prefix pattern s then true
  else match s with
       | EmptyString => false
       | String _ s' => str_in pattern s'
       end.

Definition valid_patterns : list string :=
  ["player.level"; "player.gold"; "player."; "flags."; "reputation.";
   ">"; "<"; ">="; "<="; "=="; "!="; "and"; "or"; "not";
   "True"; "False"; "has_item"; "quest_completed"].

Definition _is_valid_condition (condition : string) : bool :=
  if bool_decide (condition = "") || bool_decide (strip condition = "") then true
  else existsb (λ pattern, str_in pattern condition) valid_patterns.

Definition node_condition_issue (node_id : string) (node : BaseNode) (condition : string) : Issue :=
  mkIssue ("invalid_condition_" +:+ node_id)
          "error"
          "Invalid condition syntax"
          ("Node " +:+ dquote +:+ title node +:+ dquote
             +:+ " has invalid condition: " +:+ condition)
          (Some node_id) None None
          false
          "Fix the condition syntax or remove the condition.".

Definition connection_condition_issue (conn_id : string) (conn : Connection) : Issue :=
  mkIssue ("invalid_connection_condition_" +:+ conn_id)
          "error"
          "Invalid connection condition"
          ("Connection has invalid condition: " +:+ condition conn)
          None (Some conn_id) None
          false
          "Fix the condition syntax.".

(** The inner loop over [node.conditions]. *)
Definition node_conditions_issues (node_id : string) (node : BaseNode) : list Issue :=
  flat_map (λ condition,
              if negb (_is_valid_condition condition)
              then [node_condition_issue node_id node condition] else [])
           (conditions node).

(** The body of the loop over [connections.items()]. *)
Definition connection_condition_issues (conn_id : string) (conn : Connection) : list Issue :=
  if negb (bool_decide (condition conn = "")) && negb (_is_valid_condition (condition conn))
  then [connection_condition_issue conn_id conn] else [].

Definition _validate_conditions (nodes : list (string * BaseNode))
    (conns : list (string * Connection)) : list Issue :=
  flat_map (λ kn, node_conditions_issues kn.1 kn.2) nodes
  ++ flat_map (λ kc, connection_condition_issues kc.1 kc.2) conns.

(** ** Specification vocabulary *)

(** The port object at position [i] of the port list of node [nid]. *)
Definition port_pos (nid : string) (i : nat) (ns : list (string * BaseNode)) : option Port :=
  match PyDict.get nid ns with
  | Some n => ports n !! i
  | None => None
  end.

(** Updates of a port object leave its id alone. *)
Definition id_preserving (f : Port → Port) : Prop := ∀ p, p_id (f p) = p_id p.

(** The bound of a port: a positive limit caps the peer list. *)
Definition limit_ok (p : Port) : Prop :=
  (0 < connection_limit p → Z.of_nat (length (connected_to p)) ≤ connection_limit p)%Z.

Definition limits_ok (self : NodeManager) : Prop :=
  Forall (λ kn, Forall limit_ok (ports kn.2)) (nodes self).

(** Connect and disconnect requests. *)
Inductive link_op :=
  | Connect (from_node_id from_port_id to_node_id to_port_id : string)
            (connection_type : ConnectionType) (connection_props : ConnectionProps)
            (uuid : string)
  | Disconnect (connection_id : string).

Definition apply_link_op (self : NodeManager) (op : link_op) : NodeManager :=
  match op with
  | Connect fn fp tn tp ct kw uuid => (add_connection fn fp tn tp ct kw uuid self).2
  | Disconnect cid => (remove_connection cid self).2
  end.

Definition run_link_ops (ops : list link_op) (self : NodeManager) : NodeManager :=
  foldl apply_link_op self ops.

(** In store [self] the request creates a connection into port [pid] of
    node [nid]. *)
Definition links_into (nid pid : string) (self : NodeManager) (op : link_op) : Prop :=
  match op with
  | Connect fn fp tn tp ct kw uuid =>
      tn = nid ∧ tp = pid ∧ is_Some (add_connection fn fp tn tp ct kw uuid self).1
  | Disconnect _ => False
  end.

(** Along the run of [ops] from [self], no connection is created into port
    [pid] of node [nid]. *)
Fixpoint never_linked_into (nid pid : string) (ops : list link_op)
    (self : NodeManager) : Prop :=
  match ops with
  | [] => True
  | op :: ops' =>
      ¬ links_into nid pid self op
      ∧ never_linked_into nid pid ops' (apply_link_op self op)
  end.

(** States the four structural operations produce from the empty store. *)
Inductive reachable : NodeManager → Prop :=
  | reach_init : reachable init
  | reach_add_node node self :
      reachable self → reachable (add_node node self).2
  | reach_remove_node node_id self :
      reachable self → reachable (remove_node node_id self).2
  | reach_add_connection fn fp tn tp ct kw uuid self :
      reachable self → reachable (add_connection fn fp tn tp ct kw uuid self).2
  | reach_remove_connection cid self :
      reachable self → reachable (remove_connection cid self).2.

(** Connection [c] leaves port [pid] of node [nid] for the port [q], or
    arrives at it from [q]. *)
Definition from_match (c : Connection) (nid pid q : string) : Prop :=
  from_node c = nid ∧ from_port c = pid ∧ to_port c = q.

Definition to_match (c : Connection) (nid pid q : string) : Prop :=
  to_node c = nid ∧ to_port c = pid ∧ from_port c = q.

Global Instance from_match_dec c nid pid q : Decision (from_match c nid pid q).
Proof. unfold from_match. apply _. Defined.

Global Instance to_match_dec c nid pid q : Decision (to_match c nid pid q).
Proof. unfold to_match. apply _. Defined.

(** Connection [c] accounts for the entry [q] in the peer list of port [pid]
    of node [nid]. *)
Definition accounts_for (c : Connection) (nid pid q : string) : Prop :=
  from_match c nid pid q ∨ to_match c nid pid q.

(** No port lists a peer for which no connection exists. *)
Definition no_dangling_peers (self : NodeManager) : Prop :=
  ∀ nid n p q,
    (nid, n) ∈ nodes self → p ∈ ports n → q ∈ connected_to p →
    ∃ cid c, (cid, c) ∈ connections self ∧ accounts_for c nid (p_id p) q.

(** Every connection is referenced from both of its endpoint ports. *)
Definition back_referenced (ns : list (string * BaseNode)) (c : Connection) : Prop :=
  (∃ p, port_at (from_node c) (from_port c) ns = Some p ∧ to_port c ∈ connected_to p)
  ∧ (∃ p, port_at (to_node c) (to_port c) ns = Some p ∧ from_port c ∈ connected_to p).

Definition consistent (self : NodeManager) : Prop :=
  (∀ cid c, (cid, c) ∈ connections self → back_referenced (nodes self) c)
  ∧ no_dangling_peers self.

(** The connection dict is keyed by the ids of its connections. *)
Definition keyed_by_id (conns : list (string * Connection)) : Prop :=
  Forall (λ kc, kc.1 = c_id kc.2) conns ∧ NoDup (PyDict.keys conns).

(** [pattern] occurs in [s]. *)
Definition is_substring (pattern s : string) : Prop :=
  ∃ a b, s = a +:+ pattern +:+ b.

(** Only whitespace, if anything. *)
Definition is_blank (s : string) : Prop :=
  Forall (λ c, is_space c = true) (String.list_ascii_of_string s).

(** The condition strings the syntax check is to reject: not blank after
    trimming, and none of the whitelisted tokens occurs in them. *)
Definition implausible (condition : string) : Prop :=
  strip condition ≠ ""
  ∧ ∀ pattern, pattern ∈ valid_patterns → ¬ is_substring pattern condition.

(** [findings_of P mk l r]: [r] holds one finding [mk x] for each [x] of [l]
    that satisfies [P], in the order of [l], and nothing else. *)
Inductive findings_of {A : Type} (P : A → Prop) (mk : A → Issue)
    : list A → list Issue → Prop :=
  | findings_nil : findings_of P mk [] []
  | findings_flag x l r :
      P x → findings_of P mk l r → findings_of P mk (x :: l) (mk x :: r)
  | findings_pass x l r :
      ¬ P x → findings_of P mk l r → findings_of P mk (x :: l) r.

(** How often [q] occurs in a peer list. *)
Definition count_peer (q : string) (l : list string) : nat :=
  length (filter (λ y, y = q) l).

(** How many back-references to [q] the connections ask of port [pid] of
    node [nid]: one for each connection leaving it for [q], one for each
    connection arriving at it from [q]. *)
Definition refs (conns : list (string * Connection)) (nid pid q : string) : nat :=
  length (filter (λ kc, from_match kc.2 nid pid q) conns)
  + length (filter (λ kc, to_match kc.2 nid pid q) conns).

(** Every port the store can address lists each peer exactly as often as
    the connections ask. *)
Definition exactly_referenced (self : NodeManager) : Prop :=
  ∀ nid pid p q,
    port_at nid pid (nodes self) = Some p →
    count_peer q (connected_to p) = refs (connections self) nid pid q.

(** Both ports of every connection exist. *)
Definition endpoints_resolve (self : NodeManager) : Prop :=
  ∀ k c, (k, c) ∈ connections self →
    is_Some (port_at (from_node c) (from_port c) (nodes self))
    ∧ is_Some (port_at (to_node c) (to_port c) (nodes self)).

(** A port that shares its id with an earlier port of its node cannot be
    addressed; its peer list is empty. *)
Definition shadowed_empty (ns : list (string * BaseNode)) : Prop :=
  ∀ nid n i j p q,
    PyDict.get nid ns = Some n → (i < j)%nat →
    ports n !! i = Some p → ports n !! j = Some q → p_id p = p_id q →
    connected_to q = [].

Definition balanced (self : NodeManager) : Prop :=
  keyed_by_id (connections self)
  ∧ NoDup (PyDict.keys (nodes self))
  ∧ endpoints_resolve self
  ∧ exactly_referenced self
  ∧ shadowed_empty (nodes self).

(** States built from the empty store by adding nodes that are new to the
    store and carry no peer entries yet, by connecting under a connection id
    that is not in use, and by disconnecting. *)
Inductive built : NodeManager → Prop :=
  | built_init : built init
  | built_add_node node self :
      built self →
      PyDict.get (n_id (add_node node self).1) (nodes self) = None →
      Forall (λ p, connected_to p = []) (ports node) →
      built (add_node node self).2
  | built_add_connection fn fp tn tp ct kw uuid self :
      built self →
      PyDict.get (default uuid (kw_id kw)) (connections self) = None →
      built (add_connection fn fp tn tp ct kw uuid self).2
  | built_remove_connection cid self :
      built self → built (remove_connection cid self).2.

(** Peer lists only grow from [ns] to [ns']. *)
Definition peers_extend (ns ns' : list (string * BaseNode)) : Prop :=
  ∀ nid pid p,
    port_at nid pid ns = Some p →
    ∃ p', port_at nid pid ns' = Some p' ∧ connected_to p ⊆ connected_to p'.

(** Every peer entry of [ns'] was there in [ns] or is accounted for by a
    connection of [cs]. *)
Definition peers_justified (ns ns' : list (string * BaseNode)) (cs : list Connection) : Prop :=
  ∀ nid pid p' q,
    port_at nid pid ns' = Some p' → q ∈ connected_to p' →
    (∃ p, port_at nid pid ns = Some p ∧ q ∈ connected_to p)
    ∨ (∃ c, c ∈ cs ∧ accounts_for c nid pid q).

(** The directed edge a connection stands for, whatever its category. *)
Definition edge_of (kc : string * Connection) : string * string :=
  (from_node kc.2, to_node kc.2).

Definition conn_edge (conns : list (string * Connection)) (x y : string) : Prop :=
  ∃ kc, kc ∈ conns ∧ from_node kc.2 = x ∧ to_node kc.2 = y.

(** No node reaches itself along one or more connections. *)
Definition acyclic (conns : list (string * Connection)) : Prop :=
  ∀ x, ¬ tc (conn_edge conns) x x.

(** The nodes the traversal has entered: gray or black. *)
Definition colored (colors : gmap string dfs_color) : gset string :=
  dom (filter (λ kv, kv.2 ≠ WHITE) colors).

(** A connection carrying a given edge and nothing else. *)
Definition connection_of_edge (e : string * string) : string * Connection :=
  ("", mkConnection "" e.1 e.2 "" "" SIMPLE "" 0%Z [] [] [] "" [] []).

(** What one call of [dfs] on [node] makes of the set [r]: the set grows,
    holds the node, gains only nodes the node leads to, and holds the
    neighbours of every node it gains. *)
Definition dfs_post (graph : list (string * list string)) (node : string)
    (r r' : gset string) : Prop :=
  r ⊆ r' ∧ node ∈ r'
  ∧ (∀ x, x ∈ r' → x ∈ r ∨ rtc (λ a b, b ∈ neighbors graph a) node x)
  ∧ (∀ x y, x ∈ r' → x ∉ r → y ∈ neighbors graph x → y ∈ r').

(** Some connection ends in [x]. *)
Definition has_incoming (conns : list (string * Connection)) (x : string) : Prop :=
  ∃ kc, kc ∈ conns ∧ to_node kc.2 = x.

(** The start candidates in the words of the specification: the nodes with
    no incoming connection or, when every node has one, the node the set
    iterator yields first. *)
Definition is_start (choice : nat) (nodes : list (string * BaseNode))
    (conns : list (string * Connection)) (x : string) : Prop :=
  (x ∈ PyDict.keys nodes ∧ ¬ has_incoming conns x)
  ∨ ((∀ y, y ∈ PyDict.keys nodes → has_incoming conns y)
     ∧ set_first choice (list_to_set (PyDict.keys nodes)) = Some x).

Definition reachable_from_start (choice : nat) (nodes : list (string * BaseNode))
    (conns : list (string * Connection)) (x : string) : Prop :=
  ∃ s, is_start choice nodes conns s ∧ rtc (conn_edge conns) s x.

(** The nodes a list of findings points at. *)
Definition issue_targets (issues : list Issue) : list string :=
  omap i_node_id issues.

(** A prerequisite or dependency connection from [x] to [y]. *)
Definition dep_edge (conns : list (string * Connection)) (x y : string) : Prop :=
  ∃ kc, kc ∈ conns ∧ from_node kc.2 = x ∧ to_node kc.2 = y
        ∧ is_dependency_edge kc.2 = true.

(** Consecutive elements of the list are related. *)
Definition chain (R : relation string) (l : list string) : Prop :=
  ∀ i x y, l !! i = Some x → l !! S i = Some y → R x y.

(** A cycle as [detect_circular_dependencies] reports it: the closing node
    at both ends, consecutive nodes joined by dependency edges. *)
Definition closed_cycle (conns : list (string * Connection)) (cyc : list string) : Prop :=
  (2 ≤ length cyc)%nat ∧ head cyc = last cyc ∧ chain (dep_edge conns) cyc.

(** ** Fixtures *)

Definition plain_port (i direction : string) (limit : Z) : Port :=
  mkPort i i direction "any" [] (0, 0)%Z limit false.

Definition plain_node (i : string) (ps : list Port) : BaseNode :=
  mkBaseNode i NT_DIALOGUE i (0, 0)%Z (200, 100)%Z (100, 100, 100)%Z ps []
             false true [] [] [] [].

Definition plain_connection (i f t : string) (ty : ConnectionType) : Connection :=
  mkConnection i f t "out" "in" ty "" 0%Z [] [] [] "" [] [].

(** Two nodes A and B joined by one connection from A's output [a] to B's
    input [b]. *)
Definition store_AB : NodeManager :=
  (add_node (plain_node "B" [plain_port "b" "input" (-1)])
     (add_node (plain_node "A" [plain_port "a" "output" (-1)]) init).2).2.

Definition store_AB_linked : NodeManager :=
  (add_connection "A" "a" "B" "b" SIMPLE no_props "c1" store_AB).2.

(** X has an output port of limit 1; Y and Z have one input port each; W has
    an unlimited output. Y's input has limit 1. *)
Definition store_XYZ : NodeManager :=
  (add_node (plain_node "W" [plain_port "out" "output" (-1)])
  (add_node (plain_node "Z" [plain_port "in" "input" (-1)])
  (add_node (plain_node "Y" [plain_port "in" "input" 1])
  (add_node (plain_node "X" [plain_port "out" "output" 1]) init).2).2).2).2.

Definition store_XY_linked : NodeManager :=
  (add_connection "X" "out" "Y" "in" SIMPLE no_props "c1" store_XYZ).2.

(** Requests that use X's output as their source; the last one names it as
    destination and is refused, node V being unknown. *)
Definition requests_from_X : list link_op :=
  [Connect "X" "out" "Y" "in" SIMPLE no_props "c1";
   Connect "X" "out" "Z" "in" SIMPLE no_props "c2";
   Disconnect "c1";
   Connect "X" "out" "Z" "in" SIMPLE no_props "c3";
   Connect "V" "out" "X" "out" SIMPLE no_props "c4"].

(** A store that holds node B only, after the import of a connection whose
    source node A is not there. *)
Definition store_B_orphan_link : NodeManager :=
  import_connections (λ _, "u")
    [export_connection (mkConnection "c1" "A" "B" "a" "b" SIMPLE "" 0%Z [] [] [] "" [] [])]
    (add_node (plain_node "B" [mkPort "b" "b" "input" "any" ["a"] (0, 0)%Z (-1)%Z false]) init).2.

(** Five nodes with an input and an output each, and four connections of
    mixed categories, one of them gated on a resource. *)
Definition two_port_node (i : string) : BaseNode :=
  plain_node i [plain_port "in" "input" (-1); plain_port "out" "output" (-1)].

Definition five_nodes : NodeManager :=
  foldl (λ s i, (add_node (two_port_node i) s).2) init ["N1"; "N2"; "N3"; "N4"; "N5"].

Definition store_five : NodeManager :=
  let s1 := (add_connection "N1" "out" "N2" "in" SIMPLE no_props "e1" five_nodes).2 in
  let s2 := (add_connection "N2" "out" "N3" "in" CONDITIONAL
               (mkProps None (Some "player.level > 3") (Some 2%Z) None None None None None None)
               "e2" s1).2 in
  let s3 := (add_connection "N3" "out" "N4" "in" RESOURCE_GATED
               (mkProps None None None (Some [("gold", 100%Z)]) (Some ["has_key"])
                        None None (Some [("gold", PyInt (-50))]) None)
               "e3" s2).2 in
  (add_connection "N4" "out" "N5" "in" PREREQUISITE no_props "e4" s3).2.

(** Three prerequisite connections: A and B depend on each other, and C
    leads into that loop. *)
Definition store_loop_and_entry : NodeManager :=
  mkManager [("A", plain_node "A" []); ("B", plain_node "B" []); ("C", plain_node "C" [])]
            [("1", plain_connection "1" "A" "B" PREREQUISITE);
             ("2", plain_connection "2" "B" "A" PREREQUISITE);
             ("3", plain_connection "3" "C" "A" DEPENDENCY)]
            1%Z.

(** A directed acyclic graph on the three nodes A, B and C. *)
Definition dag_connections : list (string * Connection) :=
  [("1", plain_connection "1" "A" "B" SIMPLE);
   ("2", plain_connection "2" "B" "C" CONDITIONAL);
   ("3", plain_connection "3" "A" "C" SIMPLE)].

Definition dag_rank (x : string) : nat :=
  if decide (x = "A") then 0 else if decide (x = "B") then 1 else 2.

(** Nodes A, B and D with the single connection A -> B: D is isolated. *)
Definition nodes_ABD : list (string * BaseNode) :=
  [("A", plain_node "A" []); ("B", plain_node "B" []); ("D", plain_node "D" [])].

Definition connections_AB : list (string * Connection) :=
  [("1", plain_connection "1" "A" "B" SIMPLE)].

(** Nodes A, B, D and E: A -> B, and D and E feed each other. *)
Definition nodes_ABDE : list (string * BaseNode) :=
  [("A", plain_node "A" []); ("B", plain_node "B" []);
   ("D", plain_node "D" []); ("E", plain_node "E" [])].

Definition connections_AB_DE : list (string * Connection) :=
  [("1", plain_connection "1" "A" "B" SIMPLE);
   ("2", plain_connection "2" "D" "E" SIMPLE);
   ("3", plain_connection "3" "E" "D" SIMPLE)].

(** A node whose port comes with a peer entry, as read back from a saved
    file. *)
Definition store_B_preloaded : NodeManager :=
  (add_node (plain_node "B" [mkPort "b" "b" "input" "any" ["a"] (0, 0)%Z (-1)%Z false])
            init).2.

(** Node A added a second time, as a new object, after it was linked to B. *)
Definition store_A_readded : NodeManager :=
  (add_node (plain_node "A" [plain_port "a" "output" (-1)]) store_AB_linked).2.

(** Two connects under the same connection id: W to Z, then X to Y. *)
Definition store_id_reused : NodeManager :=
  (add_connection "X" "out" "Y" "in" SIMPLE
     (mkProps (Some "c1") None None None None None None None None) "u2"
     (add_connection "W" "out" "Z" "in" SIMPLE
        (mkProps (Some "c1") None None None None None None None None) "u1"
        store_XYZ).2).2.

(** ** Further operations of the graph store *)

(** [NodeManager.get_all_nodes] *)
Definition get_all_nodes (self : NodeManager) : list BaseNode :=
  PyDict.values (nodes self).

(** [NodeManager.clear] *)
Definition clear (self : NodeManager) : NodeManager := mkManager [] [] 1%Z.

(** [NodeManager.get_prerequisites] *)
Definition get_prerequisites (node_id : string) (self : NodeManager) : list string :=
  from_node <$>
    filter (λ conn, to_node conn = node_id ∧ is_dependency_edge conn = true)
           (PyDict.values (connections self)).

(** The closure [dfs] of [NodeManager.validate_connection_path]; the state
    is the pair of the captured variables [path] and [visited]. *)
Fixpoint path_dfs (fuel : nat) (conns : list (string * Connection))
    (current_id target_id : string) (current_path : list string)
    (st : list string * gset string)
    : result (bool * (list string * gset string)) :=
  match fuel with
  | O => OutOfFuel
  | S fuel' =>
      if bool_decide (current_id = target_id) then
        Ok (true, (st.1 ++ (current_path ++ [current_id]), st.2))
      else if bool_decide (current_id ∈ st.2) then Ok (false, st)
      else
        loop_until
          (λ conn st',
             if bool_decide (from_node conn = current_id)
             then path_dfs fuel' conns (to_node conn) target_id
                           (current_path ++ [current_id]) st'
             else Ok (false, st'))
          (PyDict.values conns) (st.1, {[current_id]} ∪ st.2)
  end.

Definition validate_connection_path (start_node_id end_node_id : string)
    (self : NodeManager) : result (list string) :=
  match path_dfs (S (size ({[start_node_id]} ∪ store_node_ids self)))
                 (connections self) start_node_id end_node_id [] ([], ∅) with
  | Ok (true, (path, _)) => Ok path
  | Ok (false, _) => Ok []
  | ValueError => ValueError
  | OutOfFuel => OutOfFuel
  end.

(** ** Node classes ([dialogue_system.py], [quest_system.py]) *)

(** [node_type.value] *)
Definition NodeType_value (t : NodeType) : string :=
  match t with
  | NT_DIALOGUE => "dialogue"
  | NT_QUEST => "quest"
  | NT_OBJECTIVE => "objective"
  | NT_CHOICE => "choice"
  | NT_CONDITION => "condition"
  | NT_HUB => "hub"
  | NT_MERGE => "merge"
  | NT_STATE_CHANGE => "state_change"
  | NT_RESOURCE_CHECK => "resource_check"
  | NT_TIME_CHECK => "time_check"
  | NT_REPUTATION_CHECK => "reputation_check"
  end.

Record DialogueChoice := mkDialogueChoice {
  ch_text : string;
  ch_next : string;
  ch_condition : string;
  ch_required_resources : list (string * Z);
  ch_required_flags : list string;
  ch_state_changes : list (string * pyval);
  ch_reputation_changes : list (string * Z)
}.

Record QuestObjective := mkQuestObjective {
  o_id : string;
  o_description : string;
  dependencies : list string;
  optional : bool;
  completed : bool;
  o_condition : string;
  auto_complete : bool;
  hidden : bool;
  progress_current : Z;
  progress_required : Z;
  progress_type : string
}.

(** The fields [DialogueNode] adds to [BaseNode]. *)
Record DialogueFields := mkDialogueFields {
  speaker : string;
  text : string;
  choices : list DialogueChoice;
  next : string;
  is_hub : bool;
  hub_return_text : string;
  display_condition : string;
  once_only : bool;
  times_seen : Z
}.

(** The fields [QuestNode] adds to [BaseNode]. *)
Record QuestFields := mkQuestFields {
  q_description : string;
  q_priority : Z;
  prerequisites : list string;
  objectives : list QuestObjective;
  reward_xp : Z;
  reward_gold : Z;
  auto_start : bool;
  repeatable : bool;
  time_limit : Z;
  region_locked : string;
  level_requirement : Z;
  can_fail : bool;
  failure_conditions : list string;
  branches : list (string * list string)
}.

(** The fields [ObjectiveNode] adds to [BaseNode]. *)
Record ObjectiveFields := mkObjectiveFields {
  on_description : string;
  on_dependencies : list string;
  on_optional : bool;
  parent_quest : string;
  on_condition : string;
  on_progress_current : Z;
  on_progress_required : Z;
  on_progress_type : string;
  on_auto_complete : bool;
  on_hidden : bool
}.

(** The class of a node object with the fields the class adds.
    [StateChangeNode] redeclares [state_changes], which [BaseNode] already
    has, and adds [reputation_changes]. *)
Inductive NodeClass :=
  | IsBaseNode
  | IsDialogueNode (d : DialogueFields)
  | IsConditionNode (cn_condition true_path false_path : string)
  | IsMergeNode (merge_text : string)
  | IsStateChangeNode (sc_reputation_changes : list (string * Z))
  | IsQuestNode (q : QuestFields)
  | IsObjectiveNode (o : ObjectiveFields).

(** A node object of any of the classes. *)
Record Node := mkNode {
  base : BaseNode;
  subclass : NodeClass
}.

(** [hasattr(node, a)] for the attributes [speaker], [text], [choices],
    [is_hub] and [hub_return_text]: of the node classes, [DialogueNode]
    alone declares them. *)
Definition as_dialogue (node : Node) : option DialogueFields :=
  match subclass node with IsDialogueNode d => Some d | _ => None end.

(** [hasattr(node, a)] for the attributes [objectives], [time_limit] and
    [can_fail]: [QuestNode] alone declares them. *)
Definition as_quest (node : Node) : option QuestFields :=
  match subclass node with IsQuestNode q => Some q | _ => None end.

(** The node dict as the analyses see it that read attributes of
    [BaseNode] only. *)
Definition base_nodes (nodes : list (string * Node)) : list (string * BaseNode) :=
  prod_map id base <$> nodes.

(** ** Further analyses of the validation engine ([storyforge/dialogs.py]) *)

(** [not s or s.strip() == ""] *)
Definition is_empty_text (s : string) : bool :=
  bool_decide (s = "") || bool_decide (strip s = "").

Definition empty_title_issue (node_id : string) (node : Node) : Issue :=
  mkIssue ("empty_title_" +:+ node_id)
          "warning"
          ("Empty title in " +:+ NodeType_value (node_type (base node)) +:+ " node")
          ("Node " +:+ node_id +:+ " has no title set.")
          (Some node_id) None None
          true
          "Set a descriptive title for this node.".

Definition empty_text_issue (node_id : string) (node : Node) : Issue :=
  mkIssue ("empty_text_" +:+ node_id)
          "error"
          "Empty dialogue text"
          ("Dialogue node " +:+ dquote +:+ title (base node) +:+ dquote
             +:+ " has no text content.")
          (Some node_id) None None
          true
          "Add dialogue text to this node.".

Definition no_objectives_issue (node_id : string) (node : Node) : Issue :=
  mkIssue ("no_objectives_" +:+ node_id)
          "error"
          "Quest has no objectives"
          ("Quest " +:+ dquote +:+ title (base node) +:+ dquote
             +:+ " has no objectives defined.")
          (Some node_id) None None
          true
          "Add at least one objective to this quest.".

(** The body of the loop of [_validate_basic_nodes]. *)
Definition basic_node_issues (node_id : string) (node : Node) : list Issue :=
  (if is_empty_text (title (base node)) then [empty_title_issue node_id node] else [])
  ++ match as_dialogue node with
     | Some d => if is_empty_text (text d) then [empty_text_issue node_id node] else []
     | None => []
     end
  ++ match as_quest node with
     | Some q =>
         if bool_decide (length (objectives q) = 0)
         then [no_objectives_issue node_id node] else []
     | None => []
     end.

Definition _validate_basic_nodes (nodes : list (string * Node)) : list Issue :=
  flat_map (λ kn, basic_node_issues kn.1 kn.2) nodes.

Definition missing_from_node_issue (conn_id : string) (conn : Connection) : Issue :=
  mkIssue ("missing_from_node_" +:+ conn_id)
          "error"
          "Connection references missing node"
          ("Connection " +:+ conn_id +:+ " references non-existent source node "
             +:+ from_node conn)
          None (Some conn_id) None
          false
          "Remove this connection or create the missing node.".

Definition missing_to_node_issue (conn_id : string) (conn : Connection) : Issue :=
  mkIssue ("missing_to_node_" +:+ conn_id)
          "error"
          "Connection references missing node"
          ("Connection " +:+ conn_id +:+ " references non-existent target node "
             +:+ to_node conn)
          None (Some conn_id) None
          false
          "Remove this connection or create the missing node.".

(** The body of the loop of [_validate_connections]; the analysis reads the
    keys of the node dict only, whatever the node objects are. *)
Definition connection_issues {N : Type} (nodes : list (string * N))
    (conn_id : string) (conn : Connection) : list Issue :=
  (if negb (PyDict.contains (from_node conn) nodes)
   then [missing_from_node_issue conn_id conn] else [])
  ++ (if negb (PyDict.contains (to_node conn) nodes)
      then [missing_to_node_issue conn_id conn] else []).

Definition _validate_connections {N : Type} (conns : list (string * Connection))
    (nodes : list (string * N)) : list Issue :=
  flat_map (λ kc, connection_issues nodes kc.1 kc.2) conns.

(** [c.lower()] on the code points below 256: the capital letters of ASCII
    and of Latin-1 move up by 32. *)
Definition lower_char (c : Ascii.ascii) : Ascii.ascii :=
  let n := Ascii.nat_of_ascii c in
  if bool_decide (65 ≤ n ≤ 90 ∨ 192 ≤ n ≤ 214 ∨ 216 ≤ n ≤ 222)%nat
  then Ascii.ascii_of_nat (n + 32) else c.

(** [s.lower()] *)
Fixpoint lower (s : string) : string :=
  match s with
  | EmptyString => EmptyString
  | String c s' => String (lower_char c) (lower s')
  end.

Definition end_words : list string := ["end"; "finish"; "complete"; "exit"].

Definition dead_end_issue (node_id : string) (node : BaseNode) : Issue :=
  mkIssue ("dead_end_" +:+ node_id)
          "warning"
          "Potential dead end"
          ("Node " +:+ dquote +:+ title node +:+ dquote
             +:+ " has no outgoing connections.")
          (Some node_id) None None
          false
          "Add connections from this node or mark it as an end node.".

(** The body of the loop of [_validate_dead_ends]; [hasattr(node, 'title')]
    and [hasattr(node, 'node_type')] hold of every node object. *)
Definition dead_end_issues (outgoing : list (string * list string))
    (node_id : string) (node : BaseNode) : list Issue :=
  if existsb (λ end_word, str_in end_word (lower (title node))) end_words then []
  else if bool_decide (NodeType_value (node_type node) ∈ ["end"; "complete"]) then []
  else if match PyDict.get node_id outgoing with
          | None => true
          | Some targets => bool_decide (length targets = 0)
          end
       then [dead_end_issue node_id node]
       else [].

(** The dict [outgoing] is built as the adjacency dict of the topology
    analyses is. *)
Definition _validate_dead_ends (nodes : list (string * BaseNode))
    (conns : list (string * Connection)) : list Issue :=
  let outgoing := build_graph conns in
  flat_map (λ kn, dead_end_issues outgoing kn.1 kn.2) nodes.

Definition orphaned_node_issue (node_id : string) (node : Node) : Issue :=
  mkIssue ("orphaned_node_" +:+ node_id)
          "warning"
          "Orphaned node"
          ("Node " +:+ dquote +:+ title (base node) +:+ dquote
             +:+ " has no connections.")
          (Some node_id) None None
          false
          "Connect this node to the dialogue/quest flow or remove it.".

(** [connected_nodes] after the loop over [connections.values()]. *)
Definition connected_nodes (conns : list (string * Connection)) : gset string :=
  foldl (λ s conn, {[to_node conn]} ∪ ({[from_node conn]} ∪ s)) ∅ (PyDict.values conns).

(** [hasattr(node, 'speaker') and 'start' in node.title.lower()] *)
Definition is_start_dialogue (node : Node) : bool :=
  match as_dialogue node with
  | Some _ => str_in "start" (lower (title (base node)))
  | None => false
  end.

Definition orphaned_node_issues (connected : gset string)
    (node_id : string) (node : Node) : list Issue :=
  if bool_decide (node_id ∉ connected) then
    if negb (is_start_dialogue node) then [orphaned_node_issue node_id node] else []
  else [].

Definition _validate_orphaned_nodes (nodes : list (string * Node))
    (conns : list (string * Connection)) : list Issue :=
  let connected := connected_nodes conns in
  flat_map (λ kn, orphaned_node_issues connected kn.1 kn.2) nodes.

Definition negative_resource_issue (node_id : string) (node : BaseNode)
    (resource : string) (amount : Z) : Issue :=
  mkIssue ("negative_resource_" +:+ node_id +:+ "_" +:+ resource)
          "warning"
          "Negative resource requirement"
          ("Node " +:+ dquote +:+ title node +:+ dquote
             +:+ " requires negative " +:+ resource +:+ ": " +:+ pretty amount)
          (Some node_id) None None
          true
          "Use positive values for resource requirements.".

Definition high_resource_issue (node_id : string) (node : BaseNode)
    (resource : string) (amount : Z) : Issue :=
  mkIssue ("high_resource_" +:+ node_id +:+ "_" +:+ resource)
          "warning"
          "Very high resource requirement"
          ("Node " +:+ dquote +:+ title node +:+ dquote
             +:+ " requires " +:+ pretty amount +:+ " " +:+ resource
             +:+ ". This seems very high.")
          (Some node_id) None None
          false
          "Consider if this resource requirement is intentional.".

(** The inner loop over [node.required_resources.items()]. *)
Definition resource_issues (node_id : string) (node : BaseNode) : list Issue :=
  flat_map (λ ra : string * Z,
              if bool_decide (ra.2 < 0)%Z
              then [negative_resource_issue node_id node ra.1 ra.2]
              else if bool_decide (ra.2 > 999999)%Z
                   then [high_resource_issue node_id node ra.1 ra.2]
                   else [])
           (n_required_resources node).

(** The argument [connections] is not read. *)
Definition _validate_resource_requirements (nodes : list (string * BaseNode))
    (conns : list (string * Connection)) : list Issue :=
  flat_map (λ kn, resource_issues kn.1 kn.2) nodes.

Definition time_limit_no_fail_issue (node_id : string) (quest : Node) : Issue :=
  mkIssue ("time_limit_no_fail_" +:+ node_id)
          "warning"
          "Time limit without failure"
          ("Quest " +:+ dquote +:+ title (base quest) +:+ dquote
             +:+ " has time limit but cannot fail.")
          (Some node_id) None None
          true
          "Enable failure for timed quests or remove time limit.".

Definition missing_objective_dependency_issue (node_id : string)
    (obj : QuestObjective) (dep : string) : Issue :=
  mkIssue ("missing_objective_dependency_" +:+ node_id +:+ "_" +:+ o_id obj)
          "error"
          "Missing objective dependency"
          ("Objective " +:+ dquote +:+ o_description obj +:+ dquote
             +:+ " depends on non-existent objective " +:+ dquote +:+ dep +:+ dquote)
          (Some node_id) None None
          false
          "Add the missing objective or remove the dependency.".

(** The two nested loops over the objectives and their dependencies. *)
Definition objective_dependency_issues (node_id : string) (q : QuestFields)
    : list Issue :=
  let objective_ids := o_id <$> objectives q in
  flat_map (λ obj,
              flat_map (λ dep,
                          if bool_decide (dep ∉ objective_ids)
                          then [missing_objective_dependency_issue node_id obj dep]
                          else [])
                       (dependencies obj))
           (objectives q).

(** The body of the loop over [quest_nodes], the entries of [nodes] that
    have [objectives]. *)
Definition quest_chain_issues (node_id : string) (quest : Node) : list Issue :=
  match as_quest quest with
  | None => []
  | Some q =>
      (if bool_decide (time_limit q > 0)%Z && negb (can_fail q)
       then [time_limit_no_fail_issue node_id quest] else [])
      ++ objective_dependency_issues node_id q
  end.

(** The argument [connections] is not read. *)
Definition _validate_quest_chains (nodes : list (string * Node))
    (conns : list (string * Connection)) : list Issue :=
  flat_map (λ kn, quest_chain_issues kn.1 kn.2) nodes.

Definition choice_node_no_choices_issue (node_id : string) (dialogue : Node) : Issue :=
  mkIssue ("choice_node_no_choices_" +:+ node_id)
          "error"
          "Choice node without choices"
          ("Choice node " +:+ dquote +:+ title (base dialogue) +:+ dquote
             +:+ " has no choices defined.")
          (Some node_id) None None
          true
          "Add choices to this node or change it to a regular dialogue node.".

Definition hub_no_return_issue (node_id : string) (dialogue : Node) : Issue :=
  mkIssue ("hub_no_return_" +:+ node_id)
          "warning"
          "Hub without return text"
          ("Hub dialogue " +:+ dquote +:+ title (base dialogue) +:+ dquote
             +:+ " has no return text.")
          (Some node_id) None None
          true
          "Add return text for the hub menu.".

(** The body of the loop over [dialogue_nodes], the entries of [nodes] that
    have [speaker]. *)
Definition dialogue_flow_issues (node_id : string) (dialogue : Node) : list Issue :=
  match as_dialogue dialogue with
  | None => []
  | Some d =>
      (if bool_decide (NodeType_value (node_type (base dialogue)) = "choice")
          && bool_decide (length (choices d) = 0)
       then [choice_node_no_choices_issue node_id dialogue] else [])
      ++ (if is_hub d && bool_decide (hub_return_text d = "")
          then [hub_no_return_issue node_id dialogue] else [])
  end.

(** The argument [connections] is not read. *)
Definition _validate_dialogue_flows (nodes : list (string * Node))
    (conns : list (string * Connection)) : list Issue :=
  flat_map (λ kn, dialogue_flow_issues kn.1 kn.2) nodes.

(** [validate_project]: the findings of the ten analyses in the order they
    are run. [None] is the recursion budget of a topology analysis running
    out. *)
Definition validate_project (choice : nat) (nodes : list (string * Node))
    (conns : list (string * Connection)) : option (list Issue) :=
  circular ← _validate_circular_dependencies conns;
  unreachable ← _validate_unreachable_nodes choice (base_nodes nodes) conns;
  Some (_validate_basic_nodes nodes
        ++ _validate_connections conns nodes
        ++ circular
        ++ unreachable
        ++ _validate_dead_ends (base_nodes nodes) conns
        ++ _validate_orphaned_nodes nodes conns
        ++ _validate_conditions (base_nodes nodes) conns
        ++ _validate_resource_requirements (base_nodes nodes) conns
        ++ _validate_quest_chains nodes conns
        ++ _validate_dialogue_flows nodes conns).

(** ** Further specification vocabulary *)

(** One operation on the store: the four editing operations and the import
    of a connection list. *)
Inductive store_step : relation NodeManager :=
  | step_add_node node self : store_step self (add_node node self).2
  | step_remove_node node_id self : store_step self (remove_node node_id self).2
  | step_add_connection fn fp tn tp ct kw uuid self :
      store_step self (add_connection fn fp tn tp ct kw uuid self).2
  | step_remove_connection cid self :
      store_step self (remove_connection cid self).2
  | step_import_connections uuid4 data self :
      store_step self (import_connections uuid4 data self).

(** Both endpoint nodes of every connection are in the node dict. *)
Definition endpoints_known {N : Type} (conns : list (string * Connection))
    (nodes : list (string * N)) : Prop :=
  ∀ k c, (k, c) ∈ conns →
    is_Some (PyDict.get (from_node c) nodes) ∧ is_Some (PyDict.get (to_node c) nodes).

(** Some connection leaves [x]. *)
Definition has_outgoing (conns : list (string * Connection)) (x : string) : Prop :=
  ∃ kc, kc ∈ conns ∧ from_node kc.2 = x.

(** The title names the node as an end, in any case of the letters. *)
Definition has_end_word (title : string) : Prop :=
  ∃ end_word, end_word ∈ end_words ∧ is_substring end_word (lower title).

(** A finding is an error or a warning. *)
Definition error_or_warning (issue : Issue) : Prop :=
  level issue = "error" ∨ level issue = "warning".

(** The prerequisite and dependency connections among [conns]. *)
Definition dependency_connections (conns : list (string * Connection))
    : list (string * Connection) :=
  filter (λ kc, is_dependency_edge kc.2 = true) conns.

(** Port [p'] is port [p] but for its peer list, which is [l] in some
    order. *)
Definition same_port_but_peers (p p' : Port) (l : list string) : Prop :=
  p_id p' = p_id p ∧ name p' = name p ∧ port_type p' = port_type p
  ∧ data_type p' = data_type p ∧ p_position p' = p_position p
  ∧ connection_limit p' = connection_limit p ∧ required p' = required p
  ∧ connected_to p' ≡ₚ l.

(** Two port objects that differ in the order of their peer lists at
    most. *)
Definition same_port_up_to_order (p p' : Port) : Prop :=
  same_port_but_peers p p' (connected_to p).

(** A route from [x] to [y]: the list starts with [x], ends with [y], runs
    along connections, and passes no node twice. *)
Definition route (conns : list (string * Connection)) (x y : string)
    (l : list string) : Prop :=
  head l = Some x ∧ last l = Some y ∧ chain (conn_edge conns) l ∧ NoDup l.

(** The nodes the cycle search has left, visited and off the recursion
    stack, lead to such nodes only, and none of them lies on a cycle of
    prerequisite and dependency connections. *)
Definition finished_closed (conns : list (string * Connection)) (st : cycle_state) : Prop :=
  (∀ x y, x ∈ visited st → x ∉ rec_stack st → dep_edge conns x y →
          y ∈ visited st ∧ y ∉ rec_stack st)
  ∧ (∀ x, x ∈ visited st → x ∉ rec_stack st → ¬ tc (dep_edge conns) x x).

(** No cycle of prerequisite and dependency connections can be reached
    from [x] along such connections. *)
Definition cycle_free_from (conns : list (string * Connection)) (x : string) : Prop :=
  ∀ y, rtc (dep_edge conns) x y → ¬ tc (dep_edge conns) y y.

(** The colour of a node; a node without an entry counts as white. *)
Definition color_of (colors : gmap string dfs_color) (x : string) : dfs_color :=
  default WHITE (colors !! x).

(** The black nodes have black neighbours only, and none of them lies on a
    cycle of the graph. *)
Definition black_closed (graph : list (string * list string))
    (colors : gmap string dfs_color) : Prop :=
  (∀ x y, color_of colors x = BLACK → y ∈ neighbors graph x → color_of colors y = BLACK)
  ∧ (∀ x, color_of colors x = BLACK → ¬ tc (λ a b, b ∈ neighbors graph a) x x).

(** ** Further fixtures *)

(** Two nodes that are prerequisites of each other. *)
Definition store_mutual : NodeManager :=
  mkManager [("A", plain_node "A" []); ("B", plain_node "B" [])]
            [("1", plain_connection "1" "A" "B" PREREQUISITE);
             ("2", plain_connection "2" "B" "A" PREREQUISITE)]
            1%Z.

(** A dialogue node whose title names it as a start, in any case of the
    letters: the nodes the orphan analysis lets pass. *)
Definition starts_a_dialogue (node : Node) : Prop :=
  is_Some (as_dialogue node) ∧ is_substring "start" (lower (title (base node))).

(** A node that no connection touches. *)
Definition unconnected (conns : list (string * Connection)) (x : string) : Prop :=
  ¬ has_incoming conns x ∧ ¬ has_outgoing conns x.

(** The connections the import loop builds from the entries of a file, in
    order; entry [i] draws [uuid4 i], and an entry without an endpoint key
    is skipped. *)
Fixpoint imported_connections (uuid4 : nat → string) (i : nat)
    (connections_data : list ConnectionData) : list Connection :=
  match connections_data with
  | [] => []
  | data :: rest =>
      match connection_of_data (uuid4 i) data with
      | Some connection => connection :: imported_connections uuid4 (S i) rest
      | None => imported_connections uuid4 (S i) rest
      end
  end.


(** ** Quests and their persistence ([quest_system.py]) *)

Record QuestNode := mkQuestNode {
  q_base : BaseNode;
  q_fields : QuestFields
}.

Record ObjectiveNode := mkObjectiveNode {
  on_base : BaseNode;
  on_fields : ObjectiveFields
}.

Record QuestManager := mkQuestManager {
  quests : list (string * QuestNode);
  qm_objectives : list (string * ObjectiveNode)
}.

(** The dict a port is saved as; a field is [None] when the key is
    absent. *)
Record PortData := mkPortData {
  pd_id : option string;
  pd_name : option string;
  pd_port_type : option string;
  pd_data_type : option string;
  pd_connected_to : option (list string);
  pd_position : option (Z * Z);
  pd_connection_limit : option Z;
  pd_required : option bool
}.

Record ObjectiveData := mkObjectiveData {
  od_id : option string;
  od_description : option string;
  od_dependencies : option (list string);
  od_optional : option bool;
  od_condition : option string;
  od_progress_current : option Z;
  od_progress_required : option Z;
  od_progress_type : option string;
  od_auto_complete : option bool;
  od_hidden : option bool
}.

Record QuestData := mkQuestData {
  qd_id : option string;
  qd_title : option string;
  qd_description : option string;
  qd_priority : option Z;
  qd_position : option (Z * Z);
  qd_prerequisites : option (list string);
  qd_reward_xp : option Z;
  qd_reward_gold : option Z;
  qd_auto_start : option bool;
  qd_repeatable : option bool;
  qd_time_limit : option Z;
  qd_region_locked : option string;
  qd_level_requirement : option Z;
  qd_can_fail : option bool;
  qd_failure_conditions : option (list string);
  qd_branches : option (list (string * list string));
  qd_ports : option (list PortData);
  qd_objectives : option (list ObjectiveData)
}.

Definition export_port (port : Port) : PortData :=
  mkPortData (Some (p_id port)) (Some (name port)) (Some (port_type port))
             (Some (data_type port)) (Some (connected_to port))
             (Some (p_position port)) (Some (connection_limit port))
             (Some (required port)).

(** The saved objective has no entry for [completed]. *)
Definition export_objective (obj : QuestObjective) : ObjectiveData :=
  mkObjectiveData (Some (o_id obj)) (Some (o_description obj))
                  (Some (dependencies obj)) (Some (optional obj))
                  (Some (o_condition obj)) (Some (progress_current obj))
                  (Some (progress_required obj)) (Some (progress_type obj))
                  (Some (auto_complete obj)) (Some (hidden obj)).

Definition export_quest (quest : QuestNode) : QuestData :=
  let q := q_fields quest in
  mkQuestData (Some (n_id (q_base quest))) (Some (title (q_base quest)))
              (Some (q_description q)) (Some (q_priority q))
              (Some (n_position (q_base quest))) (Some (prerequisites q))
              (Some (reward_xp q)) (Some (reward_gold q))
              (Some (auto_start q)) (Some (repeatable q)) (Some (time_limit q))
              (Some (region_locked q)) (Some (level_requirement q))
              (Some (can_fail q)) (Some (failure_conditions q)) (Some (branches q))
              (Some (export_port <$> ports (q_base quest)))
              (Some (export_objective <$> objectives q)).

(** [QuestManager.export_quests] *)
Definition export_quests (self : QuestManager) : list QuestData :=
  export_quest <$> PyDict.values (quests self).

(** [Port(id=port_data["id"], ...)]; [None] is the [KeyError] of a missing
    key. *)
Definition port_of_data (port_data : PortData) : option Port :=
  i ← pd_id port_data;
  n ← pd_name port_data;
  t ← pd_port_type port_data;
  dt ← pd_data_type port_data;
  Some (mkPort i n t dt
               (default [] (pd_connected_to port_data))
               (default (0, 0)%Z (pd_position port_data))
               (default (-1)%Z (pd_connection_limit port_data))
               (default false (pd_required port_data))).

(** [QuestObjective(id=obj_data["id"], ...)]; [completed] takes its
    default. *)
Definition objective_of_data (obj_data : ObjectiveData) : option QuestObjective :=
  i ← od_id obj_data;
  Some (mkQuestObjective i
          (default "" (od_description obj_data))
          (default [] (od_dependencies obj_data))
          (default false (od_optional obj_data))
          false
          (default "" (od_condition obj_data))
          (default false (od_auto_complete obj_data))
          (default false (od_hidden obj_data))
          (default 0%Z (od_progress_current obj_data))
          (default 1%Z (od_progress_required obj_data))
          (default "count" (od_progress_type obj_data))).

(** [Port(name=..., port_type=..., data_type=...)]; [uuid] is the id the
    default factory draws. *)
Definition new_port (uuid name port_type data_type : string) : Port :=
  mkPort uuid name port_type data_type [] (0, 0)%Z (-1)%Z false.

(** The ports a node gets when it comes without ports: one for each pair of
    a name and a direction, with the uuids [uuid4 n], [uuid4 (n + 1)], ...
    for ids. *)
Definition ports_of_specs (uuid4 : nat → string) (n : nat) (data_type : string)
    (specs : list (string * string)) : list Port :=
  imap (λ i spec, new_port (uuid4 (n + i)) spec.1 spec.2 data_type) specs.

(** The [BaseNode] part of a node built from an id, a title and a position:
    every other field has its default. *)
Definition fresh_base (i title : string) (position : Z * Z) : BaseNode :=
  mkBaseNode i NT_DIALOGUE title position (200, 100)%Z (100, 100, 100)%Z [] []
             false true [] [] [] [].

(** [d.update(u)] *)
Definition dict_update {V : Type} (d u : list (string * V)) : list (string * V) :=
  foldl (λ d kv, PyDict.set kv.1 kv.2 d) d u.

(** The entries [QuestNode.__post_init__] and [_update_quest_properties]
    write into [properties]. *)
Definition quest_properties (q : QuestFields) : list (string * pyval) :=
  [("description", PyStr (q_description q));
   ("priority", PyInt (q_priority q));
   ("reward_xp", PyInt (reward_xp q));
   ("reward_gold", PyInt (reward_gold q));
   ("auto_start", PyBool (auto_start q));
   ("repeatable", PyBool (repeatable q));
   ("time_limit", PyInt (time_limit q));
   ("level_requirement", PyInt (level_requirement q));
   ("can_fail", PyBool (can_fail q))].

(** Name and direction of the ports a quest gets when it comes without
    ports. *)
Definition quest_port_specs (q : QuestFields) : list (string * string) :=
  [("prerequisites", "input"); ("unlocks", "output")]
  ++ (if can_fail q then [("failure", "output")] else [])
  ++ ((λ kv : string * list string, ("branch_" +:+ kv.1, "output")) <$> branches q).

(** [QuestNode.__post_init__]; the ports it creates draw the uuids
    [uuid4 n], [uuid4 (n + 1)], ...; the result carries the number of the
    next draw. *)
Definition QuestNode_post_init (uuid4 : nat → string) (n : nat) (self : QuestNode)
    : QuestNode * nat :=
  let b := q_base self in
  let '(ports', n') :=
    if bool_decide (ports b = []) then
      (ports_of_specs uuid4 n "quest" (quest_port_specs (q_fields self)),
       n + length (quest_port_specs (q_fields self)))
    else (ports b, n) in
  (mkQuestNode
     (mkBaseNode (n_id b) NT_QUEST (title b) (n_position b) (300, 200)%Z
                 (200, 150, 100)%Z ports'
                 (dict_update (properties b) (quest_properties (q_fields self)))
                 (collapsed b) (needs_resize b) (conditions b)
                 (n_required_resources b) (n_required_flags b) (n_state_changes b))
     (q_fields self),
   n').

Definition set_objectives (objs : list QuestObjective) (q : QuestFields) : QuestFields :=
  mkQuestFields (q_description q) (q_priority q) (prerequisites q) objs
                (reward_xp q) (reward_gold q) (auto_start q) (repeatable q)
                (time_limit q) (region_locked q) (level_requirement q) (can_fail q)
                (failure_conditions q) (branches q).

Definition set_properties (props : list (string * pyval)) (n : BaseNode) : BaseNode :=
  mkBaseNode (n_id n) (node_type n) (title n) (n_position n) (n_size n)
             (n_color n) (ports n) props (collapsed n) (needs_resize n)
             (conditions n) (n_required_resources n) (n_required_flags n)
             (n_state_changes n).

(** The body of the loop of [import_quests] up to the quest object; [None]
    is the [KeyError] of a missing key. *)
Definition quest_of_data (uuid4 : nat → string) (n : nat) (data : QuestData)
    : option (QuestNode * nat) :=
  i ← qd_id data;
  let fields :=
    mkQuestFields (default "" (qd_description data)) (default 1%Z (qd_priority data))
                  (default [] (qd_prerequisites data)) []
                  (default 0%Z (qd_reward_xp data)) (default 0%Z (qd_reward_gold data))
                  (default false (qd_auto_start data))
                  (default false (qd_repeatable data))
                  (default 0%Z (qd_time_limit data))
                  (default "" (qd_region_locked data))
                  (default 0%Z (qd_level_requirement data))
                  (default false (qd_can_fail data))
                  (default [] (qd_failure_conditions data))
                  (default [] (qd_branches data)) in
  let '(quest, n') :=
    QuestNode_post_init uuid4 n
      (mkQuestNode
         (fresh_base i (default "" (qd_title data))
                     (default (100, 100)%Z (qd_position data)))
         fields) in
  objs ← mapM objective_of_data (default [] (qd_objectives data));
  let fields' := set_objectives (objectives (q_fields quest) ++ objs) (q_fields quest) in
  ports' ← match qd_ports data with
            | Some ports_data => mapM port_of_data ports_data
            | None => Some (ports (q_base quest))
            end;
  let base' := set_ports ports' (q_base quest) in
  Some (mkQuestNode
          (set_properties (dict_update (properties base') (quest_properties fields'))
                          base')
          fields',
        n').

Fixpoint import_quests_loop (uuid4 : nat → string) (n : nat) (quest_data : list QuestData)
    (quests : list (string * QuestNode)) : option (list (string * QuestNode)) :=
  match quest_data with
  | [] => Some quests
  | data :: rest =>
      match quest_of_data uuid4 n data with
      | Some (quest, n') =>
          import_quests_loop uuid4 n' rest
            (PyDict.set (n_id (q_base quest)) quest quests)
      | None => None
      end
  end.

(** [QuestManager.import_quests]; [None] is the [KeyError] the function
    raises on an entry that lacks a key it reads without default. *)
Definition import_quests (uuid4 : nat → string) (quest_data : list QuestData)
    (self : QuestManager) : option QuestManager :=
  quests' ← import_quests_loop uuid4 0 quest_data [];
  Some (mkQuestManager quests' []).

(** A saved port has the keys that are read without default: id, name and
    the two types. *)
Definition port_keys_present (port_data : PortData) : Prop :=
  is_Some (pd_id port_data) ∧ is_Some (pd_name port_data)
  ∧ is_Some (pd_port_type port_data) ∧ is_Some (pd_data_type port_data).

(** A saved quest has the keys the import reads without default: its id,
    the id of each of its objectives and the four keys of each of its
    ports. *)
Definition quest_keys_present (data : QuestData) : Prop :=
  is_Some (qd_id data)
  ∧ Forall (λ obj_data, is_Some (od_id obj_data)) (default [] (qd_objectives data))
  ∧ Forall port_keys_present (default [] (qd_ports data)).

(** The quest dict is keyed by the ids of its quests. *)
Definition quests_keyed_by_id (quests : list (string * QuestNode)) : Prop :=
  Forall (λ kq, kq.1 = n_id (q_base kq.2)) quests ∧ NoDup (PyDict.keys quests).

(** A quest as a file gives it back: what the export writes is kept, the
    objectives are open again, and what the export leaves out has the value
    the constructor gives it. *)
Definition as_loaded (quest : QuestNode) : Prop :=
  node_type (q_base quest) = NT_QUEST
  ∧ n_size (q_base quest) = (300, 200)%Z
  ∧ n_color (q_base quest) = (200, 150, 100)%Z
  ∧ properties (q_base quest) = quest_properties (q_fields quest)
  ∧ collapsed (q_base quest) = false
  ∧ conditions (q_base quest) = []
  ∧ n_required_resources (q_base quest) = []
  ∧ n_required_flags (q_base quest) = []
  ∧ n_state_changes (q_base quest) = []
  ∧ Forall (λ obj, completed obj = false) (objectives (q_fields quest)).

(** The quest [QuestManager._create_daily_quest] builds at a position; the
    id of the node draws [uuid4 n] and its two ports the next two uuids. *)
Definition _create_daily_quest (uuid4 : nat → string) (n : nat) (position : Z * Z)
    (self : QuestManager) : QuestNode * nat * QuestManager :=
  let '(node, n') :=
    QuestNode_post_init uuid4 (S n)
      (mkQuestNode
         (fresh_base (uuid4 n) "Daily Quest" position)
         (mkQuestFields "A quest that resets daily" 2%Z [] [] 50%Z 25%Z false true
                        1440%Z "" 0%Z false [] [])) in
  let objective :=
    mkQuestObjective "daily_task" "Complete daily task" [] false false "" false false
                     0%Z 10%Z "collect" in
  let node :=
    mkQuestNode (q_base node)
                (set_objectives (objectives (q_fields node) ++ [objective])
                                (q_fields node)) in
  (node, n',
   mkQuestManager (PyDict.set (n_id (q_base node)) node (quests self))
                  (qm_objectives self)).

(** A quest manager that holds one daily quest. *)
Definition daily_quests : QuestManager :=
  (_create_daily_quest (λ i, "u" +:+ pretty i) 0 (0, 0)%Z (mkQuestManager [] [])).2.


(** ** Loading dialogues ([dialogue_system.py]) *)

(** The dicts a dialogue is saved as; a field is [None] when the key is
    absent. *)
Record ChoiceData := mkChoiceData {
  cd_text : option string;
  cd_next : option string;
  cd_condition : option string;
  cd_required_resources : option (list (string * Z));
  cd_state_changes : option (list (string * pyval));
  cd_reputation_changes : option (list (string * Z))
}.

Record LineData := mkLineData {
  ld_speaker : option string;
  ld_text : option string;
  ld_condition : option string;
  ld_once_only : option bool;
  ld_is_hub : option bool;
  ld_return_text : option string;
  ld_choices : option (list ChoiceData);
  ld_next : option string;
  ld_condition_check : option string;
  ld_true_path : option string;
  ld_false_path : option string;
  ld_state_changes : option (list (string * pyval));
  ld_reputation_changes : option (list (string * Z))
}.

Record DialogueData := mkDialogueData {
  dd_id : option string;
  dd_title : option string;
  dd_position : option (Z * Z);
  dd_node_type : option string;
  dd_ports : option (list PortData);
  dd_lines : option (list LineData)
}.

(** [str(d)] of a dict: the empty dict prints as a pair of braces; how a
    dict with entries prints is the input [dict_str]. *)
Definition py_str_dict {V : Type} (dict_str : list (string * V) → string)
    (d : list (string * V)) : string :=
  match d with
  | [] => "{}"
  | _ => dict_str d
  end.

Definition set_state_changes (sc : list (string * pyval)) (n : BaseNode) : BaseNode :=
  mkBaseNode (n_id n) (node_type n) (title n) (n_position n) (n_size n)
             (n_color n) (ports n) (properties n) (collapsed n) (needs_resize n)
             (conditions n) (n_required_resources n) (n_required_flags n) sc.

(** The part of the four [__post_init__] methods of the dialogue classes
    that does not depend on the class: type, colour and size are set, the
    default ports are made when the node has none, and the entries of the
    class go into [properties]. The size is set by every class; [needs_resize]
    by [DialogueNode] alone, to the value it has by default. *)
Definition node_post_init (uuid4 : nat → string) (n : nat) (self : BaseNode)
    (type : NodeType) (color : Z * Z * Z) (size : Z * Z) (data_type : string)
    (specs : list (string * string)) (props : list (string * pyval))
    (resize : bool) : BaseNode * nat :=
  let '(ports', n') :=
    if bool_decide (ports self = []) then
      (ports_of_specs uuid4 n data_type specs, n + length specs)
    else (ports self, n) in
  (mkBaseNode (n_id self) type (title self) (n_position self) size color ports'
              (dict_update (properties self) props)
              (collapsed self) (if resize then true else needs_resize self)
              (conditions self) (n_required_resources self) (n_required_flags self)
              (n_state_changes self),
   n').

(** [DialogueNode.__post_init__] *)
Definition DialogueNode_post_init (uuid4 : nat → string) (n : nat) (self : BaseNode)
    (d : DialogueFields) : BaseNode * nat :=
  node_post_init uuid4 n self
    (if is_hub d then NT_HUB else NT_DIALOGUE)
    (if is_hub d then (150, 120, 200)%Z else (100, 150, 200)%Z)
    (250, 120)%Z "dialogue"
    (if is_hub d
     then [("input", "input"); ("option_1", "output"); ("option_2", "output");
           ("option_3", "output"); ("return", "output")]
     else [("input", "input"); ("output", "output")])
    [("speaker", PyStr (speaker d)); ("text", PyStr (text d));
     ("next", PyStr (next d)); ("display_condition", PyStr (display_condition d));
     ("once_only", PyBool (once_only d)); ("is_hub", PyBool (is_hub d))]
    true.

(** [ConditionNode.__post_init__] *)
Definition ConditionNode_post_init (uuid4 : nat → string) (n : nat) (self : BaseNode)
    (condition true_path false_path : string) : BaseNode * nat :=
  node_post_init uuid4 n self NT_CONDITION (200, 200, 100)%Z (200, 100)%Z "any"
    [("input", "input"); ("true", "output"); ("false", "output")]
    [("condition", PyStr condition); ("true_path", PyStr true_path);
     ("false_path", PyStr false_path)]
    false.

(** [MergeNode.__post_init__] *)
Definition MergeNode_post_init (uuid4 : nat → string) (n : nat) (self : BaseNode)
    (merge_text : string) : BaseNode * nat :=
  node_post_init uuid4 n self NT_MERGE (150, 150, 150)%Z (180, 80)%Z "any"
    [("input_1", "input"); ("input_2", "input"); ("input_3", "input");
     ("output", "output")]
    [("merge_text", PyStr merge_text)]
    false.

(** [StateChangeNode.__post_init__] *)
Definition StateChangeNode_post_init (dict_str : list (string * pyval) → string)
    (int_dict_str : list (string * Z) → string)
    (uuid4 : nat → string) (n : nat) (self : BaseNode)
    (reputation_changes : list (string * Z)) : BaseNode * nat :=
  node_post_init uuid4 n self NT_STATE_CHANGE (200, 150, 100)%Z (220, 100)%Z "any"
    [("input", "input"); ("output", "output")]
    [("state_changes", PyStr (py_str_dict dict_str (n_state_changes self)));
     ("reputation_changes", PyStr (py_str_dict int_dict_str reputation_changes))]
    false.

(** [DialogueChoice(text=choice_data.get("text", ""), ...)] *)
Definition choice_of_data (choice_data : ChoiceData) : DialogueChoice :=
  mkDialogueChoice (default "" (cd_text choice_data))
                   (default "" (cd_next choice_data))
                   (default "" (cd_condition choice_data))
                   (default [] (cd_required_resources choice_data))
                   []
                   (default [] (cd_state_changes choice_data))
                   (default [] (cd_reputation_changes choice_data)).

(** The fields of a [DialogueNode] made without keyword arguments for
    them. *)
Definition default_dialogue_fields : DialogueFields :=
  mkDialogueFields "" "" [] "" false "What else can I help you with?" "" false 0%Z.

(** The assignments the import makes to a dialogue node from the first
    line. *)
Definition dialogue_fields_of_line (d : DialogueFields) (line : LineData)
    : DialogueFields :=
  let hub := default false (ld_is_hub line) in
  mkDialogueFields
    (default "" (ld_speaker line))
    (default "" (ld_text line))
    (match ld_choices line with
     | Some choices_data => choices d ++ (choice_of_data <$> choices_data)
     | None => choices d
     end)
    (match ld_choices line, ld_next line with
     | None, Some next_ => next_
     | _, _ => next d
     end)
    hub
    (if hub then default "" (ld_return_text line) else hub_return_text d)
    (default "" (ld_condition line))
    (default false (ld_once_only line))
    (times_seen d).

(** [data["lines"][0]] when the key is there and the list is not empty. *)
Definition first_line (data : DialogueData) : option LineData :=
  match dd_lines data with
  | Some (line :: _) => Some line
  | _ => None
  end.

(** [DialogueManager._update_node_properties]: [speaker], [text] and
    [display_condition] are attributes of [DialogueNode] alone, [condition]
    of [ConditionNode] (and of [ObjectiveNode]), [state_changes] of every
    node. *)
Definition _update_node_properties (dict_str : list (string * pyval) → string)
    (node : Node) : Node :=
  let props := properties (base node) in
  let props :=
    match subclass node with
    | IsDialogueNode d =>
        PyDict.set "text" (PyStr (text d))
                   (PyDict.set "speaker" (PyStr (speaker d)) props)
    | _ => props
    end in
  let props :=
    match subclass node with
    | IsConditionNode condition _ _ => PyDict.set "condition" (PyStr condition) props
    | IsObjectiveNode o => PyDict.set "condition" (PyStr (on_condition o)) props
    | _ => props
    end in
  let props :=
    match subclass node with
    | IsDialogueNode d =>
        PyDict.set "display_condition" (PyStr (display_condition d)) props
    | _ => props
    end in
  let props :=
    PyDict.set "state_changes"
               (PyStr (py_str_dict dict_str (n_state_changes (base node)))) props in
  mkNode (set_properties props (base node)) (subclass node).

(** The body of the loop of [import_dialogues] up to the node object; [None]
    is the [KeyError] of a missing key. *)
Definition dialogue_of_data (dict_str : list (string * pyval) → string)
    (int_dict_str : list (string * Z) → string)
    (uuid4 : nat → string) (n : nat) (data : DialogueData) : option (Node * nat) :=
  i ← dd_id data;
  let node_type := default "dialogue" (dd_node_type data) in
  let position := default (100, 100)%Z (dd_position data) in
  let '(node, n') :=
    if bool_decide (node_type = "condition") then
      let '(b, n') :=
        ConditionNode_post_init uuid4 n
          (fresh_base i (default "Condition" (dd_title data)) position) "" "" "" in
      (mkNode b
              (match first_line data with
               | Some line =>
                   IsConditionNode (default "" (ld_condition_check line))
                                   (default "" (ld_true_path line))
                                   (default "" (ld_false_path line))
               | None => IsConditionNode "" "" ""
               end),
       n')
    else if bool_decide (node_type = "merge") then
      let '(b, n') :=
        MergeNode_post_init uuid4 n
          (fresh_base i (default "Merge" (dd_title data)) position) "" in
      (mkNode b (IsMergeNode ""), n')
    else if bool_decide (node_type = "state_change") then
      let '(b, n') :=
        StateChangeNode_post_init dict_str int_dict_str uuid4 n
          (fresh_base i (default "State Change" (dd_title data)) position) [] in
      (match first_line data with
       | Some line =>
           mkNode (set_state_changes (default [] (ld_state_changes line)) b)
                  (IsStateChangeNode (default [] (ld_reputation_changes line)))
       | None => mkNode b (IsStateChangeNode [])
       end,
       n')
    else
      let '(b, n') :=
        DialogueNode_post_init uuid4 n
          (fresh_base i (default ("Dialogue: " +:+ i) (dd_title data)) position)
          default_dialogue_fields in
      (mkNode b
              (IsDialogueNode
                 (match first_line data with
                  | Some line => dialogue_fields_of_line default_dialogue_fields line
                  | None => default_dialogue_fields
                  end)),
       n') in
  ports' ← match dd_ports data with
            | Some ports_data => mapM port_of_data ports_data
            | None => Some (ports (base node))
            end;
  Some (_update_node_properties dict_str
          (mkNode (set_ports ports' (base node)) (subclass node)),
        n').

Fixpoint import_dialogues_loop (dict_str : list (string * pyval) → string)
    (int_dict_str : list (string * Z) → string)
    (uuid4 : nat → string) (n : nat) (dialogue_data : list DialogueData)
    (dialogues : list (string * Node)) : option (list (string * Node)) :=
  match dialogue_data with
  | [] => Some dialogues
  | data :: rest =>
      match dialogue_of_data dict_str int_dict_str uuid4 n data with
      | Some (node, n') =>
          import_dialogues_loop dict_str int_dict_str uuid4 n' rest
            (PyDict.set (n_id (base node)) node dialogues)
      | None => None
      end
  end.

(** [DialogueManager.import_dialogues] on the dict [self.dialogues]; [None]
    is the [KeyError] the function raises on an entry that lacks a key it
    reads without default. *)
Definition import_dialogues (dict_str : list (string * pyval) → string)
    (int_dict_str : list (string * Z) → string)
    (uuid4 : nat → string) (dialogue_data : list DialogueData)
    (dialogues : list (string * Node)) : option (list (string * Node)) :=
  import_dialogues_loop dict_str int_dict_str uuid4 0 dialogue_data [].

(** The dict a choice is saved as; [required_flags] is not saved. *)
Definition export_choice (choice : DialogueChoice) : ChoiceData :=
  mkChoiceData (Some (ch_text choice)) (Some (ch_next choice))
               (Some (ch_condition choice)) (Some (ch_required_resources choice))
               (Some (ch_state_changes choice)) (Some (ch_reputation_changes choice)).

(** The line of a saved dialogue. [speaker], [text], [display_condition],
    [once_only], [choices], [next] and [is_hub] are attributes of
    [DialogueNode] alone; [condition] of [ConditionNode] and
    [ObjectiveNode]; [true_path] and [false_path] of [ConditionNode];
    [reputation_changes] of [StateChangeNode]; [state_changes] of every
    node. *)
Definition export_line (dialogue : Node) : LineData :=
  let d := as_dialogue dialogue in
  let type := node_type (base dialogue) in
  mkLineData
    (Some (from_option speaker "" d))
    (Some (from_option text "" d))
    (d ← d;
     if bool_decide (display_condition d = "") then None
     else Some (display_condition d))
    (d ← d; if once_only d then Some true else None)
    (d ← d; if is_hub d then Some true else None)
    (d ← d; if is_hub d then Some (hub_return_text d) else None)
    (d ← d;
     if bool_decide (choices d = []) then None
     else Some (export_choice <$> choices d))
    (d ← d;
     if bool_decide (choices d = []) then
       if bool_decide (next d = "") then None else Some (next d)
     else None)
    (match type with
     | NT_CONDITION =>
         Some (match subclass dialogue with
               | IsConditionNode condition _ _ => condition
               | IsObjectiveNode o => on_condition o
               | _ => ""
               end)
     | _ => None
     end)
    (match type with
     | NT_CONDITION =>
         Some (match subclass dialogue with
               | IsConditionNode _ true_path _ => true_path
               | _ => ""
               end)
     | _ => None
     end)
    (match type with
     | NT_CONDITION =>
         Some (match subclass dialogue with
               | IsConditionNode _ _ false_path => false_path
               | _ => ""
               end)
     | _ => None
     end)
    (match type with
     | NT_STATE_CHANGE => Some (n_state_changes (base dialogue))
     | _ => None
     end)
    (match type, subclass dialogue with
     | NT_STATE_CHANGE, IsStateChangeNode reputation_changes => Some reputation_changes
     | _, _ => None
     end).

Definition export_dialogue (dialogue : Node) : DialogueData :=
  mkDialogueData (Some (n_id (base dialogue))) (Some (title (base dialogue)))
                 (Some (n_position (base dialogue)))
                 (Some (NodeType_value (node_type (base dialogue))))
                 (Some (export_port <$> ports (base dialogue)))
                 (Some [export_line dialogue]).

(** [DialogueManager.export_dialogues] on the dict [self.dialogues] *)
Definition export_dialogues (dialogues : list (string * Node)) : list DialogueData :=
  export_dialogue <$> PyDict.values dialogues.

(** The dialogue dict is keyed by the ids of its nodes. *)
Definition dialogues_keyed_by_id (dialogues : list (string * Node)) : Prop :=
  Forall (λ kn, kn.1 = n_id (base kn.2)) dialogues ∧ NoDup (PyDict.keys dialogues).

(** A node of one of the four dialogue classes with a type its class can
    have: the constructor of [DialogueNode] gives a hub the type hub and any
    other node the type dialogue. *)
Definition dialogue_class (node : Node) : Prop :=
  match subclass node with
  | IsDialogueNode d =>
      node_type (base node) = NT_DIALOGUE ∨ node_type (base node) = NT_HUB
  | IsConditionNode _ _ _ => node_type (base node) = NT_CONDITION
  | IsMergeNode _ => node_type (base node) = NT_MERGE
  | IsStateChangeNode _ => node_type (base node) = NT_STATE_CHANGE
  | _ => False
  end.

(** A saved dialogue with the type of a hub replaced by the type of a plain
    dialogue. *)
Definition saved_as_plain (data : DialogueData) : DialogueData :=
  mkDialogueData (dd_id data) (dd_title data) (dd_position data)
                 (if bool_decide (dd_node_type data = Some "hub")
                  then Some "dialogue" else dd_node_type data)
                 (dd_ports data) (dd_lines data).

(** An entry has the keys the import reads without default: its id and
    the four keys of each of its ports. *)
Definition dialogue_keys_present (data : DialogueData) : Prop :=
  is_Some (dd_id data) ∧ Forall port_keys_present (default [] (dd_ports data)).

(** [DialogueManager.create_dialogue_node] for the node type hub; the id
    of the node draws [uuid4 n] and its five ports the next five uuids. *)
Definition create_hub_node (uuid4 : nat → string) (n : nat) (position : Z * Z)
    (dialogues : list (string * Node)) : Node * nat * list (string * Node) :=
  let d :=
    mkDialogueFields "NPC" "How can I help you?" [] "" true "Anything else?" ""
                     false 0%Z in
  let '(b, n') :=
    DialogueNode_post_init uuid4 (S n)
      (fresh_base (uuid4 n) "Hub Dialogue" position) d in
  let node := mkNode b (IsDialogueNode d) in
  (node, n', PyDict.set (n_id b) node dialogues).

(** A dialogue dict that holds one hub. *)
Definition hub_dialogues : list (string * Node) :=
  (create_hub_node (λ i, "u" +:+ pretty i) 0 (0, 0)%Z []).2.

(** A node as [import_dialogues] makes it: its type is one of the four the
    import knows, and never hub or choice; a dialogue node has the type and
    the colour of a plain dialogue, whether it is a hub or not. *)
Definition loaded_dialogue (node : Node) : Prop :=
  match subclass node with
  | IsDialogueNode _ =>
      node_type (base node) = NT_DIALOGUE ∧ n_color (base node) = (100, 150, 200)%Z
  | IsConditionNode _ _ _ => node_type (base node) = NT_CONDITION
  | IsMergeNode _ => node_type (base node) = NT_MERGE
  | IsStateChangeNode _ => node_type (base node) = NT_STATE_CHANGE
  | _ => False
  end.

(** * Facts *)

(** ** Dictionaries *)

Module PyDictFacts.
Import PyDict.
Section facts.
Context {V : Type}.
Implicit Types (d : list (string * V)) (v : V).

Lemma get_set_eq k v d : get k (set k v d) = Some v.
Proof.
induction d as [|[k' v'] d IH]; simpl.
- by rewrite decide_True.
- destruct (decide (k' = k)) as [->|Hne]; simpl.
  + by rewrite decide_True.
  + by rewrite decide_False.
Qed.

Lemma get_set_ne k k' v d : k ≠ k' → get k' (set k v d) = get k' d.
Proof.
intros Hne. induction d as [|[k0 v0] d IH]; simpl.
- by rewrite decide_False.
- destruct (decide (k0 = k)) as [->|Hk]; simpl.
  + by rewrite !decide_False.
  + destruct (decide (k0 = k')); done.
Qed.

Lemma get_del_eq k d : get k (del k d) = None.
Proof.
induction d as [|[k' v'] d IH]; simpl; [done|].
destruct (decide (k' = k)) as [->|Hk]; simpl; [done|].
by rewrite decide_False.
Qed.

Lemma get_del_ne k k' d : k ≠ k' → get k' (del k d) = get k' d.
Proof.
intros Hne. induction d as [|[k0 v0] d IH]; simpl; [done|].
destruct (decide (k0 = k)) as [->|Hk]; simpl.
- by rewrite decide_False.
- destruct (decide (k0 = k')); done.
Qed.

Lemma get_Some_elem k v d : get k d = Some v → (k, v) ∈ d.
Proof.
induction d as [|[k' v'] d IH]; simpl; [done|].
destruct (decide (k' = k)) as [->|Hk].
- intros [= ->]. left.
- intros H. right. by apply IH.
Qed.

Lemma get_None_keys k d : get k d = None ↔ k ∉ keys d.
Proof.
unfold keys. induction d as [|[k' v'] d IH]; simpl.
- split; [intros _; apply not_elem_of_nil | done].
- destruct (decide (k' = k)) as [->|Hk].
  + split; [done|]. intros H. exfalso. apply H. left.
  + rewrite IH, not_elem_of_cons. split; [by intros ?|by intros [_ ?]].
Qed.

Lemma elem_get k v d : NoDup (keys d) → (k, v) ∈ d → get k d = Some v.
Proof.
unfold keys. induction d as [|[k' v'] d IH]; simpl.
- intros _ H. by apply elem_of_nil in H.
- intros Hnd Hin. apply NoDup_cons in Hnd as [Hk Hnd].
  apply elem_of_cons in Hin as [[= -> ->]|Hin].
  + by rewrite decide_True.
  + destruct (decide (k' = k)) as [->|Hne]; [|by apply IH].
    exfalso. apply Hk. apply list_elem_of_fmap. by exists (k, v).
Qed.

Lemma keys_set_in k v v0 d :
get k d = Some v0 → keys (set k v d) = keys d.
Proof.
unfold keys. induction d as [|[k' v'] d IH]; simpl; [done|].
destruct (decide (k' = k)) as [->|Hk]; simpl; [done|].
intros H. f_equal. by apply IH.
Qed.

Lemma set_fresh k v d : get k d = None → set k v d = d ++ [(k, v)].
Proof.
induction d as [|[k' v'] d IH]; simpl; [done|].
destruct (decide (k' = k)) as [->|Hk]; [done|].
intros H. by rewrite IH.
Qed.

Lemma del_absent k d : get k d = None → del k d = d.
Proof.
induction d as [|[k' v'] d IH]; simpl; [done|].
destruct (decide (k' = k)) as [->|Hk]; [done|].
intros H. by rewrite IH.
Qed.
End facts.
End PyDictFacts.

(** ** Ports under mutation *)

Section port_facts.
Import PyDict PyDictFacts.
Implicit Types (p : Port) (ps : list Port) (ns : list (string * BaseNode)).

Lemma append_peer_id x : id_preserving (append_peer x).
Proof. by intros []. Qed.

Lemma remove_peer_id x : id_preserving (remove_peer x).
Proof. intros p. unfold remove_peer. by case_bool_decide. Qed.

Lemma add_peer_once_id x : id_preserving (add_peer_once x).
Proof. intros p. unfold add_peer_once. by case_bool_decide. Qed.

Lemma set_ports_same n : set_ports (ports n) n = n.
Proof. by destruct n. Qed.

Lemma find_port_Some pid ps p : find_port pid ps = Some p → p_id p = pid ∧ p ∈ ps.
Proof.
  unfold find_port. induction ps as [|p0 ps IH]; simpl; [done|].
  case_bool_decide as Hid.
  - intros [= ->]. split; [done|left].
  - intros H. destruct (IH H). split; [done|by right].
Qed.

Lemma find_port_update_eq pid f ps :
  id_preserving f → find_port pid (update_port pid f ps) = f <$> find_port pid ps.
Proof.
  intros Hf. unfold find_port. induction ps as [|p0 ps IH]; simpl; [done|].
  destruct (decide (p_id p0 = pid)) as [Hid|Hid]; simpl.
  - rewrite !bool_decide_eq_true_2; [done..|]. by rewrite Hf.
  - by rewrite !bool_decide_eq_false_2.
Qed.

Lemma find_port_update_ne pid pid' f ps :
  id_preserving f → pid ≠ pid' →
  find_port pid' (update_port pid f ps) = find_port pid' ps.
Proof.
  intros Hf Hne. unfold find_port. induction ps as [|p0 ps IH]; simpl; [done|].
  destruct (decide (p_id p0 = pid)) as [Hid|Hid]; simpl.
  - rewrite !bool_decide_eq_false_2; [done|congruence|]. rewrite Hf. congruence.
  - by rewrite IH.
Qed.

Lemma update_port_absent pid f ps : find_port pid ps = None → update_port pid f ps = ps.
Proof.
  unfold find_port. induction ps as [|p0 ps IH]; simpl; [done|].
  destruct (decide (p_id p0 = pid)) as [Hid|Hid].
  - by rewrite bool_decide_eq_true_2.
  - rewrite bool_decide_eq_false_2 by done. intros H. by rewrite IH.
Qed.

(** A position of the port list either keeps its port or is the addressed
    port and receives the update. *)
Lemma update_port_lookup pid f ps i p :
  ps !! i = Some p →
  update_port pid f ps !! i = Some p
  ∨ (update_port pid f ps !! i = Some (f p) ∧ find_port pid ps = Some p).
Proof.
  unfold find_port. revert i. induction ps as [|p0 ps IH]; intros i; simpl; [done|].
  destruct (decide (p_id p0 = pid)) as [Hid|Hid].
  - rewrite bool_decide_eq_true_2 by done.
    destruct i as [|i]; simpl; [|by left]. intros [= ->]. by right.
  - rewrite bool_decide_eq_false_2 by done.
    destruct i as [|i]; simpl; [by left|]. apply IH.
Qed.

Lemma set_same k (n : BaseNode) ns : get k ns = Some n → set k n ns = ns.
Proof.
  induction ns as [|[k' n'] ns IH]; simpl; [done|].
  destruct (decide (k' = k)) as [->|Hk].
  - by intros [= ->].
  - intros H. by rewrite IH.
Qed.

Lemma mutate_port_absent nid pid f ns :
  port_at nid pid ns = None → mutate_port nid pid f ns = ns.
Proof.
  unfold port_at, mutate_port. destruct (get nid ns) as [n|] eqn:Hn; [|done].
  intros H. rewrite update_port_absent, set_ports_same by done. by apply set_same.
Qed.

Lemma port_at_mutate_eq nid pid f ns :
  id_preserving f →
  port_at nid pid (mutate_port nid pid f ns) = f <$> port_at nid pid ns.
Proof.
  intros Hf. unfold port_at, mutate_port.
  destruct (get nid ns) as [n|] eqn:Hn; [|by rewrite Hn].
  rewrite get_set_eq. simpl. by apply find_port_update_eq.
Qed.

Lemma port_at_mutate_ne nid pid nid' pid' f ns :
  id_preserving f → (nid, pid) ≠ (nid', pid') →
  port_at nid' pid' (mutate_port nid pid f ns) = port_at nid' pid' ns.
Proof.
  intros Hf Hne. unfold port_at, mutate_port.
  destruct (get nid ns) as [n|] eqn:Hn; [|done].
  destruct (decide (nid = nid')) as [<-|Hnid].
  - rewrite get_set_eq, Hn. simpl. apply find_port_update_ne; [done|congruence].
  - by rewrite get_set_ne.
Qed.

Lemma port_pos_mutate nid pid f ns nid' i p :
  port_pos nid' i ns = Some p →
  port_pos nid' i (mutate_port nid pid f ns) = Some p
  ∨ (port_pos nid' i (mutate_port nid pid f ns) = Some (f p)
     ∧ nid' = nid ∧ port_at nid pid ns = Some p).
Proof.
  unfold port_pos, port_at, mutate_port.
  destruct (get nid ns) as [n|] eqn:Hn; [|by left].
  destruct (decide (nid = nid')) as [<-|Hnid].
  - rewrite get_set_eq, Hn. simpl. intros Hp.
    destruct (update_port_lookup pid f _ _ _ Hp) as [?|[? ?]]; [by left|by right].
  - rewrite get_set_ne by done. by left.
Qed.

Lemma get_mutate_port_is_Some nid pid f ns nid' :
  is_Some (get nid' (mutate_port nid pid f ns)) ↔ is_Some (get nid' ns).
Proof.
  unfold mutate_port. destruct (get nid ns) as [n|] eqn:Hn; [|done].
  destruct (decide (nid = nid')) as [<-|Hnid].
  - rewrite get_set_eq, Hn. split; eauto.
  - by rewrite get_set_ne.
Qed.
End port_facts.

(** ** Graph store *)

Section store_facts.
Import PyDict PyDictFacts.
Implicit Types (self : NodeManager) (p : Port) (c : Connection).

Lemma get_node_port_at nid pid self n :
  get_node nid self = Some n → port_at nid pid (nodes self) = find_port pid (ports n).
Proof. unfold get_node, port_at. by intros ->. Qed.

Lemma port_at_id nid pid ns p : port_at nid pid ns = Some p → p_id p = pid.
Proof.
  unfold port_at. destruct (get nid ns); [|done].
  intros H. by destruct (find_port_Some _ _ _ H).
Qed.

Lemma add_connection_cases fn fp tn tp ct kw uuid self :
  (add_connection fn fp tn tp ct kw uuid self = (None, self)
   ∧ (get_node fn self = None ∨ get_node tn self = None
      ∨ port_at fn fp (nodes self) = None ∨ port_at tn tp (nodes self) = None
      ∨ ∃ p, port_at fn fp (nodes self) = Some p
             ∧ (0 < connection_limit p ≤ Z.of_nat (length (connected_to p)))%Z))
  ∨ (∃ p q,
       port_at fn fp (nodes self) = Some p ∧ port_at tn tp (nodes self) = Some q
       ∧ ¬ (0 < connection_limit p ≤ Z.of_nat (length (connected_to p)))%Z
       ∧ add_connection fn fp tn tp ct kw uuid self
         = (Some (new_connection fn fp tn tp ct kw uuid),
            mkManager
              (mutate_port tn tp (append_peer fp)
                 (mutate_port fn fp (append_peer tp) (nodes self)))
              (set (c_id (new_connection fn fp tn tp ct kw uuid))
                   (new_connection fn fp tn tp ct kw uuid) (connections self))
              (next_id self))).
Proof.
  unfold add_connection.
  destruct (get_node fn self) as [n1|] eqn:H1; [|left; naive_solver].
  destruct (get_node tn self) as [n2|] eqn:H2; [|left; naive_solver].
  rewrite (get_node_port_at _ fp _ _ H1), (get_node_port_at _ tp _ _ H2).
  destruct (find_port fp (ports n1)) as [p|] eqn:Hp; [|left; naive_solver].
  destruct (find_port tp (ports n2)) as [q|] eqn:Hq; [|left; naive_solver].
  case_bool_decide as Hlim.
  - left. split; [done|]. do 4 right. by exists p.
  - right. by exists p, q.
Qed.

Lemma list_remove_length x (l : list string) :
  (length (list_remove x l) ≤ length l)%nat.
Proof. induction l as [|y l IH]; simpl; [done|]. case_decide; simpl; lia. Qed.

Lemma remove_peer_length x p :
  (length (connected_to (remove_peer x p)) ≤ length (connected_to p))%nat.
Proof.
  unfold remove_peer. case_bool_decide; [simpl|done]. apply list_remove_length.
Qed.

Lemma remove_peer_limit x p : connection_limit (remove_peer x p) = connection_limit p.
Proof. unfold remove_peer. by case_bool_decide. Qed.

Lemma remove_peer_limit_ok x p : limit_ok p → limit_ok (remove_peer x p).
Proof.
  unfold limit_ok. rewrite remove_peer_limit. intros H Hpos.
  pose proof (remove_peer_length x p). specialize (H Hpos). lia.
Qed.

(** One connect or disconnect request keeps the bound of every port it
    does not link into. *)
Lemma link_step_limit self op nid i p :
  port_pos nid i (nodes self) = Some p → limit_ok p →
  ¬ links_into nid (p_id p) self op →
  ∃ p', port_pos nid i (nodes (apply_link_op self op)) = Some p'
        ∧ p_id p' = p_id p ∧ connection_limit p' = connection_limit p
        ∧ limit_ok p'.
Proof.
  intros Hp Hok Hdest. destruct op as [fn fp tn tp ct kw uuid|cid]; simpl in *.
  - destruct (add_connection_cases fn fp tn tp ct kw uuid self)
      as [[-> _]|(sp & dp & Hsp & Hdp & Hlim & Hadd)]; simpl; [by exists p|].
    rewrite Hadd in Hdest |- *. simpl in *.
    assert (¬ (tn = nid ∧ tp = p_id p)) as Hdest' by (intros [? ?]; apply Hdest; eauto).
    clear Hdest. rename Hdest' into Hdest.
    destruct (port_pos_mutate fn fp (append_peer tp) _ _ _ _ Hp)
      as [Hp1|(Hp1 & -> & Hat)].
    + destruct (port_pos_mutate tn tp (append_peer fp) _ _ _ _ Hp1)
        as [Hp2|(Hp2 & -> & Hat2)]; [by exists p|].
      exfalso. apply Hdest. split; [done|]. by apply port_at_id in Hat2.
    + assert (sp = p) as -> by congruence.
      assert (limit_ok (append_peer tp p)) as Hok'.
      { unfold limit_ok, append_peer in *. simpl. rewrite length_app. simpl. lia. }
      destruct (port_pos_mutate tn tp (append_peer fp) _ _ _ _ Hp1)
        as [Hp2|(Hp2 & -> & Hat2)]; [by exists (append_peer tp p)|].
      exfalso. apply Hdest. split; [done|].
      apply port_at_id in Hat2. by rewrite append_peer_id in Hat2.
  - unfold remove_connection.
    destruct (get cid (connections self)) as [c|]; simpl; [|by exists p].
    destruct (get_node (from_node c) self), (get_node (to_node c) self);
      simpl; try by exists p.
    assert (∀ x ns q, port_pos nid i ns = Some q → limit_ok q →
              ∀ na pa, ∃ q', port_pos nid i (mutate_port na pa (remove_peer x) ns) = Some q'
                   ∧ p_id q' = p_id q ∧ connection_limit q' = connection_limit q
                   ∧ limit_ok q') as Hstep.
    { intros x ns q Hq Hqok na pa.
      destruct (port_pos_mutate na pa (remove_peer x) _ _ _ _ Hq) as [?|(? & _)].
      - by exists q.
      - exists (remove_peer x q).
        split_and!; [done|apply remove_peer_id|apply remove_peer_limit
                    |by apply remove_peer_limit_ok]. }
    destruct (Hstep (to_port c) _ _ Hp Hok (from_node c) (from_port c))
      as (q1 & Hq1 & Hid1 & Hl1 & Hok1).
    destruct (Hstep (from_port c) _ _ Hq1 Hok1 (to_node c) (to_port c))
      as (q2 & Hq2 & Hid2 & Hl2 & Hok2).
    exists q2. split_and!; [done|congruence|congruence|done].
Qed.
End store_facts.

(** ** Claims on the graph store *)

(** Replaces a closed store term by its value. *)
Ltac eval_store s :=
  let ns := eval vm_compute in (nodes s) in
  let cs := eval vm_compute in (connections s) in
  change (nodes s) with ns in *;
  change (connections s) with cs in *.

(** Case analysis on membership in a list given by its elements. *)
Ltac elem_cases :=
  repeat (match goal with
          | H : _ ∈ [] |- _ => by apply elem_of_nil in H
          | H : _ ∈ _ :: _ |- _ => apply elem_of_cons in H as [H|H]
          end; simplify_eq/=).

Lemma store_AB_linked_reachable : reachable store_AB_linked.
Proof. repeat constructor. Qed.

Lemma store_AB_linked_consistent : consistent store_AB_linked.
Proof.
  split.
  - intros cid c Hc. eval_store store_AB_linked. elem_cases.
    split; eexists; (split; [reflexivity|simpl; set_solver]).
  - intros nid n p q Hn Hp Hq. eval_store store_AB_linked. elem_cases;
      eexists _, _; (split; [left|]); [by left|by right].
Qed.

Lemma store_A_removed_dangling : ¬ no_dangling_peers (remove_node "A" store_AB_linked).2.
Proof.
  intros H.
  destruct (H "B" (plain_node "B" [mkPort "b" "b" "input" "any" ["a"] (0, 0)%Z (-1)%Z false])
              (mkPort "b" "b" "input" "any" ["a"] (0, 0)%Z (-1)%Z false) "a")
    as (cid & c & Hc & _).
  - eval_store (remove_node "A" store_AB_linked).2. left.
  - left.
  - left.
  - eval_store (remove_node "A" store_AB_linked).2. elem_cases.
Qed.

(** Removing a node is not among the steps of [built]: after adding nodes A
    and B, connecting A's output to B's input and removing node A, the
    connection is gone and B's port still lists A's port. Before the removal
    the store is consistent. *)
Lemma consistency_broken_by_remove_node :
  reachable store_AB_linked ∧ consistent store_AB_linked
  ∧ reachable (remove_node "A" store_AB_linked).2
  ∧ ¬ consistent (remove_node "A" store_AB_linked).2.
Proof.
  split_and!.
  - apply store_AB_linked_reachable.
  - apply store_AB_linked_consistent.
  - constructor. apply store_AB_linked_reachable.
  - intros [_ H]. by apply store_A_removed_dangling.
Qed.

(** C4. Removing node A from the store where A's output feeds B's input
    answers true and removes the one incident connection, and the surviving
    port of B keeps the entry for A's port although no connection accounts
    for it; the store had no dangling entry before. *)
Theorem remove_node_leaves_dangling_peer :
  no_dangling_peers store_AB_linked
  ∧ (remove_node "A" store_AB_linked).1 = true
  ∧ PyDict.get "A" (nodes (remove_node "A" store_AB_linked).2) = None
  ∧ connections (remove_node "A" store_AB_linked).2 = []
  ∧ connected_to <$> port_at "B" "b" (nodes (remove_node "A" store_AB_linked).2)
    = Some ["a"]
  ∧ ¬ no_dangling_peers (remove_node "A" store_AB_linked).2.
Proof.
  split_and!; try reflexivity.
  - apply store_AB_linked_consistent.
  - apply store_A_removed_dangling.
Qed.

(** C2 (as stated, refuted). Starting from a store in which every port is
    within its limit, two successful connects into input port [in] of Y,
    whose limit is 1, leave that port with two peers. *)
Lemma destination_limit_exceeded :
  limits_ok store_XYZ
  ∧ ¬ limits_ok
        (run_link_ops [Connect "X" "out" "Y" "in" SIMPLE no_props "c1";
                       Connect "W" "out" "Y" "in" SIMPLE no_props "c2"] store_XYZ).
Proof.
  split.
  - unfold limits_ok. eval_store store_XYZ.
    repeat constructor; unfold limit_ok; simpl; lia.
  - unfold limits_ok.
    eval_store (run_link_ops [Connect "X" "out" "Y" "in" SIMPLE no_props "c1";
                              Connect "W" "out" "Y" "in" SIMPLE no_props "c2"] store_XYZ).
    intros H. apply Forall_cons in H as [_ H]. apply Forall_cons in H as [H _].
    apply Forall_cons in H as [H _]. unfold limit_ok in H. simpl in H. lia.
Qed.

(** C2 (amended). Along any sequence of connect and disconnect requests, a
    port that starts within its limit stays within it as long as no
    connection is created into it: [add_connection] checks the limit of the
    source port only, and [remove_connection] never lengthens a peer
    list. *)
Theorem limit_kept_unless_destination ops self nid i p :
  port_pos nid i (nodes self) = Some p → limit_ok p →
  never_linked_into nid (p_id p) ops self →
  ∃ p', port_pos nid i (nodes (run_link_ops ops self)) = Some p'
        ∧ p_id p' = p_id p ∧ connection_limit p' = connection_limit p
        ∧ limit_ok p'.
Proof.
  unfold run_link_ops. revert self p.
  induction ops as [|op ops IH]; intros self p Hp Hok Hops; simpl.
  - by exists p.
  - destruct Hops as [Hop Hops].
    destruct (link_step_limit self op nid i p Hp Hok Hop)
      as (p1 & Hp1 & Hid1 & Hl1 & Hok1).
    destruct (IH (apply_link_op self op) p1 Hp1 Hok1) as (p' & Hp' & Hid' & Hl' & Hok').
    { by rewrite Hid1. }
    exists p'. split_and!; [done|congruence|congruence|done].
Qed.

Lemma limit_kept_unless_destination_witness :
  port_pos "X" 0 (nodes store_XYZ) = Some (plain_port "out" "output" 1)
  ∧ limit_ok (plain_port "out" "output" 1)
  ∧ never_linked_into "X" "out" requests_from_X store_XYZ
  ∧ ∃ p', port_pos "X" 0 (nodes (run_link_ops requests_from_X store_XYZ)) = Some p'
          ∧ p_id p' = "out" ∧ connection_limit p' = 1%Z ∧ limit_ok p'.
Proof.
  assert (port_pos "X" 0 (nodes store_XYZ) = Some (plain_port "out" "output" 1)) as H1
    by reflexivity.
  assert (limit_ok (plain_port "out" "output" 1)) as H2
    by (unfold limit_ok; simpl; lia).
  assert (never_linked_into "X" "out" requests_from_X store_XYZ) as H3.
  { unfold requests_from_X. simpl.
    split_and!; [by intros (? & _)|by intros (? & _)|by intros []|by intros (? & _)
                |intros (_ & _ & Hsome); by destruct Hsome|done]. }
  split_and!; [done..|].
  exact (limit_kept_unless_destination requests_from_X store_XYZ "X" 0
           (plain_port "out" "output" 1) H1 H2 H3).
Defined.

(** C3. [add_connection] fails exactly when a node id is unknown, a port id
    is not found on its node, or the source port has a positive limit that
    its peer list has reached; and a failed call returns the store as it
    was: no connection added, no peer list touched. *)
Theorem add_connection_failure fn fp tn tp ct kw uuid self :
  ((add_connection fn fp tn tp ct kw uuid self).1 = None
   ↔ (get_node fn self = None ∨ get_node tn self = None
      ∨ port_at fn fp (nodes self) = None ∨ port_at tn tp (nodes self) = None
      ∨ ∃ p, port_at fn fp (nodes self) = Some p
             ∧ (0 < connection_limit p ≤ Z.of_nat (length (connected_to p)))%Z))
  ∧ ((add_connection fn fp tn tp ct kw uuid self).1 = None
     → (add_connection fn fp tn tp ct kw uuid self).2 = self).
Proof.
  destruct (add_connection_cases fn fp tn tp ct kw uuid self)
    as [[-> Hwhy]|(p & q & Hp & Hq & Hlim & ->)]; simpl.
  - done.
  - split; [|done]. split; [done|].
    unfold get_node, port_at in *.
    intros [H|[H|[H|[H|(p' & Hp' & Hlim')]]]].
    + by rewrite H in Hp.
    + by rewrite H in Hq.
    + by rewrite H in Hp.
    + by rewrite H in Hq.
    + rewrite Hp in Hp'. injection Hp' as <-. done.
Qed.

(** The scenario of the specification: X's output has limit 1 and is linked
    to Y; linking X to Z fails and X's peer list keeps length 1. *)
Lemma add_connection_failure_witness :
  (add_connection "X" "out" "Z" "in" SIMPLE no_props "c2" store_XY_linked).1 = None
  ∧ (add_connection "X" "out" "Z" "in" SIMPLE no_props "c2" store_XY_linked).2
    = store_XY_linked
  ∧ (length ∘ connected_to) <$> port_at "X" "out" (nodes store_XY_linked) = Some 1%nat.
Proof.
  pose proof (add_connection_failure "X" "out" "Z" "in" SIMPLE no_props "c2"
                store_XY_linked) as [Hiff Hsame].
  assert ((add_connection "X" "out" "Z" "in" SIMPLE no_props "c2" store_XY_linked).1
          = None) as Hfail.
  { apply Hiff. do 4 right. eexists. split; [reflexivity|]. simpl. lia. }
  split_and!; [exact Hfail|exact (Hsame Hfail)|reflexivity].
Defined.

(** C10. Removing a connection that is in the connection map answers true
    and deletes it, whether or not its endpoint nodes still exist; when an
    endpoint node is missing the node map, and with it every peer list, is
    left as it was. *)
Theorem remove_connection_missing_endpoint self cid c :
  PyDict.get cid (connections self) = Some c →
  (remove_connection cid self).1 = true
  ∧ connections (remove_connection cid self).2 = PyDict.del cid (connections self)
  ∧ PyDict.get cid (connections (remove_connection cid self).2) = None
  ∧ (get_node (from_node c) self = None ∨ get_node (to_node c) self = None
     → nodes (remove_connection cid self).2 = nodes self).
Proof.
  intros Hc. unfold remove_connection. rewrite Hc. simpl.
  split_and!; [done|done|apply PyDictFacts.get_del_eq|].
  intros [H|H]; rewrite H; [done|]. by destruct (get_node (from_node c) self).
Qed.

Lemma remove_connection_missing_endpoint_witness :
  PyDict.get "c1" (connections store_B_orphan_link)
  = Some (mkConnection "c1" "A" "B" "a" "b" SIMPLE "" 0%Z [] [] [] "" [] [])
  ∧ get_node "A" store_B_orphan_link = None
  ∧ (remove_connection "c1" store_B_orphan_link).1 = true
  ∧ connections (remove_connection "c1" store_B_orphan_link).2 = []
  ∧ nodes (remove_connection "c1" store_B_orphan_link).2 = nodes store_B_orphan_link
  ∧ connected_to <$> port_at "B" "b" (nodes (remove_connection "c1" store_B_orphan_link).2)
    = Some ["a"].
Proof.
  assert (PyDict.get "c1" (connections store_B_orphan_link)
          = Some (mkConnection "c1" "A" "B" "a" "b" SIMPLE "" 0%Z [] [] [] "" [] []))
    as Hget by reflexivity.
  destruct (remove_connection_missing_endpoint store_B_orphan_link "c1" _ Hget)
    as (Htrue & Hdel & _ & Hnodes).
  split_and!; [exact Hget|reflexivity|exact Htrue|reflexivity
              |exact (Hnodes (or_introl eq_refl))|reflexivity].
Defined.

(** *** What [remove_node] does to the two maps *)

Section remove_node_facts.
Import PyDict PyDictFacts.

Lemma del_as_filter {V} k (d : list (string * V)) :
  del k d = filter (λ kv, kv.1 ≠ k) d.
Proof.
  induction d as [|[k' v] d IH]; simpl; [done|].
  destruct (decide (k' = k)) as [->|Hk].
  - rewrite filter_cons_False by (simpl; auto). done.
  - rewrite filter_cons_True by done. by rewrite IH.
Qed.

Lemma foldl_del_as_filter {V} ks (d : list (string * V)) :
  foldl (λ d k, del k d) d ks = filter (λ kv, kv.1 ∉ ks) d.
Proof.
  revert d. induction ks as [|k ks IH]; intros d; simpl.
  - induction d as [|kv d IHd]; [done|].
    rewrite filter_cons_True by apply not_elem_of_nil. by rewrite <- IHd.
  - rewrite IH, del_as_filter, list_filter_filter.
    apply list_filter_iff. intros [k' v]. simpl. rewrite not_elem_of_cons. tauto.
Qed.

Lemma filter_ext_elem {A} (P Q : A → Prop) `{!∀ x, Decision (P x), !∀ x, Decision (Q x)}
    (l : list A) :
  (∀ x, x ∈ l → P x ↔ Q x) → filter P l = filter Q l.
Proof.
  induction l as [|x l IH]; intros Hext; [done|].
  assert (filter P l = filter Q l) as IH'.
  { apply IH. intros y Hy. apply Hext. by right. }
  destruct (decide (P x)) as [HP|HP].
  - rewrite !filter_cons_True; [by rewrite IH'|by apply Hext; [left|]|done].
  - rewrite !filter_cons_False; [done| |done]. intros HQ. apply HP, Hext; [left|done].
Qed.

(** An unknown id is refused and nothing changes. *)
Lemma remove_node_unknown node_id self :
  get node_id (nodes self) = None → remove_node node_id self = (false, self).
Proof. unfold remove_node. by intros ->. Qed.

(** A known id is removed from the node map, and the connection map loses
    the connections whose source or destination it is, and only those. *)
Lemma remove_node_known node_id self n :
  get node_id (nodes self) = Some n → NoDup (keys (connections self)) →
  remove_node node_id self
  = (true,
     mkManager (del node_id (nodes self))
               (filter (λ kc, ¬ (from_node kc.2 = node_id ∨ to_node kc.2 = node_id))
                       (connections self))
               (next_id self)).
Proof.
  intros Hn Hnd. unfold remove_node. rewrite Hn. do 2 f_equal.
  rewrite foldl_del_as_filter. apply filter_ext_elem.
  intros [k c] Hin. simpl. split.
  - intros Hk Hinc. apply Hk. apply list_elem_of_fmap.
    exists (k, c). split; [done|]. by apply list_elem_of_filter.
  - intros Hinc Hk. apply list_elem_of_fmap in Hk as ([k' c'] & Hkk & Hin').
    simpl in Hkk. subst k'. apply list_elem_of_filter in Hin' as [Hinc' Hin'].
    simpl in Hinc'. apply Hinc.
    assert (c = c') as ->; [|done].
    apply (elem_get _ _ _ Hnd) in Hin. apply (elem_get _ _ _ Hnd) in Hin'. congruence.
Qed.
End remove_node_facts.

(** ** Export and import of connections *)

Section persistence_facts.
Import PyDict PyDictFacts.
Implicit Types (self : NodeManager) (c : Connection) (ns : list (string * BaseNode)).

Lemma ConnectionType_of_value_value t :
  ConnectionType_of_value (ConnectionType_value t) = Some t.
Proof. by destruct t. Qed.

Lemma connection_of_data_export uuid c :
  connection_of_data uuid (export_connection c) = Some c.
Proof.
  destruct c. unfold connection_of_data. simpl.
  by rewrite ConnectionType_of_value_value.
Qed.

Lemma peers_extend_refl ns : peers_extend ns ns.
Proof. intros nid pid p Hp. by exists p. Qed.

Lemma peers_extend_trans ns1 ns2 ns3 :
  peers_extend ns1 ns2 → peers_extend ns2 ns3 → peers_extend ns1 ns3.
Proof.
  intros H12 H23 nid pid p Hp.
  destruct (H12 _ _ _ Hp) as (p2 & Hp2 & Hsub2).
  destruct (H23 _ _ _ Hp2) as (p3 & Hp3 & Hsub3).
  exists p3. split; [done|]. by etrans.
Qed.

Lemma add_peer_once_subseteq x p : connected_to p ⊆ connected_to (add_peer_once x p).
Proof.
  unfold add_peer_once. case_bool_decide; [done|]. simpl.
  intros y Hy. apply elem_of_app. by left.
Qed.

Lemma add_peer_once_elem x p : x ∈ connected_to (add_peer_once x p).
Proof.
  unfold add_peer_once. case_bool_decide; [done|]. simpl.
  apply elem_of_app. right. left.
Qed.

Lemma add_peer_once_inv x p q :
  q ∈ connected_to (add_peer_once x p) → q ∈ connected_to p ∨ q = x.
Proof.
  unfold add_peer_once. case_bool_decide; [by left|]. simpl.
  intros [?|Hq%list_elem_of_singleton]%elem_of_app; [by left|by right].
Qed.

Lemma mutate_add_once_extend nid pid x ns :
  peers_extend ns (mutate_port nid pid (add_peer_once x) ns).
Proof.
  intros nid' pid' p Hp.
  destruct (decide ((nid, pid) = (nid', pid'))) as [[= <- <-]|Hne].
  - rewrite port_at_mutate_eq, Hp by apply add_peer_once_id. simpl.
    eexists. split; [done|]. apply add_peer_once_subseteq.
  - rewrite port_at_mutate_ne by (apply add_peer_once_id || done). by exists p.
Qed.

(** Reading a mutated store back: the port is the updated one at the
    address of the mutation and the old one elsewhere. *)
Lemma port_at_mutate_inv nid pid f ns nid' pid' p' :
  id_preserving f →
  port_at nid' pid' (mutate_port nid pid f ns) = Some p' →
  (nid' = nid ∧ pid' = pid ∧ ∃ p, port_at nid pid ns = Some p ∧ p' = f p)
  ∨ port_at nid' pid' ns = Some p'.
Proof.
  intros Hf.
  destruct (decide ((nid, pid) = (nid', pid'))) as [[= <- <-]|Hne].
  - rewrite port_at_mutate_eq by done.
    destruct (port_at nid pid ns) as [p|]; [|done]. simpl. intros [= <-].
    left. split_and!; [done..|]. by exists p.
  - rewrite port_at_mutate_ne by done. by right.
Qed.

Lemma import_connection_export uuid c self :
  import_connection uuid (export_connection c) self
  = mkManager
      (match port_at (from_node c) (from_port c) (nodes self),
             port_at (to_node c) (to_port c) (nodes self) with
       | Some _, Some _ =>
           mutate_port (to_node c) (to_port c) (add_peer_once (from_port c))
             (mutate_port (from_node c) (from_port c) (add_peer_once (to_port c))
                          (nodes self))
       | _, _ => nodes self
       end)
      (set (c_id c) c (connections self)) (next_id self).
Proof.
  unfold import_connection. rewrite connection_of_data_export. f_equal.
  unfold port_at, get_node.
  destruct (get (from_node c) (nodes self)) as [n1|]; [|done].
  destruct (get (to_node c) (nodes self)) as [n2|]; [|by destruct (find_port _ _)].
  done.
Qed.

Lemma import_connection_extend uuid c self :
  peers_extend (nodes self) (nodes (import_connection uuid (export_connection c) self)).
Proof.
  rewrite import_connection_export. simpl.
  destruct (port_at (from_node c) (from_port c) (nodes self)),
           (port_at (to_node c) (to_port c) (nodes self));
    try apply peers_extend_refl.
  eapply peers_extend_trans; apply mutate_add_once_extend.
Qed.

Lemma import_connection_back_referenced uuid c self :
  is_Some (port_at (from_node c) (from_port c) (nodes self)) →
  is_Some (port_at (to_node c) (to_port c) (nodes self)) →
  back_referenced (nodes (import_connection uuid (export_connection c) self)) c.
Proof.
  intros [p Hp] [q Hq]. rewrite import_connection_export, Hp, Hq. simpl.
  set (ns1 := mutate_port (from_node c) (from_port c) (add_peer_once (to_port c))
                          (nodes self)).
  assert (∃ p1, port_at (from_node c) (from_port c) ns1 = Some p1
                ∧ to_port c ∈ connected_to p1) as (p1 & Hp1 & Hin1).
  { unfold ns1. rewrite port_at_mutate_eq, Hp by apply add_peer_once_id.
    eexists. split; [done|]. apply add_peer_once_elem. }
  split.
  - destruct (mutate_add_once_extend (to_node c) (to_port c) (from_port c) ns1
                _ _ _ Hp1) as (p2 & Hp2 & Hsub).
    exists p2. split; [done|]. by apply Hsub.
  - destruct (mutate_add_once_extend (from_node c) (from_port c) (to_port c)
                (nodes self) _ _ _ Hq) as (q1 & Hq1 & _).
    fold ns1 in Hq1. rewrite port_at_mutate_eq, Hq1 by apply add_peer_once_id.
    eexists. split; [done|]. apply add_peer_once_elem.
Qed.

Lemma back_referenced_extend ns ns' c :
  peers_extend ns ns' → back_referenced ns c → back_referenced ns' c.
Proof.
  intros Hext [(p & Hp & Hin) (q & Hq & Hin')].
  destruct (Hext _ _ _ Hp) as (p' & Hp' & Hsub).
  destruct (Hext _ _ _ Hq) as (q' & Hq' & Hsub').
  split; eexists; (split; [done|]); [by apply Hsub|by apply Hsub'].
Qed.

Lemma peers_justified_refl ns cs : peers_justified ns ns cs.
Proof. intros nid pid p q Hp Hq. left. by exists p. Qed.

Lemma peers_justified_trans ns1 ns2 ns3 cs1 cs2 :
  peers_justified ns1 ns2 cs1 → peers_justified ns2 ns3 cs2 →
  peers_justified ns1 ns3 (cs1 ++ cs2).
Proof.
  intros H12 H23 nid pid p3 q Hp3 Hq.
  destruct (H23 _ _ _ _ Hp3 Hq) as [(p2 & Hp2 & Hq2)|(c & Hc & Hacc)].
  - destruct (H12 _ _ _ _ Hp2 Hq2) as [?|(c & Hc & Hacc)]; [by left|].
    right. exists c. split; [|done]. apply elem_of_app. by left.
  - right. exists c. split; [|done]. apply elem_of_app. by right.
Qed.

Lemma import_connection_justified uuid c self :
  peers_justified (nodes self)
                  (nodes (import_connection uuid (export_connection c) self)) [c].
Proof.
  rewrite import_connection_export. simpl.
  destruct (port_at (from_node c) (from_port c) (nodes self)) as [p0|] eqn:Hp0;
    [|apply peers_justified_refl].
  destruct (port_at (to_node c) (to_port c) (nodes self)) as [q0|] eqn:Hq0;
    [|apply peers_justified_refl].
  intros nid pid p' q Hp' Hq.
  assert (∀ c', c' = c → c' ∈ [c]) as Hc by (intros ? ->; left).
  apply (port_at_mutate_inv _ _ _ _ _ _ _ (add_peer_once_id _)) in Hp'
    as [(-> & -> & p1 & Hp1 & ->)|Hp'].
  - apply add_peer_once_inv in Hq as [Hq| ->].
    + apply (port_at_mutate_inv _ _ _ _ _ _ _ (add_peer_once_id _)) in Hp1
        as [(Hn & Hi & p2 & Hp2 & ->)|Hp1].
      * apply add_peer_once_inv in Hq as [Hq| ->].
        { left. exists p2. by rewrite Hn, Hi. }
        right. exists c. split; [by apply Hc|]. left. by rewrite Hn, Hi.
      * left. by exists p1.
    + right. exists c. split; [by apply Hc|]. by right.
  - apply (port_at_mutate_inv _ _ _ _ _ _ _ (add_peer_once_id _)) in Hp'
      as [(-> & -> & p2 & Hp2 & ->)|Hp'].
    + apply add_peer_once_inv in Hq as [Hq| ->]; [left; by exists p2|].
      right. exists c. split; [by apply Hc|]. by left.
    + left. by exists p'.
Qed.

(** The import loop over exported connections, one invariant at a time. *)
Lemma import_loop_connections uuid4 i (l : list (string * Connection)) self :
  Forall (λ kc, kc.1 = c_id kc.2) l →
  NoDup (keys (connections self) ++ keys l) →
  connections (import_loop uuid4 i (export_connection <$> values l) self)
  = connections self ++ l.
Proof.
  revert i self. induction l as [|[k c] l IH]; intros i self Hk Hnd; simpl.
  - by rewrite app_nil_r.
  - apply Forall_cons in Hk as [Hkc Hk]. simpl in Hkc. subst k.
    unfold values in IH. rewrite IH; [|done|].
    + rewrite import_connection_export. simpl.
      rewrite set_fresh, <- app_assoc; [done|].
      apply get_None_keys. apply NoDup_app in Hnd as (_ & Hdisj & _).
      intros Hin. apply (Hdisj _ Hin). left.
    + rewrite import_connection_export. simpl.
      assert (get (c_id c) (connections self) = None) as Hfresh.
      { apply get_None_keys. apply NoDup_app in Hnd as (_ & Hdisj & _).
        intros Hin. apply (Hdisj _ Hin). left. }
      rewrite set_fresh by done. unfold keys in *.
      rewrite fmap_app, <- app_assoc. done.
Qed.

Lemma import_loop_extend uuid4 i (cs : list Connection) self :
  peers_extend (nodes self) (nodes (import_loop uuid4 i (export_connection <$> cs) self)).
Proof.
  revert i self. induction cs as [|c cs IH]; intros i self; simpl.
  - apply peers_extend_refl.
  - eapply peers_extend_trans; [apply import_connection_extend|apply IH].
Qed.

Lemma import_loop_justified uuid4 i (cs : list Connection) self :
  peers_justified (nodes self)
                  (nodes (import_loop uuid4 i (export_connection <$> cs) self)) cs.
Proof.
  revert i self. induction cs as [|c cs IH]; intros i self; simpl.
  - apply peers_justified_refl.
  - change (c :: cs) with ([c] ++ cs).
    eapply peers_justified_trans; [apply import_connection_justified|apply IH].
Qed.

Lemma import_loop_back_referenced uuid4 i (cs : list Connection) self c :
  c ∈ cs →
  is_Some (port_at (from_node c) (from_port c) (nodes self)) →
  is_Some (port_at (to_node c) (to_port c) (nodes self)) →
  back_referenced (nodes (import_loop uuid4 i (export_connection <$> cs) self)) c.
Proof.
  revert i self. induction cs as [|c0 cs IH]; intros i self Hin Hp Hq; simpl.
  - by apply elem_of_nil in Hin.
  - apply elem_of_cons in Hin as [->|Hin].
    + eapply back_referenced_extend; [apply import_loop_extend|].
      by apply import_connection_back_referenced.
    + apply IH; [done| |].
      * destruct Hp as [p Hp].
        destruct (import_connection_extend (uuid4 i) c0 self _ _ _ Hp) as (? & ? & _).
        eauto.
      * destruct Hq as [q Hq].
        destruct (import_connection_extend (uuid4 i) c0 self _ _ _ Hq) as (? & ? & _).
        eauto.
Qed.
End persistence_facts.



(** The hypothesis of the round trip holds in every store the structural
    operations build. *)
Section keyed_by_id_facts.
Import PyDict PyDictFacts.

Lemma keys_set_elem {V} k (v : V) d k' : k' ∈ keys (set k v d) → k' = k ∨ k' ∈ keys d.
Proof.
  unfold keys. induction d as [|[k0 v0] d IH]; simpl.
  - intros ->%list_elem_of_singleton. by left.
  - destruct (decide (k0 = k)) as [->|Hk]; simpl.
    + intros [->|?]%elem_of_cons; [by left|right; by right].
    + intros [->|?]%elem_of_cons; [right; left|].
      destruct IH as [?|?]; [done|by left|right; by right].
Qed.

Lemma NoDup_keys_set {V} k (v : V) d : NoDup (keys d) → NoDup (keys (set k v d)).
Proof.
  unfold keys. induction d as [|[k0 v0] d IH]; simpl.
  - intros _. apply NoDup_singleton.
  - intros [Hk0 Hnd]%NoDup_cons. destruct (decide (k0 = k)) as [->|Hk]; simpl.
    + by apply NoDup_cons.
    + apply NoDup_cons. split; [|by apply IH].
      intros [?|?]%keys_set_elem; done.
Qed.

Lemma keyed_by_id_set c conns :
  keyed_by_id conns → keyed_by_id (set (c_id c) c conns).
Proof.
  intros [Hk Hnd]. split; [|by apply NoDup_keys_set].
  clear Hnd. induction conns as [|[k0 c0] conns IH]; simpl.
  - by repeat constructor.
  - apply Forall_cons in Hk as [Hk0 Hk]. case_decide; constructor; auto.
Qed.

Lemma keyed_by_id_filter (P : string * Connection → Prop) `{!∀ x, Decision (P x)} conns :
  keyed_by_id conns → keyed_by_id (filter P conns).
Proof.
  intros [Hk Hnd]. split.
  - apply Forall_forall. intros kc [_ Hin]%list_elem_of_filter.
    by apply (proj1 (Forall_forall _ _) Hk).
  - unfold keys in *. induction conns as [|kc conns IH]; [done|].
    apply Forall_cons in Hk as [_ Hk]. simpl in Hnd. apply NoDup_cons in Hnd as [Hin Hnd].
    destruct (decide (P kc)).
    + rewrite filter_cons_True by done. simpl. apply NoDup_cons. split; [|by apply IH].
      intros ([k' c'] & ? & [_ ?]%list_elem_of_filter)%list_elem_of_fmap.
      apply Hin. apply list_elem_of_fmap. by exists (k', c').
    + rewrite filter_cons_False by done. by apply IH.
Qed.

Lemma reachable_keyed_by_id self : reachable self → keyed_by_id (connections self).
Proof.
  induction 1 as [|node self _ IH|node_id self _ IH
                  |fn fp tn tp ct kw uuid self _ IH|cid self _ IH].
  - split; constructor.
  - unfold add_node. by destruct (decide (n_id node = "")).
  - unfold remove_node. destruct (get node_id (nodes self)); [|done]. simpl.
    rewrite foldl_del_as_filter. by apply keyed_by_id_filter.
  - destruct (add_connection_cases fn fp tn tp ct kw uuid self)
      as [[-> _]|(p & q & _ & _ & _ & ->)]; [done|].
    by apply (keyed_by_id_set (new_connection fn fp tn tp ct kw uuid)).
  - unfold remove_connection. destruct (get cid (connections self)); [|done]. simpl.
    rewrite del_as_filter. by apply keyed_by_id_filter.
Qed.
End keyed_by_id_facts.

(** ** Condition syntax *)

Section condition_facts.
Implicit Types (s pattern : string).

Lemma append_cons c s1 s2 : String c s1 +:+ s2 = String c (s1 +:+ s2).
Proof. reflexivity. Qed.

Lemma append_empty s : "" +:+ s = s.
Proof. reflexivity. Qed.

Lemma prefix_spec pattern s :
  String.prefix pattern s = true ↔ ∃ b, s = pattern +:+ b.
Proof.
  revert s. induction pattern as [|a pattern IH]; intros s; simpl.
  - destruct s; split; eauto.
  - destruct s as [|c s]; simpl.
    + split; [done|]. by intros [b ?].
    + destruct (Ascii.ascii_dec a c) as [->|Hne].
      * rewrite IH. split; intros [b Hb]; exists b.
        -- by rewrite append_cons, Hb.
        -- rewrite append_cons in Hb. congruence.
      * split; [done|]. intros [b Hb]. rewrite append_cons in Hb. congruence.
Qed.

Lemma str_in_spec pattern s : str_in pattern s = true ↔ is_substring pattern s.
Proof.
  unfold is_substring. split.
  - induction s as [|c s IH]; cbn [str_in].
    + destruct (String.prefix pattern "") eqn:Hp; [|done].
      intros _. apply prefix_spec in Hp as [b Hb].
      exists "", b. by rewrite append_empty.
    + destruct (String.prefix pattern (String c s)) eqn:Hp.
      * intros _. apply prefix_spec in Hp as [b Hb].
        exists "", b. by rewrite append_empty.
      * intros (a & b & ->)%IH. exists (String c a), b. by rewrite append_cons.
  - intros (a & b & ->). induction a as [|c a IH].
    + rewrite append_empty.
      assert (String.prefix pattern (pattern +:+ b) = true) as Hp
        by (apply prefix_spec; eauto).
      destruct (pattern +:+ b); cbn [str_in]; by rewrite Hp.
    + rewrite append_cons. cbn [str_in]. rewrite IH.
      by destruct (String.prefix _ _).
Qed.

Lemma lstrip_blank s : lstrip s = "" ↔ is_blank s.
Proof.
  unfold is_blank. induction s as [|c s IH]; simpl.
  - split; [constructor|done].
  - destruct (is_space c) eqn:Hc.
    + rewrite IH. split; [by constructor|by intros [_ ?]%Forall_cons].
    + split; [done|]. intros [? _]%Forall_cons. congruence.
Qed.

Lemma rstrip_blank s : rstrip s = "" ↔ is_blank s.
Proof.
  unfold is_blank. induction s as [|c s IH]; simpl.
  - split; [constructor|done].
  - destruct (rstrip s) eqn:Hr.
    + destruct (is_space c) eqn:Hc.
      * split; [|done]. intros _. constructor; [done|]. by apply IH.
      * split; [done|]. intros [? _]%Forall_cons. congruence.
    + split; [done|]. intros [_ Hs]%Forall_cons. by apply IH in Hs.
Qed.

Lemma lstrip_keeps_blank s : is_blank (lstrip s) ↔ is_blank s.
Proof.
  unfold is_blank. induction s as [|c s IH]; simpl; [done|].
  destruct (is_space c) eqn:Hc; [|done].
  rewrite IH. split; [by constructor|by intros [_ ?]%Forall_cons].
Qed.

(** Trimming leaves nothing exactly when the string is whitespace only. *)
Lemma strip_blank s : strip s = "" ↔ is_blank s.
Proof. unfold strip. by rewrite rstrip_blank, lstrip_keeps_blank. Qed.

Lemma is_valid_condition_spec condition :
  _is_valid_condition condition = false ↔ implausible condition.
Proof.
  unfold _is_valid_condition, implausible.
  destruct (decide (strip condition = "")) as [Hs|Hs].
  - rewrite (bool_decide_eq_true_2 _ Hs), orb_true_r. split; [done|by intros [? _]].
  - assert (condition ≠ "") as Hne by (by intros ->).
    rewrite !bool_decide_eq_false_2 by done. cbn [orb].
    rewrite <- not_true_iff_false, existsb_exists. split.
    + intros Hnone. split; [done|]. intros pattern Hin Hsub.
      apply Hnone. exists pattern. split; [by apply list_elem_of_In|].
      by apply str_in_spec.
    + intros [_ Hnone] (pattern & Hin & Hsub).
      apply (Hnone pattern); [by apply list_elem_of_In|by apply str_in_spec].
Qed.

Lemma node_conditions_findings node_id node :
  findings_of implausible (node_condition_issue node_id node)
              (conditions node) (node_conditions_issues node_id node).
Proof.
  unfold node_conditions_issues.
  induction (conditions node) as [|c l IH]; simpl; [constructor|].
  destruct (_is_valid_condition c) eqn:Hc; simpl.
  - apply findings_pass; [|done]. rewrite <- is_valid_condition_spec. congruence.
  - apply findings_flag; [|done]. by apply is_valid_condition_spec.
Qed.

Lemma connection_conditions_findings (conns : list (string * Connection)) :
  findings_of (λ kc, implausible (condition kc.2))
              (λ kc, connection_condition_issue kc.1 kc.2)
              conns
              (flat_map (λ kc, connection_condition_issues kc.1 kc.2) conns).
Proof.
  induction conns as [|[k c] conns IH]; simpl; [constructor|].
  unfold connection_condition_issues at 1.
  destruct (_is_valid_condition (condition c)) eqn:Hc; simpl.
  - rewrite andb_false_r. simpl.
    apply findings_pass; [|done]. simpl. rewrite <- is_valid_condition_spec. congruence.
  - rewrite andb_true_r. apply is_valid_condition_spec in Hc as Himp.
    assert (condition c ≠ "") as Hne.
    { intros Heq. rewrite Heq in Himp. by destruct Himp as [? _]. }
    rewrite bool_decide_eq_false_2 by done. simpl.
    by apply (findings_flag (λ kc, implausible (condition kc.2))
                (λ kc, connection_condition_issue kc.1 kc.2) (k, c)).
Qed.
End condition_facts.


(** ** The adjacency dict *)

Section graph_facts.
Import PyDict PyDictFacts.
Implicit Types (graph : list (string * list string)) (conns : list (string * Connection)).

Lemma neighbors_graph_add graph c x :
  neighbors (graph_add graph c) x
  = if decide (from_node c = x) then neighbors graph x ++ [to_node c]
    else neighbors graph x.
Proof.
  unfold neighbors, graph_add, contains.
  destruct (decide (from_node c = x)) as [<-|Hne].
  - rewrite get_set_eq. simpl.
    destruct (get (from_node c) graph) eqn:Hg; [by rewrite Hg|].
    by rewrite get_set_eq.
  - rewrite get_set_ne by done.
    destruct (get (from_node c) graph); [done|]. by rewrite get_set_ne.
Qed.

Lemma neighbors_foldl_graph_add graph (cs : list Connection) x y :
  y ∈ neighbors (foldl graph_add graph cs) x
  ↔ y ∈ neighbors graph x ∨ ∃ c, c ∈ cs ∧ from_node c = x ∧ to_node c = y.
Proof.
  revert graph. induction cs as [|c cs IH]; intros graph; simpl.
  - split; [by left|]. intros [?|(c & Hc & _)]; [done|]. by apply elem_of_nil in Hc.
  - rewrite IH, neighbors_graph_add. split.
    + intros [Hy|(c' & Hc' & ? & ?)].
      * destruct (decide (from_node c = x)) as [Hx|Hx]; [|by left].
        apply elem_of_app in Hy as [?|Hy%list_elem_of_singleton]; [by left|].
        right. exists c. split; [left|done].
      * right. exists c'. split; [by right|done].
    + intros [Hy|(c' & [Hcc|Hc']%elem_of_cons & Hx & Hy)]; [|subst c'|].
      * left. destruct (decide (from_node c = x)); [|done]. apply elem_of_app. by left.
      * left. rewrite decide_True by done. apply elem_of_app. right. subst y. left.
      * right. by exists c'.
Qed.

Lemma neighbors_build_graph conns x y :
  y ∈ neighbors (build_graph conns) x ↔ conn_edge conns x y.
Proof.
  unfold build_graph, conn_edge. rewrite neighbors_foldl_graph_add. split.
  - intros [Hy|(c & Hc & ? & ?)]; [by apply elem_of_nil in Hy|].
    apply list_elem_of_fmap in Hc as ([k c'] & -> & Hin). by exists (k, c').
  - intros ([k c] & Hin & ? & ?). right. exists c. split; [|done].
    apply list_elem_of_fmap. by exists (k, c).
Qed.

Lemma neighbors_graph_nodes graph x y : y ∈ neighbors graph x → y ∈ graph_nodes graph.
Proof.
  unfold neighbors, graph_nodes. destruct (get x graph) as [l|] eqn:Hg; simpl.
  - intros Hy. apply elem_of_union_r, elem_of_list_to_set, list_elem_of_In, in_concat.
    exists l. split; [|by apply list_elem_of_In]. apply list_elem_of_In.
    apply list_elem_of_fmap. exists (x, l). split; [done|]. by apply get_Some_elem.
  - intros Hy. by apply elem_of_nil in Hy.
Qed.

Lemma keys_graph_nodes graph x : x ∈ keys graph → x ∈ graph_nodes graph.
Proof. intros Hx. by apply elem_of_union_l, elem_of_list_to_set. Qed.

(** The adjacency dict is a function of the edges alone. *)
Lemma build_graph_edges conns conns' :
  edge_of <$> conns = edge_of <$> conns' → build_graph conns = build_graph conns'.
Proof.
  unfold build_graph. generalize (@nil (string * list string)) as graph.
  revert conns'. induction conns as [|[k c] conns IH]; intros [|[k' c'] conns'] graph;
    simpl; try done.
  intros [= Hf Ht Hrest]. rewrite (IH conns' _ Hrest). f_equal.
  unfold graph_add. by rewrite Hf, Ht.
Qed.
End graph_facts.

(** ** Full-graph circular dependencies *)

Section cycle_facts.
Import PyDict PyDictFacts.
Implicit Types (graph : list (string * list string)) (colors : gmap string dfs_color).

Lemma elem_of_colored x colors :
  x ∈ colored colors ↔ ∃ v, colors !! x = Some v ∧ v ≠ WHITE.
Proof.
  unfold colored. rewrite elem_of_dom. split.
  - intros [v Hv]. apply map_lookup_filter_Some in Hv as [? ?]. by exists v.
  - intros (v & ? & ?). exists v. by apply map_lookup_filter_Some.
Qed.

Lemma colored_insert x v colors :
  v ≠ WHITE → colored (<[x:=v]> colors) = {[x]} ∪ colored colors.
Proof.
  intros Hv. apply set_eq. intros y.
  rewrite elem_of_union, elem_of_singleton, !elem_of_colored.
  destruct (decide (x = y)) as [->|Hne].
  - rewrite lookup_insert_eq. split; [by left|]. intros _. by exists v.
  - rewrite lookup_insert_ne by done. split; [by right|]. by intros [?|?].
Qed.

Lemma colored_default x colors :
  x ∈ colored colors ↔ default WHITE (colors !! x) ≠ WHITE.
Proof.
  rewrite elem_of_colored. destruct (colors !! x) as [v|]; simpl.
  - split; [by intros (? & [= <-] & ?)|]. intros ?. by exists v.
  - split; [by intros (? & ? & ?)|done].
Qed.

(** One call of [dfs_visit], by the colour of the node it is called on. *)
Lemma dfs_visit_unfold fuel graph node path colors issues :
  dfs_visit (S fuel) graph node path (colors, issues)
  = match default WHITE (colors !! node) with
    | GRAY =>
        Some (true,
              (colors,
               match list_index node path with
               | Some i => issues ++ [cycle_issue node (drop i path ++ [node]) (length issues)]
               | None => issues
               end))
    | BLACK => Some (false, (colors, issues))
    | WHITE =>
        match visit_until (λ neighbor st', dfs_visit fuel graph neighbor (path ++ [node]) st')
                          (neighbors graph node) (<[node:=GRAY]> colors, issues) with
        | Some (false, (colors', issues')) =>
            Some (false, (<[node:=BLACK]> colors', issues'))
        | r => r
        end
    end.
Proof.
  simpl. destruct (colors !! node) as [[]|] eqn:Hc; rewrite ?Hc; simpl; try done.
  by rewrite lookup_insert_eq, insert_insert_eq.
Qed.

Local Arguments dfs_visit : simpl never.

Lemma colored_shrinks (U C : gset string) x :
  x ∈ U → x ∉ C → size (U ∖ ({[x]} ∪ C)) < size (U ∖ C).
Proof.
  intros HU HC. apply subset_size. split; [set_solver|].
  intros Hsub. assert (x ∈ U ∖ ({[x]} ∪ C)) as Hx by (apply Hsub; set_solver).
  set_solver.
Qed.

(** The traversal returns whenever its budget exceeds the number of nodes it
    has not entered yet, and it never forgets a node it has entered. *)
Lemma dfs_visit_total graph (U : gset string) :
  (∀ x y, y ∈ neighbors graph x → y ∈ U) →
  ∀ fuel node path colors issues,
    node ∈ U → size (U ∖ colored colors) < fuel →
    ∃ b colors' issues',
      dfs_visit fuel graph node path (colors, issues) = Some (b, (colors', issues'))
      ∧ colored colors ⊆ colored colors' ∧ node ∈ colored colors'.
Proof.
  intros Hclosed. induction fuel as [|fuel IH]; intros node path colors issues HU Hsize;
    [lia|].
  rewrite dfs_visit_unfold.
  destruct (default WHITE (colors !! node)) eqn:Hc.
  - assert (node ∉ colored colors) as Hw by (rewrite colored_default; naive_solver).
    assert (∀ l colors0 issues0,
              (∀ y, y ∈ l → y ∈ U) → size (U ∖ colored colors0) < fuel →
              ∃ b colors' issues',
                visit_until (λ neighbor st', dfs_visit fuel graph neighbor (path ++ [node]) st')
                            l (colors0, issues0) = Some (b, (colors', issues'))
                ∧ colored colors0 ⊆ colored colors') as Hloop.
    { induction l as [|y l IHl]; intros colors0 issues0 Hl Hsz; simpl.
      - by exists false, colors0, issues0.
      - destruct (IH y (path ++ [node]) colors0 issues0) as (b & c1 & i1 & -> & Hsub & _);
          [apply Hl; left|done|].
        destruct b; [by exists true, c1, i1|].
        destruct (IHl c1 i1) as (b' & c2 & i2 & -> & Hsub2).
        + intros z Hz. apply Hl. by right.
        + eapply Nat.le_lt_trans; [|exact Hsz]. apply subseteq_size. set_solver.
        + exists b', c2, i2. split; [done|]. set_solver. }
    destruct (Hloop (neighbors graph node) (<[node:=GRAY]> colors) issues)
      as (b & c1 & i1 & -> & Hsub).
    { intros y Hy. by apply (Hclosed node). }
    { rewrite colored_insert by done.
      pose proof (colored_shrinks U (colored colors) node HU Hw). lia. }
    rewrite colored_insert in Hsub by done.
    destruct b.
    + exists true, c1, i1. split; [done|]. set_solver.
    + exists false, (<[node:=BLACK]> c1), i1. split; [done|].
      rewrite colored_insert by done. set_solver.
  - exists true, colors. eexists. split; [done|]. split; [done|].
    apply colored_default. by rewrite Hc.
  - exists false, colors, issues. split; [done|]. split; [done|].
    apply colored_default. by rewrite Hc.
Qed.

Lemma visit_roots_total graph roots st :
  (∀ x, x ∈ roots → x ∈ graph_nodes graph) →
  ∃ st', visit_roots (S (size (graph_nodes graph))) graph roots st = Some st'.
Proof.
  revert st. induction roots as [|node roots IH]; intros [colors issues] Hroots; simpl.
  - by eexists.
  - assert (∃ st1, dfs_visit (S (size (graph_nodes graph))) graph node [] (colors, issues)
                   = Some st1) as [[b st1] Hst1].
    { destruct (dfs_visit_total graph (graph_nodes graph) (neighbors_graph_nodes graph)
                  (S (size (graph_nodes graph))) node [] colors issues)
        as (b & c1 & i1 & H1 & _).
      - apply Hroots. left.
      - apply Nat.lt_succ_r, subseteq_size. set_solver.
      - by eexists. }
    assert (∀ x, x ∈ roots → x ∈ graph_nodes graph) as Hroots'
      by (intros x Hx; apply Hroots; by right).
    destruct (colors !! node) as [[]|]; rewrite ?Hst1; by apply IH.
Qed.

(** The analysis always returns. *)
Lemma validate_circular_dependencies_total conns :
  is_Some (_validate_circular_dependencies conns).
Proof.
  unfold _validate_circular_dependencies.
  destruct (visit_roots_total (build_graph conns) (keys (build_graph conns)) (∅, []))
    as [st' ->]; [apply keys_graph_nodes|]. by eexists.
Qed.
End cycle_facts.

Section acyclic_facts.
Import PyDict PyDictFacts.
Implicit Types (graph : list (string * list string)) (colors : gmap string dfs_color).
Local Arguments dfs_visit : simpl never.

(** On a graph without cycles the traversal meets no gray node: the gray
    nodes are on the current path, and every node of the path leads to the
    node being visited. *)
Lemma dfs_visit_acyclic graph (R : relation string) :
  (∀ x y, y ∈ neighbors graph x → R x y) → (∀ x, ¬ tc R x x) →
  ∀ fuel node path colors issues r,
    dfs_visit fuel graph node path (colors, issues) = Some r →
    (∀ x, colors !! x = Some GRAY → x ∈ path) →
    (∀ x, x ∈ path → tc R x node) →
    ∃ colors', r = (false, (colors', issues))
               ∧ ∀ x, colors' !! x = Some GRAY → x ∈ path.
Proof.
  intros Hedge Hacyc. induction fuel as [|fuel IH];
    intros node path colors issues r Hr Hgray Hpath; [done|].
  rewrite dfs_visit_unfold in Hr.
  destruct (default WHITE (colors !! node)) eqn:Hc.
  - assert (∀ l colors0 r0,
              (∀ y, y ∈ l → R node y) →
              visit_until (λ neighbor st', dfs_visit fuel graph neighbor (path ++ [node]) st')
                          l (colors0, issues) = Some r0 →
              (∀ x, colors0 !! x = Some GRAY → x ∈ path ++ [node]) →
              ∃ colors', r0 = (false, (colors', issues))
                         ∧ ∀ x, colors' !! x = Some GRAY → x ∈ path ++ [node]) as Hloop.
    { induction l as [|y l IHl]; intros colors0 r0 Hl Hr0 Hg0; simpl in Hr0.
      - injection Hr0 as <-. by exists colors0.
      - destruct (dfs_visit fuel graph y (path ++ [node]) (colors0, issues))
          as [r1|] eqn:Hy; [|done].
        apply IH in Hy as (c1 & -> & Hg1); [|done|].
        + apply (IHl c1); [|done..]. intros z Hz. apply Hl. by right.
        + intros x [Hx|Hx%list_elem_of_singleton]%elem_of_app.
          * eapply tc_r; [by apply Hpath|]. apply Hl. left.
          * subst x. apply tc_once, Hl. left. }
    destruct (visit_until _ _ _) as [r0|] eqn:Hv; [|done].
    apply Hloop in Hv as (c1 & -> & Hg1).
    + injection Hr as <-. eexists. split; [done|]. intros x Hx.
      destruct (decide (x = node)) as [->|Hne]; [by rewrite lookup_insert_eq in Hx|].
      rewrite lookup_insert_ne in Hx by done.
      apply Hg1, elem_of_app in Hx as [?|Hx%list_elem_of_singleton]; done.
    + intros y Hy. by apply Hedge.
    + intros x Hx. destruct (decide (x = node)) as [->|Hne].
      * apply elem_of_app. right. left.
      * rewrite lookup_insert_ne in Hx by done. apply elem_of_app. left. by apply Hgray.
  - exfalso. apply (Hacyc node), Hpath, Hgray.
    destruct (colors !! node) as [v|]; simpl in Hc; by subst.
  - injection Hr as <-. by exists colors.
Qed.

Lemma visit_roots_acyclic graph (R : relation string) :
  (∀ x y, y ∈ neighbors graph x → R x y) → (∀ x, ¬ tc R x x) →
  ∀ fuel roots colors issues st',
    visit_roots fuel graph roots (colors, issues) = Some st' →
    (∀ x, colors !! x ≠ Some GRAY) → st'.2 = issues.
Proof.
  intros Hedge Hacyc fuel roots.
  induction roots as [|node roots IH]; intros colors issues st' Hst' Hgray; simpl in Hst'.
  - by injection Hst' as <-.
  - assert (∀ st1, dfs_visit fuel graph node [] (colors, issues) = Some st1 →
              ∃ c1, st1 = (false, (c1, issues)) ∧ ∀ x, c1 !! x ≠ Some GRAY) as Hcall.
    { intros st1 H1.
      apply (dfs_visit_acyclic graph R Hedge Hacyc) in H1 as (c1 & -> & Hg1).
      - exists c1. split; [done|]. intros x Hx. by apply Hg1, elem_of_nil in Hx.
      - intros x Hx. by apply Hgray in Hx.
      - intros x Hx. by apply elem_of_nil in Hx. }
    destruct (colors !! node) as [[]|];
      try (by eapply IH);
      (destruct (dfs_visit fuel graph node [] (colors, issues)) as [st1|]; [|done];
       destruct (Hcall st1 eq_refl) as (c1 & -> & Hg1); by eapply IH).
Qed.

Lemma ranked_acyclic (conns : list (string * Connection)) (rank : string → nat) :
  Forall (λ kc, rank (from_node kc.2) < rank (to_node kc.2)) conns → acyclic conns.
Proof.
  intros Hrank.
  assert (∀ x y, tc (conn_edge conns) x y → rank x < rank y) as Hlt.
  { assert (∀ x y, conn_edge conns x y → rank x < rank y) as Hstep.
    { intros x y (kc & Hin & <- & <-). by apply (proj1 (Forall_forall _ _) Hrank). }
    induction 1 as [x y Hxy|x y z Hxy _ IH]; [by apply Hstep|].
    apply Hstep in Hxy. lia. }
  intros x Hx. apply Hlt in Hx. lia.
Qed.

Lemma validate_circular_dependencies_edges conns conns' :
  edge_of <$> conns = edge_of <$> conns' →
  _validate_circular_dependencies conns = _validate_circular_dependencies conns'.
Proof.
  intros He. unfold _validate_circular_dependencies.
  by rewrite (build_graph_edges conns conns' He).
Qed.

Lemma edge_of_connection_of_edge (es : list (string * string)) :
  edge_of <$> (connection_of_edge <$> es) = es.
Proof. induction es as [|[x y] es IH]; [done|]. by rewrite !fmap_cons, IH. Qed.

Lemma validate_circular_dependencies_acyclic conns :
  acyclic conns → _validate_circular_dependencies conns = Some [].
Proof.
  intros Hacyc. destruct (validate_circular_dependencies_total conns) as [issues Hi].
  rewrite Hi. unfold _validate_circular_dependencies in Hi.
  destruct (visit_roots _ _ _ _) as [st'|] eqn:Hv; [|done].
  injection Hi as <-.
  apply (visit_roots_acyclic _ (conn_edge conns)) in Hv as ->; [done| |done|].
  - intros x y. apply neighbors_build_graph.
  - intros x. by rewrite lookup_empty.
Qed.
End acyclic_facts.

Section triangle_facts.
Import PyDict PyDictFacts.
Implicit Types (graph : list (string * list string)) (colors : gmap string dfs_color).
Local Arguments dfs_visit : simpl never.

(** A traversal entering a three-node cycle at [x0] with the three nodes
    white comes back to [x0] and reports the cycle. *)
Lemma dfs_visit_triangle graph x0 x1 x2 fuel colors issues :
  x0 ≠ x1 → x1 ≠ x2 → x0 ≠ x2 →
  neighbors graph x0 = [x1] → neighbors graph x1 = [x2] → neighbors graph x2 = [x0] →
  default WHITE (colors !! x0) = WHITE → default WHITE (colors !! x1) = WHITE →
  default WHITE (colors !! x2) = WHITE →
  dfs_visit (S (S (S (S fuel)))) graph x0 [] (colors, issues)
  = Some (true,
          (<[x2:=GRAY]> (<[x1:=GRAY]> (<[x0:=GRAY]> colors)),
           issues ++ [cycle_issue x0 [x0; x1; x2; x0] (length issues)])).
Proof.
  intros H01 H12 H02 Hn0 Hn1 Hn2 Hc0 Hc1 Hc2.
  rewrite dfs_visit_unfold, Hc0, Hn0. simpl.
  rewrite dfs_visit_unfold, lookup_insert_ne, Hc1, Hn1 by done. simpl.
  rewrite dfs_visit_unfold, !lookup_insert_ne, Hc2, Hn2 by done. simpl.
  rewrite dfs_visit_unfold, !lookup_insert_ne, lookup_insert_eq by done. simpl.
  by rewrite decide_True.
Qed.

Lemma set_set {V} k (v v' : V) d : set k v (set k v' d) = set k v d.
Proof.
  induction d as [|[k0 v0] d IH]; simpl.
  - by rewrite decide_True.
  - destruct (decide (k0 = k)) as [->|Hne]; simpl.
    + by rewrite decide_True.
    + rewrite decide_False by done. by rewrite IH.
Qed.

Lemma graph_add_fresh graph (c : Connection) :
  get (from_node c) graph = None →
  graph_add graph c = graph ++ [(from_node c, [to_node c])].
Proof.
  intros Hget. unfold graph_add, contains. rewrite Hget.
  rewrite get_set_eq. simpl. by rewrite set_set, set_fresh.
Qed.

(** When no two edges leave the same node, the adjacency dict lists the
    edges in their order, one neighbour each. *)
Lemma foldl_graph_add_functional (es : list (string * string)) graph :
  NoDup es.*1 → (∀ e, e ∈ es → e.1 ∉ keys graph) →
  foldl graph_add graph (values (connection_of_edge <$> es))
  = graph ++ ((λ e, (e.1, [e.2])) <$> es).
Proof.
  revert graph. induction es as [|[x y] es IH]; intros graph Hnd Hfresh.
  - by rewrite app_nil_r.
  - rewrite fmap_cons in Hnd. apply NoDup_cons in Hnd as [Hx Hnd].
    assert (get x graph = None) as Hget
      by (apply get_None_keys, (Hfresh (x, y)); left).
    unfold values in *. rewrite !fmap_cons. simpl foldl.
    rewrite graph_add_fresh by done. simpl. rewrite IH; [|done|].
    + by rewrite <- app_assoc.
    + intros e He. unfold keys. rewrite fmap_app, elem_of_app. simpl.
      intros [Hin|Hin%list_elem_of_singleton].
      * apply (Hfresh e); [by right|done].
      * apply Hx. rewrite <- Hin. apply list_elem_of_fmap. by exists e.
Qed.

Lemma build_graph_functional (es : list (string * string)) :
  NoDup es.*1 →
  build_graph (connection_of_edge <$> es) = (λ e, (e.1, [e.2])) <$> es.
Proof.
  intros Hnd. unfold build_graph. rewrite foldl_graph_add_functional; [done..|].
  intros e _. apply not_elem_of_nil.
Qed.

Lemma neighbors_functional (es : list (string * string)) x y :
  NoDup es.*1 → (x, y) ∈ es →
  neighbors ((λ e, (e.1, [e.2])) <$> es) x = [y].
Proof.
  intros Hnd Hin. unfold neighbors. rewrite (elem_get x [y]); [done| |].
  - unfold keys. by rewrite <- list_fmap_compose.
  - apply list_elem_of_fmap. by exists (x, y).
Qed.

Lemma size_three (s : gset string) a b c :
  a ≠ b → b ≠ c → a ≠ c → a ∈ s → b ∈ s → c ∈ s → 3 ≤ size s.
Proof.
  intros Hab Hbc Hac Ha Hb Hc.
  assert (size ({[a]} ∪ ({[b]} ∪ {[c]}) : gset string) = 3) as <-.
  { rewrite !size_union, !size_singleton by set_solver. done. }
  apply subseteq_size. set_solver.
Qed.

(** The roots after the first find every node gray and start nothing. *)
Lemma visit_roots_triangle graph x0 x1 x2 fuel rest :
  x0 ≠ x1 → x1 ≠ x2 → x0 ≠ x2 →
  neighbors graph x0 = [x1] → neighbors graph x1 = [x2] → neighbors graph x2 = [x0] →
  (∀ r, r ∈ rest → r ∈ [x0; x1; x2]) →
  visit_roots (S (S (S (S fuel)))) graph (x0 :: rest) (∅, [])
  = Some (<[x2:=GRAY]> (<[x1:=GRAY]> (<[x0:=GRAY]> ∅)),
          [cycle_issue x0 [x0; x1; x2; x0] 0]).
Proof.
  intros H01 H12 H02 Hn0 Hn1 Hn2 Hrest. simpl. rewrite lookup_empty.
  rewrite (dfs_visit_triangle graph x0 x1 x2) by (done || by rewrite lookup_empty).
  simpl. induction rest as [|r rest IH]; simpl; [done|].
  assert ((<[x2:=GRAY]> (<[x1:=GRAY]> (<[x0:=GRAY]> (∅ : gmap string dfs_color)))) !! r
          = Some GRAY) as ->.
  { assert (r ∈ [x0; x1; x2]) as Hr by (apply Hrest; left).
    apply elem_of_cons in Hr as [->|Hr]; [by simplify_map_eq|].
    apply elem_of_cons in Hr as [->|Hr]; [by simplify_map_eq|].
    apply list_elem_of_singleton in Hr as ->. by simplify_map_eq. }
  apply IH. intros r' Hr'. apply Hrest. by right.
Qed.

(** The triangle on any three distinct nodes yields one error, whatever the
    order of the three connections in the dict. *)
Lemma validate_circular_dependencies_triangle a b c conns :
  a ≠ b → b ≠ c → a ≠ c →
  edge_of <$> conns ≡ₚ [(a, b); (b, c); (c, a)] →
  ∃ i l, _validate_circular_dependencies conns = Some [i]
         ∧ level i = "error" ∧ nodes_involved i = Some l ∧ l ≡ₚ [a; b; c].
Proof.
  intros Hab Hbc Hac Hperm.
  rewrite (validate_circular_dependencies_edges conns
             (connection_of_edge <$> (edge_of <$> conns)))
    by (by rewrite edge_of_connection_of_edge).
  revert Hperm. generalize (edge_of <$> conns). intros es Hperm.
  assert (NoDup es.*1) as Hnd.
  { rewrite Hperm. simpl. repeat (apply NoDup_cons; split); [set_solver..|apply NoDup_nil_2]. }
  assert (∀ e, e ∈ es ↔ e ∈ [(a, b); (b, c); (c, a)]) as Hes
    by (intros e; by rewrite Hperm).
  unfold _validate_circular_dependencies. rewrite build_graph_functional by done.
  set (graph := (λ e, (e.1, [e.2])) <$> es).
  assert (neighbors graph a = [b]) as Hna
    by (apply neighbors_functional; [done|]; apply Hes; set_solver).
  assert (neighbors graph b = [c]) as Hnb
    by (apply neighbors_functional; [done|]; apply Hes; set_solver).
  assert (neighbors graph c = [a]) as Hnc
    by (apply neighbors_functional; [done|]; apply Hes; set_solver).
  assert (keys graph = es.*1) as Hkeys
    by (unfold graph, keys; by rewrite <- list_fmap_compose).
  assert (∀ x, x ∈ es.*1 ↔ x ∈ [a; b; c]) as Hroots
    by (intros x; by rewrite Hperm).
  assert (∃ fuel, S (size (graph_nodes graph)) = S (S (S (S fuel)))) as [fuel ->].
  { assert (3 ≤ size (graph_nodes graph)) as Hsize.
    { apply (size_three _ a b c); try done;
        apply keys_graph_nodes; rewrite Hkeys; apply Hroots; set_solver. }
    exists (size (graph_nodes graph) - 3). lia. }
  rewrite Hkeys. destruct (es.*1) as [|k1 rest] eqn:Hes1.
  { exfalso. assert (a ∈ @nil string) as Hin by (apply Hroots; set_solver).
    by apply elem_of_nil in Hin. }
  assert (∀ x0 x1 x2, [x0; x1; x2] ≡ₚ [a; b; c] → ∀ r, r ∈ rest → r ∈ [x0; x1; x2])
    as Hrest.
  { intros x0 x1 x2 Hp r Hr. rewrite Hp. apply Hroots. by right. }
  assert (k1 ∈ [a; b; c]) as Hk1 by (apply Hroots; left).
  apply elem_of_cons in Hk1 as [->|Hk1]; [|apply elem_of_cons in Hk1 as [->|Hk1]];
    [| |apply list_elem_of_singleton in Hk1 as ->].
  - rewrite (visit_roots_triangle graph a b c) by (done || by apply Hrest).
    by eexists _, _.
  - assert ([b; c; a] ≡ₚ [a; b; c]) as Hp
      by (symmetry; apply (Permutation_cons_append [b; c] a)).
    rewrite (visit_roots_triangle graph b c a) by (done || by apply Hrest).
    by eexists _, _.
  - assert ([c; a; b] ≡ₚ [a; b; c]) as Hp
      by apply (Permutation_cons_append [a; b] c).
    rewrite (visit_roots_triangle graph c a b) by (done || by apply Hrest).
    by eexists _, _.
Qed.
End triangle_facts.

(** C5. The full-graph analysis reads a connection as the directed edge
    from its source node to its destination node and nothing else, so the
    category plays no part; on a triangle a -> b -> c -> a of three distinct
    nodes, in whatever order the three connections sit in the dict, it
    reports exactly one error, whose involved nodes are a, b and c; on a
    graph without a directed cycle it reports nothing. *)
Theorem circular_dependency_findings :
  (∀ conns conns',
     edge_of <$> conns = edge_of <$> conns' →
     _validate_circular_dependencies conns = _validate_circular_dependencies conns')
  ∧ (∀ a b c conns,
       a ≠ b → b ≠ c → a ≠ c →
       edge_of <$> conns ≡ₚ [(a, b); (b, c); (c, a)] →
       ∃ i l, _validate_circular_dependencies conns = Some [i]
              ∧ level i = "error" ∧ nodes_involved i = Some l
              ∧ l ≡ₚ [a; b; c])
  ∧ (∀ conns, acyclic conns → _validate_circular_dependencies conns = Some []).
Proof.
  split_and!.
  - apply validate_circular_dependencies_edges.
  - apply validate_circular_dependencies_triangle.
  - apply validate_circular_dependencies_acyclic.
Qed.

Lemma circular_dependency_findings_witness :
  (∃ i l, _validate_circular_dependencies
            [("1", plain_connection "1" "A" "B" SIMPLE);
             ("2", plain_connection "2" "B" "C" SIMPLE);
             ("3", plain_connection "3" "C" "A" SIMPLE)] = Some [i]
          ∧ level i = "error" ∧ nodes_involved i = Some l ∧ l ≡ₚ ["A"; "B"; "C"])
  ∧ acyclic dag_connections
  ∧ _validate_circular_dependencies dag_connections = Some [].
Proof.
  assert (acyclic dag_connections) as Hdag.
  { apply (ranked_acyclic _ dag_rank). repeat constructor. }
  destruct circular_dependency_findings as (_ & Htri & Hnone).
  split_and!; [|exact Hdag|exact (Hnone dag_connections Hdag)].
  by apply (Htri "A" "B" "C").
Defined.

(** ** Unreachable nodes *)

Section reachability_facts.
Import PyDict PyDictFacts.
Implicit Types (graph : list (string * list string)) (U r : gset string).
Local Arguments dfs : simpl never.

Lemma dfs_unfold fuel graph node r :
  dfs (S fuel) graph node r
  = if bool_decide (node ∈ r) then Some r
    else for_each (dfs fuel graph) (neighbors graph node) ({[node]} ∪ r).
Proof. reflexivity. Qed.

(** The loop over a list of nodes, given that the calls it makes return. *)
Lemma for_each_dfs graph U fuel :
  (∀ node r, node ∈ U → size (U ∖ r) < fuel →
             ∃ r', dfs fuel graph node r = Some r' ∧ dfs_post graph node r r') →
  ∀ l r, (∀ y, y ∈ l → y ∈ U) → size (U ∖ r) < fuel →
    ∃ r', for_each (dfs fuel graph) l r = Some r'
          ∧ r ⊆ r' ∧ (∀ y, y ∈ l → y ∈ r')
          ∧ (∀ x, x ∈ r' → x ∈ r ∨ ∃ y, y ∈ l ∧ rtc (λ a b, b ∈ neighbors graph a) y x)
          ∧ (∀ x y, x ∈ r' → x ∉ r → y ∈ neighbors graph x → y ∈ r').
Proof.
  intros Hdfs. induction l as [|z l IH]; intros r Hl Hsize; simpl.
  - exists r. split_and!; [done|done| | |done].
    + intros y Hy. by apply elem_of_nil in Hy.
    + intros x Hx. by left.
  - destruct (Hdfs z r) as (ra & -> & Hsub & Hz & Hfrom & Hclosed);
      [apply Hl; left|done|].
    destruct (IH ra) as (r' & -> & Hsub' & Hl' & Hfrom' & Hclosed').
    { intros y Hy. apply Hl. by right. }
    { eapply Nat.le_lt_trans; [|exact Hsize]. apply subseteq_size. set_solver. }
    exists r'. split_and!; [done|set_solver| | |].
    + intros y [->|Hy]%elem_of_cons; [set_solver|by apply Hl'].
    + intros x Hx. destruct (Hfrom' x Hx) as [Hra|(y & Hy & Hyx)].
      * destruct (Hfrom x Hra) as [?|?]; [by left|]. right. exists z. split; [left|done].
      * right. exists y. split; [by right|done].
    + intros x y Hx Hnr Hy. destruct (decide (x ∈ ra)) as [Hra|Hra].
      * apply Hsub'. by apply (Hclosed x y).
      * by apply (Hclosed' x y).
Qed.

(** [dfs] returns whenever its budget exceeds the number of nodes not yet
    reached, and adds to the set what the node reaches. *)
Lemma dfs_spec graph U :
  (∀ x y, y ∈ neighbors graph x → y ∈ U) →
  ∀ fuel node r, node ∈ U → size (U ∖ r) < fuel →
    ∃ r', dfs fuel graph node r = Some r' ∧ dfs_post graph node r r'.
Proof.
  intros HU. induction fuel as [|fuel IH]; intros node r Hnode Hsize; [lia|].
  rewrite dfs_unfold. case_bool_decide as Hin.
  - exists r. split; [done|]. split_and!; [done|done|by left|done].
  - destruct (for_each_dfs graph U fuel IH (neighbors graph node) ({[node]} ∪ r))
      as (r' & -> & Hsub & Hl & Hfrom & Hclosed).
    { intros y Hy. by apply (HU node). }
    { pose proof (colored_shrinks U r node Hnode Hin). lia. }
    exists r'. split; [done|]. split_and!; [set_solver|set_solver| |].
    + intros x Hx. destruct (Hfrom x Hx) as [[->%elem_of_singleton|?]%elem_of_union
                                              |(y & Hy & Hyx)].
      * by right.
      * by left.
      * right. by eapply rtc_l.
    + intros x y Hx Hnr Hy. destruct (decide (x = node)) as [->|Hne].
      * by apply Hl.
      * apply (Hclosed x y); [done|set_solver|done].
Qed.

Lemma has_incoming_spec (conns : list (string * Connection)) x :
  x ∈ (list_to_set (to_node <$> values conns) : gset string) ↔ has_incoming conns x.
Proof.
  rewrite elem_of_list_to_set. unfold values, has_incoming. split.
  - intros (c & -> & ([k c'] & -> & Hin)%list_elem_of_fmap)%list_elem_of_fmap.
    by exists (k, c').
  - intros ([k c] & Hin & <-). apply list_elem_of_fmap. exists c. split; [done|].
    apply list_elem_of_fmap. by exists (k, c).
Qed.

Lemma set_first_elem choice (s : gset string) x : set_first choice s = Some x → x ∈ s.
Proof.
  unfold set_first. intros H. apply elem_of_elements. by eapply list_elem_of_lookup_2.
Qed.

Lemma elem_of_start_candidates choice nodes conns x :
  x ∈ start_candidates choice (list_to_set (keys nodes))
                       (list_to_set (to_node <$> values conns))
  ↔ is_start choice nodes conns x.
Proof.
  unfold start_candidates, is_start.
  set (all_nodes := list_to_set (keys nodes) : gset string).
  set (incoming := list_to_set (to_node <$> values conns) : gset string).
  assert (∀ y, y ∈ all_nodes ↔ y ∈ keys nodes) as Hall
    by (intros y; apply elem_of_list_to_set).
  assert (∀ y, y ∈ incoming ↔ has_incoming conns y) as Hinc
    by (intros y; apply has_incoming_spec).
  case_bool_decide as Hempty.
  - assert (∀ y, y ∈ keys nodes → has_incoming conns y) as Hevery.
    { intros y Hy. apply Hinc. apply Hall in Hy.
      destruct (decide (y ∈ incoming)); [done|]. set_solver. }
    case_bool_decide as Hnone.
    + rewrite Hempty. split; [set_solver|].
      intros [[Hx _]|[_ Hf]].
      * apply Hall in Hx. set_solver.
      * apply set_first_elem in Hf. set_solver.
    + destruct (set_first choice all_nodes) as [n|] eqn:Hf.
      * rewrite elem_of_singleton. split.
        -- intros ->. by right.
        -- intros [[Hx Hno]|[_ [= ->]]]; [|done]. by apply Hevery in Hx.
      * rewrite Hempty. split; [set_solver|].
        intros [[Hx Hno]|[_ ?]]; [|done]. by apply Hevery in Hx.
  - rewrite elem_of_difference, Hall, Hinc. split; [by left|].
    intros [?|[Hevery _]]; [done|]. exfalso. apply Hempty.
    apply set_eq. intros y. rewrite elem_of_difference, Hall, Hinc. set_solver.
Qed.

Lemma start_candidates_subseteq choice (all_nodes incoming : gset string) :
  start_candidates choice all_nodes incoming ⊆ all_nodes.
Proof.
  unfold start_candidates. repeat case_bool_decide; try set_solver.
  destruct (set_first choice all_nodes) eqn:Hf; [|set_solver].
  apply set_first_elem in Hf. set_solver.
Qed.

Lemma unreachable_issue_targets nodes (l : list string) issues :
  mapM (λ node_id, node ← get node_id nodes; Some (unreachable_issue node_id node)) l
  = Some issues →
  issue_targets issues = l ∧ Forall (λ i, level i = "warning") issues.
Proof.
  intros H. apply mapM_Some in H.
  induction H as [|x i l issues Hx _ [IH1 IH2]]; [done|].
  destruct (get x nodes) as [node|]; [|done]. injection Hx as <-.
  split; [|by constructor]. unfold issue_targets in *. simpl. f_equal. exact IH1.
Qed.

(** The set the traversal computes, and the findings made of it. *)
Lemma validate_unreachable_nodes_spec choice nodes conns :
  ∃ issues,
    _validate_unreachable_nodes choice nodes conns = Some issues
    ∧ NoDup (issue_targets issues)
    ∧ (∀ x, x ∈ issue_targets issues
            ↔ x ∈ keys nodes ∧ ¬ reachable_from_start choice nodes conns x)
    ∧ Forall (λ i, level i = "warning") issues.
Proof.
  unfold _validate_unreachable_nodes.
  destruct (bool_decide (nodes = []) || bool_decide (conns = [])) eqn:Hearly.
  - exists []. split_and!; [done|constructor| |constructor].
    intros x. split; [by intros ?%elem_of_nil|]. intros [Hx Hnot]. exfalso.
    apply orb_true_iff in Hearly as [He%bool_decide_eq_true|He%bool_decide_eq_true];
      subst.
    + by apply elem_of_nil in Hx.
    + apply Hnot. exists x. split; [|done]. left. split; [done|].
      intros (kc & Hkc & _). by apply elem_of_nil in Hkc.
  - clear Hearly.
    set (graph := build_graph conns).
    set (all_nodes := list_to_set (keys nodes) : gset string).
    set (incoming := list_to_set (to_node <$> values conns) : gset string).
    set (U := graph_nodes graph ∪ all_nodes).
    assert (∀ x y, y ∈ neighbors graph x → y ∈ U) as HU.
    { intros x y Hy. apply elem_of_union_l. by eapply neighbors_graph_nodes. }
    destruct (for_each_dfs graph U (S (size U)) (dfs_spec graph U HU (S (size U)))
                (elements (start_candidates choice all_nodes incoming)) ∅)
      as (r & -> & _ & Hstart & Hfrom & Hclosed).
    { intros y Hy%elem_of_elements%start_candidates_subseteq. set_solver. }
    { apply Nat.lt_succ_r, subseteq_size. set_solver. }
    simpl.
    assert (∀ x, x ∈ r ↔ reachable_from_start choice nodes conns x) as Hr.
    { intros x. split.
      - intros Hx. destruct (Hfrom x Hx) as [?|(s & Hs & Hsx)]; [set_solver|].
        exists s. split.
        + by apply elem_of_start_candidates, elem_of_elements.
        + eapply rtc_subrel; [|exact Hsx]. intros a b. apply neighbors_build_graph.
      - intros (s & Hs & Hsx).
        assert (s ∈ r) as Hsr
          by (by apply Hstart, elem_of_elements, elem_of_start_candidates).
        clear Hs. induction Hsx as [|a b c Hab _ IH]; [done|].
        apply IH. apply (Hclosed a b); [done|set_solver|].
        by apply neighbors_build_graph. }
    destruct (mapM _ (elements (all_nodes ∖ r))) as [issues|] eqn:Hm.
    + exists issues. apply unreachable_issue_targets in Hm as [-> Hlevel].
      split_and!; [done|apply NoDup_elements| |done].
      intros x. rewrite elem_of_elements, elem_of_difference, Hr.
      unfold all_nodes. by rewrite elem_of_list_to_set.
    + exfalso. apply eq_None_not_Some in Hm. apply Hm, mapM_is_Some.
      apply Forall_forall. intros x Hx%elem_of_elements. simpl.
      destruct (get x nodes) eqn:Hg; [done|]. apply get_None_keys in Hg. set_solver.
Qed.
End reachability_facts.

Section added_edge_facts.
Import PyDict PyDictFacts.

Lemma has_incoming_dec (conns : list (string * Connection)) x :
  has_incoming conns x ∨ ¬ has_incoming conns x.
Proof.
  rewrite <- has_incoming_spec.
  destruct (decide (x ∈ (list_to_set (to_node <$> values conns) : gset string))); auto.
Qed.

Lemma has_incoming_app conns cid c x :
  has_incoming (conns ++ [(cid, c)]) x ↔ has_incoming conns x ∨ to_node c = x.
Proof.
  unfold has_incoming. split.
  - intros (kc & [Hin|Hin%list_elem_of_singleton]%elem_of_app & Hx).
    + left. by exists kc.
    + right. by subst kc.
  - intros [(kc & Hin & Hx)|Hx].
    + exists kc. split; [|done]. apply elem_of_app. by left.
    + exists (cid, c). split; [|done]. apply elem_of_app. right. left.
Qed.

Lemma conn_edge_app_l conns cid c x y :
  conn_edge conns x y → conn_edge (conns ++ [(cid, c)]) x y.
Proof.
  intros (kc & Hin & ? & ?). exists kc. split; [|done]. apply elem_of_app. by left.
Qed.

Lemma conn_edge_app_r conns cid c :
  conn_edge (conns ++ [(cid, c)]) (from_node c) (to_node c).
Proof. exists (cid, c). split; [|done]. apply elem_of_app. right. left. Qed.

(** A connection into a node that already has an incoming connection leaves
    the start candidates as they were. *)
Lemma is_start_app choice nodes conns cid c s :
  has_incoming conns (to_node c) →
  is_start choice nodes (conns ++ [(cid, c)]) s ↔ is_start choice nodes conns s.
Proof.
  intros Hc. unfold is_start.
  assert (∀ y, has_incoming (conns ++ [(cid, c)]) y ↔ has_incoming conns y) as Hsame.
  { intros y. rewrite has_incoming_app. split; [|by left]. by intros [?|<-]. }
  rewrite Hsame. by setoid_rewrite Hsame.
Qed.
End added_edge_facts.




(** C8. On three prerequisite connections A -> B, B -> A and C -> A the
    restricted cycle check does not return a list of cycles: the search from
    A records the cycle and leaves A and B on the recursion stack, and the
    search from C then asks the path [[C]] for the index of A. The
    full-graph analysis, which tests membership first, returns on the same
    connections. *)
Theorem detect_circular_dependencies_raises :
  detect_circular_dependencies store_loop_and_entry = ValueError
  ∧ is_Some (_validate_circular_dependencies (connections store_loop_and_entry)).
Proof.
  split; [by vm_compute|]. apply validate_circular_dependencies_total.
Qed.

(** ** The consistency invariant *)

Section balance_facts.
Import PyDict PyDictFacts.
Implicit Types (self : NodeManager) (p : Port) (c : Connection)
  (ns : list (string * BaseNode)) (conns : list (string * Connection))
  (l : list string).

(** The contribution of one entry or one connection to a count. *)
Local Abbreviation one P := (if decide P then 1 else 0).

Lemma count_peer_app q l x :
  count_peer q (l ++ [x]) = count_peer q l + one (x = q).
Proof.
  unfold count_peer. rewrite filter_app, length_app. f_equal.
  destruct (decide (x = q)).
  - by rewrite filter_cons_True.
  - by rewrite filter_cons_False.
Qed.

Lemma count_peer_cons q l x :
  count_peer q (x :: l) = one (x = q) + count_peer q l.
Proof.
  unfold count_peer. destruct (decide (x = q)).
  - by rewrite filter_cons_True.
  - by rewrite filter_cons_False.
Qed.

Lemma count_peer_elem q l : q ∈ l ↔ 0 < count_peer q l.
Proof.
  induction l as [|x l IH].
  - split; [by intros ?%elem_of_nil|]. unfold count_peer. simpl. lia.
  - rewrite count_peer_cons, elem_of_cons, IH. destruct (decide (x = q)) as [->|Hne].
    + split; [lia|]. by left.
    + split; [intros [?|?]; [congruence|lia]|]. intros ?. right. lia.
Qed.

Lemma count_peer_remove q x l :
  x ∈ l → count_peer q (list_remove x l) + one (x = q) = count_peer q l.
Proof.
  induction l as [|y l IH]; [by intros ?%elem_of_nil|].
  simpl. destruct (decide (y = x)) as [->|Hne].
  - intros _. rewrite count_peer_cons. lia.
  - intros [?|Hin]%elem_of_cons; [congruence|].
    rewrite !count_peer_cons. specialize (IH Hin). lia.
Qed.

Lemma count_peer_remove_peer q x p :
  x ∈ connected_to p →
  count_peer q (connected_to (remove_peer x p)) + one (x = q)
  = count_peer q (connected_to p).
Proof.
  intros Hin. unfold remove_peer. rewrite bool_decide_eq_true_2 by done. simpl.
  by apply count_peer_remove.
Qed.

Lemma length_filter_snoc {A} (P : A → Prop) `{!∀ x, Decision (P x)} (xs : list A) x :
  length (filter P (xs ++ [x])) = length (filter P xs) + one (P x).
Proof.
  rewrite filter_app, length_app. f_equal. destruct (decide (P x)).
  - by rewrite filter_cons_True.
  - by rewrite filter_cons_False.
Qed.

Lemma length_filter_del (P : string * Connection → Prop) `{!∀ x, Decision (P x)}
    k c conns :
  NoDup (keys conns) → get k conns = Some c →
  length (filter P conns) = length (filter P (del k conns)) + one (P (k, c)).
Proof.
  unfold keys. induction conns as [|[k0 c0] conns IH]; simpl; [done|].
  intros [Hk0 Hnd]%NoDup_cons. destruct (decide (k0 = k)) as [->|Hne].
  - intros [= ->]. rewrite del_absent by (by apply get_None_keys).
    destruct (decide (P (k, c))).
    + rewrite filter_cons_True by done. simpl. lia.
    + rewrite filter_cons_False by done. lia.
  - intros Hget. specialize (IH Hnd Hget). destruct (decide (P (k0, c0))).
    + rewrite !filter_cons_True by done. simpl. lia.
    + by rewrite !filter_cons_False.
Qed.

Lemma refs_set_fresh k c conns nid pid q :
  get k conns = None →
  refs (set k c conns) nid pid q
  = refs conns nid pid q + one (from_match c nid pid q) + one (to_match c nid pid q).
Proof.
  intros Hk. unfold refs. rewrite set_fresh by done.
  rewrite (length_filter_snoc (λ kc, from_match kc.2 nid pid q)),
          (length_filter_snoc (λ kc, to_match kc.2 nid pid q)). simpl. lia.
Qed.

Lemma refs_del k c conns nid pid q :
  NoDup (keys conns) → get k conns = Some c →
  refs conns nid pid q
  = refs (del k conns) nid pid q
    + one (from_match c nid pid q) + one (to_match c nid pid q).
Proof.
  intros Hnd Hk. unfold refs.
  rewrite (length_filter_del (λ kc, from_match kc.2 nid pid q) k c conns Hnd Hk),
          (length_filter_del (λ kc, to_match kc.2 nid pid q) k c conns Hnd Hk).
  simpl. lia.
Qed.

Lemma length_filter_cons {A} (P : A → Prop) `{!∀ x, Decision (P x)} (xs : list A) x :
  length (filter P (x :: xs)) = one (P x) + length (filter P xs).
Proof.
  destruct (decide (P x)).
  - by rewrite filter_cons_True.
  - by rewrite filter_cons_False.
Qed.

Lemma refs_elem (kc : string * Connection) conns nid pid q :
  kc ∈ conns →
  one (from_match kc.2 nid pid q) + one (to_match kc.2 nid pid q) ≤ refs conns nid pid q.
Proof.
  unfold refs. induction conns as [|kc0 conns IH]; [by intros ?%elem_of_nil|].
  rewrite (length_filter_cons (λ kc, from_match kc.2 nid pid q)),
          (length_filter_cons (λ kc, to_match kc.2 nid pid q)).
  intros [->|Hin]%elem_of_cons; [simpl; lia|].
  specialize (IH Hin). simpl. lia.
Qed.

Lemma refs_pos conns nid pid q :
  0 < refs conns nid pid q → ∃ kc, kc ∈ conns ∧ accounts_for kc.2 nid pid q.
Proof.
  unfold refs, accounts_for. intros Hpos.
  destruct (filter (λ kc, from_match kc.2 nid pid q) conns) as [|kc ?] eqn:Hf.
  - destruct (filter (λ kc, to_match kc.2 nid pid q) conns) as [|kc ?] eqn:Ht;
      [simpl in Hpos; lia|].
    assert (kc ∈ filter (λ kc, to_match kc.2 nid pid q) conns) as Hin
      by (rewrite Ht; left).
    apply list_elem_of_filter in Hin as [? ?]. exists kc. split; [done|by right].
  - assert (kc ∈ filter (λ kc, from_match kc.2 nid pid q) conns) as Hin
      by (rewrite Hf; left).
    apply list_elem_of_filter in Hin as [? ?]. exists kc. split; [done|by left].
Qed.

(** Reading the port at an address after a mutation. *)
Lemma port_at_mutate a b f ns nid pid :
  id_preserving f →
  port_at nid pid (mutate_port a b f ns)
  = if decide ((a, b) = (nid, pid)) then f <$> port_at nid pid ns
    else port_at nid pid ns.
Proof.
  intros Hf. destruct (decide ((a, b) = (nid, pid))) as [[= -> ->]|Hne].
  - by apply port_at_mutate_eq.
  - by apply port_at_mutate_ne.
Qed.

Lemma keys_mutate_port a b f ns : keys (mutate_port a b f ns) = keys ns.
Proof.
  unfold mutate_port. destruct (get a ns) as [n|] eqn:Hn; [|done].
  by eapply keys_set_in.
Qed.

Lemma get_mutate_port a b f ns nid n' :
  get nid (mutate_port a b f ns) = Some n' →
  ∃ n, get nid ns = Some n
       ∧ (ports n' = ports n ∨ (nid = a ∧ ports n' = update_port b f (ports n))).
Proof.
  unfold mutate_port. destruct (get a ns) as [n|] eqn:Hn.
  - destruct (decide (a = nid)) as [->|Hne].
    + rewrite get_set_eq. intros [= <-]. exists n. split; [done|]. by right.
    + rewrite get_set_ne by done. intros Hn'. exists n'. split; [done|by left].
  - intros Hn'. exists n'. split; [done|by left].
Qed.

(** [update_port] by positions: ids stay, and only the first port with the
    id changes. *)
Lemma update_port_lookup_inv pid f (ps : list Port) j q' :
  id_preserving f →
  update_port pid f ps !! j = Some q' →
  ∃ q, ps !! j = Some q ∧ p_id q' = p_id q
       ∧ (q' = q
          ∨ (p_id q = pid ∧ ∀ i p, i < j → ps !! i = Some p → p_id p ≠ pid)).
Proof.
  intros Hf. revert j. induction ps as [|p0 ps IH]; intros j; simpl; [done|].
  destruct (decide (p_id p0 = pid)) as [Hid|Hid].
  - destruct j as [|j]; simpl.
    + intros [= <-]. exists p0. split_and!; [done|apply Hf|]. right.
      split; [done|]. intros i p Hi. lia.
    + intros Hq. exists q'. split_and!; [done|done|by left].
  - destruct j as [|j]; simpl.
    + intros [= <-]. exists p0. split_and!; [done|done|by left].
    + intros (q & Hq & Hidq & Hcase)%IH. exists q. split_and!; [done|done|].
      destruct Hcase as [?|[Hqid Hfirst]]; [by left|]. right. split; [done|].
      intros [|i] p Hi; simpl; [by intros [= <-]|]. apply Hfirst. lia.
Qed.

Lemma shadowed_empty_mutate a b f ns :
  id_preserving f → shadowed_empty ns → shadowed_empty (mutate_port a b f ns).
Proof.
  intros Hf Hsh nid n' i j p' q' Hn' Hij Hp' Hq' Hid.
  destruct (get_mutate_port _ _ _ _ _ _ Hn') as (n & Hn & [Hports|[-> Hports]]).
  - rewrite Hports in Hp', Hq'. by eapply (Hsh nid n i j p' q').
  - rewrite Hports in Hp', Hq'.
    apply (update_port_lookup_inv _ _ _ _ _ Hf) in Hp' as (p & Hp & Hidp & _).
    apply (update_port_lookup_inv _ _ _ _ _ Hf) in Hq' as (q & Hq & Hidq & Hcase).
    destruct Hcase as [->|[Hqid Hfirst]].
    + eapply (Hsh a n i j p q); [done..|congruence].
    + exfalso. apply (Hfirst i p Hij Hp). congruence.
Qed.

Lemma find_port_first (ps : list Port) j q :
  ps !! j = Some q → (∀ i p, i < j → ps !! i = Some p → p_id p ≠ p_id q) →
  find_port (p_id q) ps = Some q.
Proof.
  unfold find_port. revert j. induction ps as [|p0 ps IH]; intros j; simpl; [done|].
  destruct j as [|j]; simpl.
  - intros [= ->] _. by rewrite bool_decide_eq_true_2.
  - intros Hq Hfirst. rewrite bool_decide_eq_false_2.
    + apply (IH j Hq). intros i p Hi Hp. apply (Hfirst (S i) p); [lia|done].
    + apply (Hfirst 0 p0); [lia|done].
Qed.
End balance_facts.

Section balance_steps.
Import PyDict PyDictFacts.
Implicit Types (self : NodeManager) (p : Port) (c : Connection)
  (ns : list (string * BaseNode)) (conns : list (string * Connection)).

Local Abbreviation one P := (if decide P then 1 else 0).

Lemma port_at_Some_get nid pid ns p :
  port_at nid pid ns = Some p → ∃ n, get nid ns = Some n ∧ find_port pid (ports n) = Some p.
Proof. unfold port_at. destruct (get nid ns) as [n|]; [|done]. intros H. by exists n. Qed.

Lemma port_at_set_ne k n ns nid pid :
  k ≠ nid → port_at nid pid (set k n ns) = port_at nid pid ns.
Proof. intros Hne. unfold port_at. by rewrite get_set_ne. Qed.

Lemma port_at_mutate_is_Some a b f ns nid pid :
  id_preserving f →
  is_Some (port_at nid pid (mutate_port a b f ns)) ↔ is_Some (port_at nid pid ns).
Proof.
  intros Hf. rewrite port_at_mutate by done.
  destruct (decide _); [|done]. by rewrite fmap_is_Some.
Qed.

Lemma add_node_unfold node self :
  ∃ node',
    (add_node node self).1 = node' ∧ ports node' = ports node
    ∧ nodes (add_node node self).2 = set (n_id node') node' (nodes self)
    ∧ connections (add_node node self).2 = connections self.
Proof.
  unfold add_node. destruct (decide (n_id node = "")); eexists; split_and!; done.
Qed.

Lemma refs_zero conns nid pid q :
  (∀ kc, kc ∈ conns → ¬ accounts_for kc.2 nid pid q) → refs conns nid pid q = 0.
Proof.
  intros Hnone. destruct (refs conns nid pid q) eqn:Hr; [done|].
  destruct (refs_pos conns nid pid q) as (kc & Hin & Hacc); [lia|].
  by destruct (Hnone kc Hin).
Qed.

Lemma balanced_init : balanced init.
Proof.
  split_and!.
  - split; constructor.
  - constructor.
  - intros k c Hin. by apply elem_of_nil in Hin.
  - intros nid pid p q Hp. done.
  - intros nid n i j p q Hn. done.
Qed.

Lemma balanced_add_node node self :
  balanced self →
  get (n_id (add_node node self).1) (nodes self) = None →
  Forall (λ p, connected_to p = []) (ports node) →
  balanced (add_node node self).2.
Proof.
  intros (Hkeyed & Hnd & Hres & Hexact & Hsh) Hfresh Hempty.
  destruct (add_node_unfold node self) as (node' & Hfst & Hports & Hnodes & Hconns).
  rewrite Hfst in Hfresh. unfold balanced, endpoints_resolve, exactly_referenced.
  rewrite Hnodes, Hconns.
  assert (∀ nid pid, is_Some (port_at nid pid (nodes self)) → n_id node' ≠ nid) as Hold.
  { intros nid pid [p (n & Hn & _)%port_at_Some_get] <-. congruence. }
  split_and!; [done|by apply NoDup_keys_set| | |].
  - intros k c Hin. destruct (Hres k c Hin) as [Hf Ht].
    rewrite !port_at_set_ne by eauto. done.
  - intros nid pid p q Hp. destruct (decide (n_id node' = nid)) as [<-|Hne].
    + unfold port_at in Hp. rewrite get_set_eq in Hp.
      apply find_port_Some in Hp as [_ Hin]. rewrite Hports in Hin.
      rewrite (proj1 (Forall_forall _ _) Hempty p Hin).
      rewrite refs_zero; [done|].
      intros [k c] Hkc [(Hn & _)|(Hn & _)]; simpl in *; destruct (Hres k c Hkc) as [Hf Ht].
      * by apply (Hold _ _ Hf).
      * by apply (Hold _ _ Ht).
    + rewrite port_at_set_ne in Hp by done. by apply Hexact.
  - intros nid n i j p q Hn Hij Hp Hq Hid.
    destruct (decide (n_id node' = nid)) as [<-|Hne].
    + rewrite get_set_eq in Hn. injection Hn as <-. rewrite Hports in Hq.
      apply (proj1 (Forall_forall _ _) Hempty q). by eapply list_elem_of_lookup_2.
    + rewrite get_set_ne in Hn by done. by eapply (Hsh nid n i j p q).
Qed.

Lemma balanced_add_connection fn fp tn tp ct kw uuid self :
  balanced self →
  get (default uuid (kw_id kw)) (connections self) = None →
  balanced (add_connection fn fp tn tp ct kw uuid self).2.
Proof.
  intros (Hkeyed & Hnd & Hres & Hexact & Hsh) Hfresh.
  destruct (add_connection_cases fn fp tn tp ct kw uuid self)
    as [[-> _]|(sp & dp & Hsp & Hdp & _ & ->)]; [done|].
  set (c := new_connection fn fp tn tp ct kw uuid).
  unfold balanced, endpoints_resolve, exactly_referenced. simpl.
  pose proof (append_peer_id tp) as Hid1. pose proof (append_peer_id fp) as Hid2.
  split_and!.
  - by apply (keyed_by_id_set c).
  - by rewrite !keys_mutate_port.
  - intros k c' Hin. rewrite !port_at_mutate_is_Some by done.
    change (c_id c) with (default uuid (kw_id kw)) in Hin.
    rewrite set_fresh in Hin by done.
    apply elem_of_app in Hin as [Hin|Hin%list_elem_of_singleton]; [by eapply Hres|].
    injection Hin as _ ->. simpl. rewrite Hsp, Hdp. eauto.
  - intros nid pid p2 q Hp2.
    change (c_id c) with (default uuid (kw_id kw)).
    rewrite refs_set_fresh by done.
    rewrite !port_at_mutate in Hp2 by done.
    assert (from_match c nid pid q ↔ ((fn, fp) = (nid, pid) ∧ tp = q)) as Hfm
      by (unfold from_match; simpl; split; [by intros (-> & -> & ->)|by intros [[= -> ->] ->]]).
    assert (to_match c nid pid q ↔ ((tn, tp) = (nid, pid) ∧ fp = q)) as Htm
      by (unfold to_match; simpl; split; [by intros (-> & -> & ->)|by intros [[= -> ->] ->]]).
    destruct (port_at nid pid (nodes self)) as [p|] eqn:Hp;
      [|by repeat case_decide].
    specialize (Hexact nid pid p q Hp).
    destruct (decide ((tn, tp) = (nid, pid))) as [H2|H2],
             (decide ((fn, fp) = (nid, pid))) as [H1|H1];
      simpl in Hp2; injection Hp2 as <-; simpl;
      rewrite ?count_peer_app, Hexact;
      destruct (decide (from_match c nid pid q)) as [Ha|Ha],
               (decide (to_match c nid pid q)) as [Hb|Hb];
      rewrite ?Hfm, ?Htm in *;
      repeat case_decide; try lia; exfalso; naive_solver.
  - apply shadowed_empty_mutate; [done|]. by apply shadowed_empty_mutate.
Qed.

Lemma balanced_remove_connection cid self :
  balanced self → balanced (remove_connection cid self).2.
Proof.
  intros (Hkeyed & Hnd & Hres & Hexact & Hsh).
  unfold remove_connection. destruct (get cid (connections self)) as [c|] eqn:Hc;
    [|done].
  pose proof (get_Some_elem _ _ _ Hc) as Hin.
  destruct (Hres cid c Hin) as [[sp Hsp] [dp Hdp]].
  destruct (port_at_Some_get _ _ _ _ Hsp) as (n1 & Hn1 & _).
  destruct (port_at_Some_get _ _ _ _ Hdp) as (n2 & Hn2 & _).
  unfold get_node. rewrite Hn1, Hn2.
  unfold balanced, endpoints_resolve, exactly_referenced. simpl.
  pose proof (remove_peer_id (to_port c)) as Hid1.
  pose proof (remove_peer_id (from_port c)) as Hid2.
  split_and!.
  - rewrite del_as_filter. by apply keyed_by_id_filter.
  - by rewrite !keys_mutate_port.
  - intros k c' Hin'. rewrite !port_at_mutate_is_Some by done.
    rewrite del_as_filter in Hin'. apply list_elem_of_filter in Hin' as [_ Hin'].
    by eapply Hres.
  - intros nid pid p2 q Hp2.
    destruct Hkeyed as [_ Hndk].
    pose proof (refs_del cid c (connections self) nid pid q Hndk Hc) as Hq.
    rewrite !port_at_mutate in Hp2 by done.
    assert (∀ q', from_match c nid pid q'
                  ↔ ((from_node c, from_port c) = (nid, pid) ∧ to_port c = q')) as Hfm.
    { intros q'. unfold from_match. split; [by intros (-> & -> & ->)|].
      by intros [[= -> ->] ->]. }
    assert (∀ q', to_match c nid pid q'
                  ↔ ((to_node c, to_port c) = (nid, pid) ∧ from_port c = q')) as Htm.
    { intros q'. unfold to_match. split; [by intros (-> & -> & ->)|].
      by intros [[= -> ->] ->]. }
    destruct (port_at nid pid (nodes self)) as [p|] eqn:Hp;
      [|by repeat case_decide].
    pose proof (λ q', Hexact nid pid p q' Hp) as Hcount.
    pose proof (refs_elem (cid, c) (connections self) nid pid (to_port c) Hin) as Hge1.
    pose proof (refs_elem (cid, c) (connections self) nid pid (from_port c) Hin) as Hge2.
    simpl in Hge1, Hge2.
    (* the first update, at the source address *)
    assert (∃ p1, (if decide ((from_node c, from_port c) = (nid, pid))
                   then remove_peer (to_port c) <$> Some p else Some p) = Some p1
                  ∧ ∀ q', count_peer q' (connected_to p1) + one (from_match c nid pid q')
                          = count_peer q' (connected_to p))
      as (p1 & Hp1 & Hcount1).
    { destruct (decide ((from_node c, from_port c) = (nid, pid))) as [H1|H1].
      - eexists. split; [done|]. intros q'.
        assert (to_port c ∈ connected_to p) as Helem.
        { apply count_peer_elem. rewrite (Hcount (to_port c)).
          destruct (decide (from_match c nid pid (to_port c))) as [?|Hno]; [lia|].
          exfalso. apply Hno, Hfm. done. }
        rewrite <- (count_peer_remove_peer q' (to_port c) p Helem).
        clear Hge1 Hge2 Hq Hp2.
        destruct (decide (from_match c nid pid q')) as [Ha|Ha],
                 (decide (to_port c = q')) as [Hb|Hb];
          try lia; exfalso; rewrite Hfm in Ha; tauto.
      - exists p. split; [done|]. intros q'.
        destruct (decide (from_match c nid pid q')) as [Ha|Ha]; [|lia].
        apply Hfm in Ha as [? _]. done. }
    rewrite Hp1 in Hp2.
    destruct (decide ((to_node c, to_port c) = (nid, pid))) as [H2|H2].
    + simpl in Hp2. injection Hp2 as <-.
      assert (from_port c ∈ connected_to p1) as Helem.
      { apply count_peer_elem.
        pose proof (Hcount1 (from_port c)) as H1'.
        rewrite (Hcount (from_port c)) in H1'.
        destruct (decide (to_match c nid pid (from_port c))) as [?|Hno].
        - destruct (decide (from_match c nid pid (from_port c))); lia.
        - exfalso. apply Hno, Htm. done. }
      pose proof (count_peer_remove_peer q (from_port c) p1 Helem) as Hrem.
      specialize (Hcount1 q). rewrite (Hcount q) in Hcount1.
      clear Hge1 Hge2.
      destruct (decide (to_match c nid pid q)) as [Hb|Hb],
               (decide (from_port c = q)) as [Hc'|Hc'];
        try lia; exfalso; rewrite Htm in Hb; tauto.
    + injection Hp2 as <-.
      specialize (Hcount1 q). rewrite (Hcount q) in Hcount1.
      destruct (decide (to_match c nid pid q)) as [Hb|Hb]; [|lia].
      apply Htm in Hb as [? _]. done.
  - apply shadowed_empty_mutate; [done|]. by apply shadowed_empty_mutate.
Qed.

Lemma built_balanced self : built self → balanced self.
Proof.
  induction 1 as [|node self _ IH Hfresh Hempty|fn fp tn tp ct kw uuid self _ IH Hfresh
                  |cid self _ IH].
  - apply balanced_init.
  - by apply balanced_add_node.
  - by apply balanced_add_connection.
  - by apply balanced_remove_connection.
Qed.

Lemma balanced_consistent self : balanced self → consistent self.
Proof.
  intros (Hkeyed & Hnd & Hres & Hexact & Hsh). split.
  - intros cid c Hin. destruct (Hres cid c Hin) as [[sp Hsp] [dp Hdp]]. split.
    + exists sp. split; [done|]. apply count_peer_elem.
      rewrite (Hexact _ _ _ (to_port c) Hsp).
      pose proof (refs_elem (cid, c) (connections self) (from_node c) (from_port c)
                    (to_port c) Hin) as Hge. simpl in Hge.
      destruct (decide (from_match c (from_node c) (from_port c) (to_port c)))
        as [?|Hno]; [lia|]. by destruct Hno.
    + exists dp. split; [done|]. apply count_peer_elem.
      rewrite (Hexact _ _ _ (from_port c) Hdp).
      pose proof (refs_elem (cid, c) (connections self) (to_node c) (to_port c)
                    (from_port c) Hin) as Hge. simpl in Hge.
      destruct (decide (to_match c (to_node c) (to_port c) (from_port c)))
        as [?|Hno]; [lia|]. by destruct Hno.
  - intros nid n p q Hn Hp Hq.
    apply (elem_get _ _ _ Hnd) in Hn.
    apply list_elem_of_lookup in Hp as [j Hj].
    assert (find_port (p_id p) (ports n) = Some p) as Hfind.
    { apply (find_port_first _ j); [done|]. intros i p0 Hij Hp0 Hid.
      rewrite (Hsh nid n i j p0 p Hn Hij Hp0 Hj Hid) in Hq. by apply elem_of_nil in Hq. }
    assert (port_at nid (p_id p) (nodes self) = Some p) as Hat
      by (unfold port_at; by rewrite Hn).
    apply count_peer_elem in Hq. rewrite (Hexact _ _ _ q Hat) in Hq.
    destruct (refs_pos _ _ _ _ Hq) as ([k c] & Hin & Hacc). by exists k, c.
Qed.
End balance_steps.

(** C1 (as stated, refuted). [add_node] stores the node it is given and
    [add_connection] stores the connection under the id it is given. A node
    whose port comes with a peer entry, as the ports read back from a saved
    file do, yields a store in which that port lists a peer for which no
    connection exists; adding node A again after it was linked to B leaves
    the connection without a back-reference on A's port; connecting twice
    under one connection id leaves Z's port with a peer whose connection was
    replaced. All three stores are reachable. *)
Lemma unchecked_arguments_break_consistency :
  (reachable store_B_preloaded ∧ ¬ consistent store_B_preloaded)
  ∧ (reachable store_A_readded ∧ ¬ consistent store_A_readded)
  ∧ (reachable store_id_reused ∧ ¬ consistent store_id_reused).
Proof.
  split_and!; try (by repeat constructor).
  - intros [_ Hdangling].
    destruct (Hdangling "B"
                (plain_node "B" [mkPort "b" "b" "input" "any" ["a"] (0, 0)%Z (-1)%Z false])
                (mkPort "b" "b" "input" "any" ["a"] (0, 0)%Z (-1)%Z false) "a")
      as (cid & c & Hc & _); [left|left|left|].
    eval_store store_B_preloaded. elem_cases.
  - intros [Hback _].
    destruct (Hback "c1" (mkConnection "c1" "A" "B" "a" "b" SIMPLE "" 0%Z [] [] [] "" [] []))
      as [(p & Hp & Hin) _]; [left|].
    vm_compute in Hp. injection Hp as <-. simpl in Hin. by apply elem_of_nil in Hin.
  - intros [_ Hdangling].
    destruct (Hdangling "Z"
                (plain_node "Z" [mkPort "in" "in" "input" "any" ["out"] (0, 0)%Z (-1)%Z false])
                (mkPort "in" "in" "input" "any" ["out"] (0, 0)%Z (-1)%Z false) "out")
      as (cid & c & Hc & Hacc); [|left|left|].
    + eval_store store_id_reused. set_solver.
    + eval_store store_id_reused. elem_cases.
      destruct Hacc as [(Hn & _)|(Hn & _)]; done.
Qed.

(** C1 (amended). In every store built from the empty one by adding nodes
    that are new to the store and carry no peer entries, by connecting under
    a connection id not in use and by disconnecting, each port the store can
    address lists a peer once for every connection that joins it to that
    peer and not more often; so every connection is listed by both of its
    endpoint ports, and no port lists a peer for which no connection
    exists. *)
Theorem built_consistent self :
  built self → exactly_referenced self ∧ consistent self.
Proof.
  intros Hbuilt%built_balanced. split.
  - by destruct Hbuilt as (_ & _ & _ & Hexact & _).
  - by apply balanced_consistent.
Qed.

Lemma built_consistent_witness :
  built (remove_connection "c1" store_AB_linked).2
  ∧ built store_AB_linked
  ∧ exactly_referenced store_AB_linked ∧ consistent store_AB_linked.
Proof.
  assert (built store_AB_linked) as Hbuilt.
  { unfold store_AB_linked, store_AB.
    apply built_add_connection; [|reflexivity].
    apply built_add_node; [|reflexivity|by repeat constructor].
    apply built_add_node; [|reflexivity|by repeat constructor].
    apply built_init. }
  split_and!; [by apply built_remove_connection|exact Hbuilt|..];
    apply (built_consistent store_AB_linked Hbuilt).
Defined.

(** ** Restricted cycle check *)

Section has_cycle_facts.
Import PyDict PyDictFacts.
Implicit Types (conns : list (string * Connection)) (st : cycle_state) (path : list string).

Lemma has_cycle_unfold fuel conns temp_node_id path st :
  has_cycle (S fuel) conns temp_node_id path st
  = if bool_decide (temp_node_id ∈ rec_stack st) then
      match list_index temp_node_id path with
      | None => ValueError
      | Some cycle_start =>
          Ok (true, mkCycleState
                      (cycles st ++ [drop cycle_start path ++ [temp_node_id]])
                      (visited st) (rec_stack st))
      end
    else if bool_decide (temp_node_id ∈ visited st) then Ok (false, st)
    else
      match
        loop_until
          (λ conn st',
             if bool_decide (from_node conn = temp_node_id) && is_dependency_edge conn
             then has_cycle fuel conns (to_node conn) (path ++ [temp_node_id]) st'
             else Ok (false, st'))
          (values conns)
          (mkCycleState (cycles st) ({[temp_node_id]} ∪ visited st)
                        ({[temp_node_id]} ∪ rec_stack st))
      with
      | Ok (false, st2) =>
          Ok (false, mkCycleState (cycles st2) (visited st2)
                                  (rec_stack st2 ∖ {[temp_node_id]}))
      | r => r
      end.
Proof. reflexivity. Qed.

Local Arguments has_cycle : simpl never.

(** The search never exhausts a budget above the number of nodes it has not
    visited, and it never forgets a visited node. *)
Lemma has_cycle_fuel conns (U : gset string) :
  (∀ kc, kc ∈ conns → to_node kc.2 ∈ U) →
  ∀ fuel temp path st,
    temp ∈ U → size (U ∖ visited st) < fuel →
    has_cycle fuel conns temp path st ≠ OutOfFuel
    ∧ ∀ b st', has_cycle fuel conns temp path st = Ok (b, st') →
               visited st ⊆ visited st'.
Proof.
  intros HU. induction fuel as [|fuel IH]; intros temp path st Htemp Hsize; [lia|].
  rewrite has_cycle_unfold. case_bool_decide as Hrec.
  { destruct (list_index temp path); split; try done. by intros b st' [= _ <-]. }
  case_bool_decide as Hvis.
  { split; [done|]. by intros b st' [= _ <-]. }
  set (st1 := mkCycleState _ _ _).
  assert (∀ (cs : list Connection) st0,
            (∀ c, c ∈ cs → to_node c ∈ U) → size (U ∖ visited st0) < fuel →
            loop_until
              (λ conn st',
                 if bool_decide (from_node conn = temp) && is_dependency_edge conn
                 then has_cycle fuel conns (to_node conn) (path ++ [temp]) st'
                 else Ok (false, st')) cs st0 ≠ OutOfFuel
            ∧ ∀ b st',
                loop_until
                  (λ conn st',
                     if bool_decide (from_node conn = temp) && is_dependency_edge conn
                     then has_cycle fuel conns (to_node conn) (path ++ [temp]) st'
                     else Ok (false, st')) cs st0 = Ok (b, st') →
                visited st0 ⊆ visited st') as Hloop.
  { induction cs as [|c cs IHcs]; intros st0 Hcs Hsz; simpl.
    - split; [done|]. by intros b st' [= _ <-].
    - assert (∀ st2, visited st0 ⊆ visited st2 →
                (loop_until
                   (λ conn st',
                      if bool_decide (from_node conn = temp) && is_dependency_edge conn
                      then has_cycle fuel conns (to_node conn) (path ++ [temp]) st'
                      else Ok (false, st')) cs st2 ≠ OutOfFuel)
                ∧ ∀ b st',
                    loop_until
                      (λ conn st',
                         if bool_decide (from_node conn = temp) && is_dependency_edge conn
                         then has_cycle fuel conns (to_node conn) (path ++ [temp]) st'
                         else Ok (false, st')) cs st2 = Ok (b, st') →
                    visited st0 ⊆ visited st') as Hrest.
      { intros st2 Hsub. destruct (IHcs st2) as [Hne Hmono].
        - intros c' Hc'. apply Hcs. by right.
        - eapply Nat.le_lt_trans; [|exact Hsz]. apply subseteq_size. set_solver.
        - split; [done|]. intros b st' Hst'. specialize (Hmono b st' Hst'). set_solver. }
      destruct (bool_decide (from_node c = temp) && is_dependency_edge c).
      + destruct (IH (to_node c) (path ++ [temp]) st0) as [Hne Hmono];
          [apply Hcs; left|done|].
        destruct (has_cycle fuel conns (to_node c) (path ++ [temp]) st0)
          as [[b1 st2]| |].
        * destruct b1; [|apply Hrest; by eapply Hmono].
          split; [done|]. intros b st' [= _ <-]. by eapply Hmono.
        * split; [done|]. by intros b st'.
        * by destruct Hne.
      + by apply Hrest. }
  destruct (Hloop (values conns) st1) as [Hne Hmono].
  - intros c ([k c'] & -> & Hin)%list_elem_of_fmap. by apply (HU (k, c')).
  - unfold st1. simpl. pose proof (colored_shrinks U (visited st) temp Htemp Hvis). lia.
  - destruct (loop_until _ _ st1) as [[b1 st2]| |].
    + specialize (Hmono b1 st2 eq_refl). unfold st1 in Hmono. simpl in Hmono.
      destruct b1; (split; [done|]); intros b st' [= _ <-]; simpl; set_solver.
    + split; [done|]. by intros b st'.
    + by destruct Hne.
Qed.

Lemma detect_roots_fuel conns (U : gset string) roots st :
  (∀ kc, kc ∈ conns → to_node kc.2 ∈ U) → (∀ x, x ∈ roots → x ∈ U) →
  detect_roots (S (size U)) conns roots st ≠ OutOfFuel.
Proof.
  intros HU. revert st. induction roots as [|node roots IH]; intros st Hroots; simpl;
    [done|].
  assert (∀ st', detect_roots (S (size U)) conns roots st' ≠ OutOfFuel) as Hrest.
  { intros st'. apply IH. intros x Hx. apply Hroots. by right. }
  case_bool_decide; [done|].
  destruct (has_cycle_fuel conns U HU (S (size U)) node [] st) as [Hne _].
  - apply Hroots. left.
  - apply Nat.lt_succ_r, subseteq_size. set_solver.
  - destruct (has_cycle (S (size U)) conns node [] st) as [[b st']| |]; [apply Hrest|done|].
    by destruct Hne.
Qed.

(** The budget of [detect_circular_dependencies] is never exhausted: the
    function returns a list of cycles or raises [ValueError]. *)
Lemma detect_circular_dependencies_fuel self :
  detect_circular_dependencies self ≠ OutOfFuel.
Proof.
  unfold detect_circular_dependencies.
  assert (detect_roots (S (size (store_node_ids self))) (connections self)
            (keys (nodes self)) (mkCycleState [] ∅ ∅) ≠ OutOfFuel) as Hne.
  { apply detect_roots_fuel.
    - intros [k c] Hin. unfold store_node_ids. apply elem_of_union_r, elem_of_list_to_set.
      apply list_elem_of_fmap. exists c. split; [done|].
      apply list_elem_of_fmap. by exists (k, c).
    - intros x Hx. unfold store_node_ids.
      by apply elem_of_union_l, elem_of_union_l, elem_of_list_to_set. }
  by destruct (detect_roots _ _ _ _).
Qed.
End has_cycle_facts.

Section cycle_shape_facts.
Import PyDict PyDictFacts.
Implicit Types (conns : list (string * Connection)) (st : cycle_state) (path : list string).
Local Arguments has_cycle : simpl never.

Lemma list_index_lookup x (l : list string) i : list_index x l = Some i → l !! i = Some x.
Proof.
  revert i. induction l as [|y l IH]; intros i; simpl; [done|].
  destruct (decide (y = x)) as [->|Hne].
  - by intros [= <-].
  - destruct (list_index x l) as [j|]; [|done]. simpl. intros [= <-]. by apply IH.
Qed.

Lemma chain_snoc (R : relation string) (l : list string) x y :
  chain R (l ++ [x]) → R x y → chain R ((l ++ [x]) ++ [y]).
Proof.
  intros Hchain Hxy i a b Ha Hb.
  destruct (decide (S i < length (l ++ [x]))) as [Hlt|Hge].
  - rewrite lookup_app_l in Ha by lia. rewrite lookup_app_l in Hb by lia.
    by apply (Hchain i).
  - apply lookup_lt_Some in Hb as Hlen. rewrite length_app in Hlen. simpl in Hlen.
    assert (S i = length (l ++ [x])) as Hi by lia.
    rewrite lookup_app_r in Hb by lia. rewrite Hi, Nat.sub_diag in Hb.
    injection Hb as <-.
    rewrite length_app in Hi. simpl in Hi.
    rewrite lookup_app_l in Ha by (rewrite length_app; simpl; lia).
    rewrite lookup_app_r in Ha by lia.
    replace (i - length l) with 0 in Ha by lia. by injection Ha as <-.
Qed.

Lemma chain_drop (R : relation string) (l : list string) n :
  chain R l → chain R (drop n l).
Proof.
  intros Hchain i a b Ha Hb. rewrite lookup_drop in Ha, Hb.
  apply (Hchain (n + i)); [done|]. by rewrite <- Nat.add_succ_r.
Qed.

(** The cycle cut out of the path at the first occurrence of the node. *)
Lemma closed_cycle_cut conns path x i :
  chain (dep_edge conns) (path ++ [x]) → list_index x path = Some i →
  closed_cycle conns (drop i path ++ [x]).
Proof.
  intros Hchain Hi%list_index_lookup.
  pose proof (lookup_lt_Some _ _ _ Hi) as Hlt.
  rewrite (drop_S _ _ _ Hi). split_and!.
  - rewrite length_app. simpl. lia.
  - by rewrite last_snoc.
  - rewrite <- (drop_S _ _ _ Hi), <- drop_app_le by lia. by apply chain_drop.
Qed.

(** Every cycle the search adds to the list is closed. *)
Lemma has_cycle_closed conns :
  ∀ fuel temp path st b st',
    has_cycle fuel conns temp path st = Ok (b, st') →
    chain (dep_edge conns) (path ++ [temp]) →
    Forall (closed_cycle conns) (cycles st) →
    Forall (closed_cycle conns) (cycles st').
Proof.
  induction fuel as [|fuel IH]; intros temp path st b st' Hrun Hchain Hcycles; [done|].
  rewrite has_cycle_unfold in Hrun. case_bool_decide as Hrec.
  { destruct (list_index temp path) as [i|] eqn:Hi; [|done].
    injection Hrun as _ <-. simpl. apply Forall_app. split; [done|].
    constructor; [|constructor]. by apply closed_cycle_cut. }
  case_bool_decide as Hvis; [by injection Hrun as _ <-|].
  assert (∀ (cs : list (string * Connection)) st0 b0 st2,
            (∀ kc, kc ∈ cs → kc ∈ conns) →
            loop_until
              (λ conn st',
                 if bool_decide (from_node conn = temp) && is_dependency_edge conn
                 then has_cycle fuel conns (to_node conn) (path ++ [temp]) st'
                 else Ok (false, st')) (values cs) st0 = Ok (b0, st2) →
            Forall (closed_cycle conns) (cycles st0) →
            Forall (closed_cycle conns) (cycles st2)) as Hloop.
  { induction cs as [|[k c] cs IHcs]; intros st0 b0 st2 Hcs Hl H0; simpl in Hl.
    - by injection Hl as _ <-.
    - assert (∀ kc, kc ∈ cs → kc ∈ conns) as Hcs' by (intros kc ?; apply Hcs; by right).
      destruct (bool_decide (from_node c = temp) && is_dependency_edge c) eqn:Hedge.
      + apply andb_true_iff in Hedge as [Hfrom%bool_decide_eq_true Hdep].
        destruct (has_cycle fuel conns (to_node c) (path ++ [temp]) st0)
          as [[b1 st1]| |] eqn:Hcall; try done.
        assert (Forall (closed_cycle conns) (cycles st1)) as H1.
        { eapply IH; [exact Hcall| |done]. apply chain_snoc; [done|].
          exists (k, c). split_and!; [apply Hcs; left|done..]. }
        destruct b1; [by injection Hl as _ <-|]. by eapply (IHcs st1).
      + by eapply (IHcs st0). }
  destruct (loop_until _ _ _) as [[b2 st2]| |] eqn:Hl; try done.
  apply (Hloop conns) in Hl; [|done|done].
  destruct b2; by injection Hrun as _ <-.
Qed.

Lemma detect_roots_closed conns fuel roots st st' :
  detect_roots fuel conns roots st = Ok st' →
  Forall (closed_cycle conns) (cycles st) → Forall (closed_cycle conns) (cycles st').
Proof.
  revert st. induction roots as [|node roots IH]; intros st Hrun Hst; simpl in Hrun.
  - by injection Hrun as <-.
  - case_bool_decide; [by eapply IH|].
    destruct (has_cycle fuel conns node [] st) as [[b st1]| |] eqn:Hcall; try done.
    eapply IH; [exact Hrun|]. eapply has_cycle_closed; [exact Hcall| |done].
    intros i x y Hx Hy. by destruct i.
Qed.

(** When [detect_circular_dependencies] returns, every cycle of its answer
    starts and ends with the same node and runs along prerequisite or
    dependency connections. *)
Lemma detect_circular_dependencies_closed self result :
  detect_circular_dependencies self = Ok result →
  Forall (closed_cycle (connections self)) result.
Proof.
  unfold detect_circular_dependencies.
  destruct (detect_roots _ _ _ _) as [st'| |] eqn:Hrun; try done.
  intros [= <-]. eapply detect_roots_closed; [exact Hrun|]. constructor.
Qed.
End cycle_shape_facts.

(** ** Further facts about the graph store *)

Section store_more_facts.
Import PyDict PyDictFacts.
Implicit Types (self : NodeManager) (p : Port) (c : Connection).

Lemma elem_of_set {V} k (v : V) d kv : kv ∈ set k v d → kv = (k, v) ∨ kv ∈ d.
Proof.
  induction d as [|[k0 v0] d IH]; simpl.
  - intros ->%list_elem_of_singleton. by left.
  - destruct (decide (k0 = k)) as [->|Hk].
    + intros [->|?]%elem_of_cons; [by left|right; by right].
    + intros [->|?]%elem_of_cons; [right; left|].
      destruct IH as [?|?]; [done|by left|right; by right].
Qed.

Lemma get_set_is_Some {V} k (v : V) d k' :
  is_Some (get k' d) → is_Some (get k' (set k v d)).
Proof.
  intros H. destruct (decide (k = k')) as [->|Hne].
  - rewrite get_set_eq. eauto.
  - by rewrite get_set_ne.
Qed.

Lemma elem_of_del {V} k (d : list (string * V)) kv : kv ∈ del k d → kv ∈ d ∧ kv.1 ≠ k.
Proof. rewrite del_as_filter. intros [? ?]%list_elem_of_filter. done. Qed.

Lemma import_loop_keyed_by_id uuid4 data i self :
  keyed_by_id (connections self) →
  keyed_by_id (connections (import_loop uuid4 i data self)).
Proof.
  revert i self. induction data as [|d data IH]; intros i self Hk; simpl; [done|].
  apply IH. unfold import_connection.
  destruct (connection_of_data (uuid4 i) d) as [c|]; [|done]. simpl.
  by apply keyed_by_id_set.
Qed.

Lemma store_step_keyed_by_id self self' :
  store_step self self' → keyed_by_id (connections self) →
  keyed_by_id (connections self').
Proof.
  intros [node s|node_id s|fn fp tn tp ct kw uuid s|cid s|uuid4 data s] Hk.
  - unfold add_node. by destruct (decide (n_id node = "")).
  - unfold remove_node. destruct (get node_id (nodes s)); [|done]. simpl.
    rewrite foldl_del_as_filter. by apply keyed_by_id_filter.
  - destruct (add_connection_cases fn fp tn tp ct kw uuid s)
      as [[-> _]|(p & q & _ & _ & _ & ->)]; [done|].
    by apply (keyed_by_id_set (new_connection fn fp tn tp ct kw uuid)).
  - unfold remove_connection. destruct (get cid (connections s)); [|done]. simpl.
    rewrite del_as_filter. by apply keyed_by_id_filter.
  - unfold import_connections. apply import_loop_keyed_by_id. split; constructor.
Qed.

Lemma import_loop_next_id uuid4 data i self :
  next_id (import_loop uuid4 i data self) = next_id self.
Proof.
  revert i self. induction data as [|d data IH]; intros i self; simpl; [done|].
  rewrite IH. unfold import_connection. by destruct (connection_of_data _ _).
Qed.

Lemma store_step_next_id self self' :
  store_step self self' → (next_id self ≤ next_id self')%Z.
Proof.
  intros [node s|node_id s|fn fp tn tp ct kw uuid s|cid s|uuid4 data s].
  - unfold add_node. destruct (decide (n_id node = "")); simpl; lia.
  - unfold remove_node. destruct (get node_id (nodes s)); simpl; lia.
  - destruct (add_connection_cases fn fp tn tp ct kw uuid s)
      as [[-> _]|(p & q & _ & _ & _ & ->)]; simpl; lia.
  - unfold remove_connection. destruct (get cid (connections s)); simpl; lia.
  - unfold import_connections. rewrite import_loop_next_id. simpl. lia.
Qed.

Lemma rtc_store_step_next_id self self' :
  rtc store_step self self' → (next_id self ≤ next_id self')%Z.
Proof.
  induction 1 as [|s1 s2 s3 Hstep _ IH]; [lia|].
  apply store_step_next_id in Hstep. lia.
Qed.

Lemma rtc_store_step_keyed_by_id self :
  rtc store_step init self → keyed_by_id (connections self).
Proof.
  intros H. apply rtc_nsteps in H as [n H].
  assert (∀ s, keyed_by_id (connections s) → nsteps store_step n s self →
               keyed_by_id (connections self)) as Hgen.
  { clear H. induction n as [|n IH]; intros s Hk Hs.
    - by inversion Hs; subst.
    - inversion Hs as [|? ? s' ? Hstep Hrest]; subst.
      eapply IH; [|exact Hrest]. by eapply store_step_keyed_by_id. }
  eapply Hgen; [|exact H]. split; constructor.
Qed.

(** The endpoint nodes of the connections survive every editing operation:
    a node goes together with its connections. *)
Lemma reachable_endpoints_known self :
  reachable self → endpoints_known (connections self) (nodes self).
Proof.
  induction 1 as [|node self Hr IH|node_id self Hr IH
                  |fn fp tn tp ct kw uuid self Hr IH|cid self Hr IH].
  - intros k c Hin. by apply elem_of_nil in Hin.
  - destruct (add_node_unfold node self) as (node' & _ & _ & Hn & Hc).
    intros k c Hin. rewrite Hc in Hin. rewrite Hn.
    destruct (IH k c Hin). split; by apply get_set_is_Some.
  - destruct (get node_id (nodes self)) as [n|] eqn:Hn.
    + rewrite (remove_node_known _ _ n) by
        (done || by apply reachable_keyed_by_id).
      simpl. intros k c [Hinc Hin]%list_elem_of_filter. simpl in Hinc.
      destruct (IH k c Hin). rewrite !get_del_ne by naive_solver. done.
    + by rewrite remove_node_unknown.
  - destruct (add_connection_cases fn fp tn tp ct kw uuid self)
      as [[-> _]|(p & q & Hp & Hq & _ & ->)]; [done|].
    simpl. intros k c Hin. rewrite !get_mutate_port_is_Some.
    apply elem_of_set in Hin as [[= -> ->]|Hin]; [|by apply (IH k c)].
    simpl. apply port_at_Some_get in Hp as (? & -> & _).
    apply port_at_Some_get in Hq as (? & -> & _). eauto.
  - unfold remove_connection.
    destruct (get cid (connections self)) as [c0|] eqn:Hc0; [|done]. simpl.
    intros k c [Hin _]%elem_of_del. destruct (IH k c Hin) as [H1 H2].
    destruct (get_node (from_node c0) self), (get_node (to_node c0) self); try done.
    by rewrite !get_mutate_port_is_Some.
Qed.

Lemma validate_connections_nil {N} conns (nodes : list (string * N)) :
  _validate_connections conns nodes = [] ↔ endpoints_known conns nodes.
Proof.
  unfold _validate_connections, endpoints_known. induction conns as [|[k c] conns IH]; simpl.
  - split; [|done]. intros _ k c Hin. by apply elem_of_nil in Hin.
  - unfold connection_issues at 1, contains. simpl. split.
    + intros H k' c' Hin.
      destruct (get (from_node c) nodes) eqn:Hf; [|done].
      destruct (get (to_node c) nodes) eqn:Ht; [|done].
      simpl in H. apply elem_of_cons in Hin as [[= -> ->]|Hin].
      * rewrite Hf, Ht. eauto.
      * exact (proj1 IH H k' c' Hin).
    + intros H. destruct (H k c) as [[? ->] [? ->]]; [left|]. simpl.
      apply IH. intros k' c' Hin. apply (H k' c'). by right.
Qed.

Lemma get_prerequisites_spec x node_id self :
  x ∈ get_prerequisites node_id self ↔ dep_edge (connections self) x node_id.
Proof.
  unfold get_prerequisites, dep_edge, values. rewrite list_elem_of_fmap. split.
  - intros (c & -> & [[Ht Hd] Hin]%list_elem_of_filter).
    apply list_elem_of_fmap in Hin as (kc & -> & Hin). by exists kc.
  - intros (kc & Hin & <- & Ht & Hd). exists kc.2. split; [done|].
    apply list_elem_of_filter. split; [done|]. apply list_elem_of_fmap. by exists kc.
Qed.

Lemma append_node_inj (a b : Z) : "node_" +:+ pretty a = "node_" +:+ pretty b → a = b.
Proof.
  intros H. apply (inj pretty). unfold String.app in H; simpl in H. congruence.
Qed.
End store_more_facts.

(** X1. [remove_node] refuses an id that is not in the store and changes
    nothing; for an id that is in the store it answers [True], takes the
    node out, leaves every other node object as it is, keeps the counter,
    and takes out the connections that start or end at the node, and only
    those, the others keeping their order. *)
Theorem remove_node_effect node_id self :
  reachable self →
  match get_node node_id self with
  | None => remove_node node_id self = (false, self)
  | Some _ =>
      ∃ self',
        remove_node node_id self = (true, self')
        ∧ get_node node_id self' = None
        ∧ (∀ k, k ≠ node_id → get_node k self' = get_node k self)
        ∧ connections self'
          = filter (λ kc, from_node kc.2 ≠ node_id ∧ to_node kc.2 ≠ node_id)
                   (connections self)
        ∧ next_id self' = next_id self
  end.
Proof.
  intros Hr. unfold get_node. destruct (PyDict.get node_id (nodes self)) as [n|] eqn:Hn.
  - rewrite (remove_node_known _ _ n) by (done || by apply reachable_keyed_by_id).
    eexists. split; [done|]. simpl. split_and!.
    + apply PyDictFacts.get_del_eq.
    + intros k Hk. by apply PyDictFacts.get_del_ne.
    + apply list_filter_iff. intros kc. tauto.
    + done.
  - by apply remove_node_unknown.
Qed.

Lemma remove_node_effect_witness :
  ∃ self',
    remove_node "A" store_AB_linked = (true, self')
    ∧ get_node "A" self' = None
    ∧ (∀ k, k ≠ "A" → get_node k self' = get_node k store_AB_linked)
    ∧ connections self'
      = filter (λ kc, from_node kc.2 ≠ "A" ∧ to_node kc.2 ≠ "A")
               (connections store_AB_linked)
    ∧ next_id self' = next_id store_AB_linked.
Proof. exact (remove_node_effect "A" store_AB_linked store_AB_linked_reachable). Defined.

(** X2. Whatever sequence of editing operations and imports built a store,
    its connection dict holds every connection under the connection's own
    id, and no id twice. *)
Theorem connections_keyed_by_id self :
  rtc store_step init self → keyed_by_id (connections self).
Proof. apply rtc_store_step_keyed_by_id. Qed.

Lemma connections_keyed_by_id_witness : keyed_by_id (connections store_AB_linked).
Proof.
  apply connections_keyed_by_id.
  eapply rtc_l; [apply (step_add_node (plain_node "A" [plain_port "a" "output" (-1)]))|].
  eapply rtc_l; [apply (step_add_node (plain_node "B" [plain_port "b" "input" (-1)]))|].
  eapply rtc_l; [apply (step_add_connection "A" "a" "B" "b" SIMPLE no_props "c1")|].
  apply rtc_refl.
Defined.

(** X3. A store built by the four editing operations never holds a
    connection to or from a node that is not in the store, so the
    connection-integrity analysis has nothing to report on it. *)
Theorem validate_connections_clean_on_edited_store self :
  reachable self → _validate_connections (connections self) (nodes self) = [].
Proof.
  intros Hr. apply validate_connections_nil. by apply reachable_endpoints_known.
Qed.

Lemma validate_connections_clean_on_edited_store_witness :
  _validate_connections (connections store_AB_linked) (nodes store_AB_linked) = [].
Proof.
  exact (validate_connections_clean_on_edited_store store_AB_linked
           store_AB_linked_reachable).
Defined.

(** X4. After [remove_node] took a node out, [get_prerequisites] names it
    for no node, and names no node for it. *)
Theorem removed_node_is_no_prerequisite node_id self other :
  reachable self → is_Some (get_node node_id self) →
  (node_id ∉ get_prerequisites other (remove_node node_id self).2)
  ∧ get_prerequisites node_id (remove_node node_id self).2 = [].
Proof.
  intros Hr [n Hn]. unfold get_node in Hn.
  rewrite (remove_node_known _ _ n) by (done || by apply reachable_keyed_by_id).
  simpl. split.
  - rewrite get_prerequisites_spec. simpl.
    intros (kc & [Hinc _]%list_elem_of_filter & Hf & _). naive_solver.
  - destruct (get_prerequisites _ _) as [|x l] eqn:Hl; [done|].
    assert (x ∈ get_prerequisites node_id
                  (mkManager (PyDict.del node_id (nodes self))
                     (filter (λ kc, ¬ (from_node kc.2 = node_id ∨ to_node kc.2 = node_id))
                             (connections self)) (next_id self))) as Hx.
    { rewrite Hl. left. }
    apply get_prerequisites_spec in Hx. simpl in Hx.
    destruct Hx as (kc & [Hinc _]%list_elem_of_filter & _ & Ht & _). naive_solver.
Qed.

Lemma removed_node_is_no_prerequisite_witness :
  ("A" ∉ get_prerequisites "B" (remove_node "A" store_AB_linked).2)
  ∧ get_prerequisites "A" (remove_node "A" store_AB_linked).2 = [].
Proof.
  apply removed_node_is_no_prerequisite; [apply store_AB_linked_reachable|].
  vm_compute. eauto.
Defined.

(** X5. Two nodes that come without an id never get the same generated id,
    whatever operations run on the store between the two [add_node] calls;
    [clear], which resets the counter, is not among these operations. *)
Theorem generated_ids_differ a b self self' :
  n_id a = "" → n_id b = "" →
  rtc store_step (add_node a self).2 self' →
  n_id (add_node a self).1 ≠ n_id (add_node b self').1.
Proof.
  intros Ha Hb Hsteps. apply rtc_store_step_next_id in Hsteps.
  unfold add_node in *. rewrite Ha in *. rewrite Hb. simpl in *.
  intros Heq%append_node_inj. lia.
Qed.

Lemma generated_ids_differ_witness :
  n_id (add_node (plain_node "" []) init).1
  ≠ n_id (add_node (plain_node "" [])
            (remove_node "node_1" (add_node (plain_node "" []) init).2).2).1.
Proof.
  apply generated_ids_differ; [done|done|].
  eapply rtc_l; [apply (step_remove_node "node_1")|]. apply rtc_refl.
Defined.

Section link_facts.
Import PyDict PyDictFacts.
Implicit Types (self : NodeManager) (p : Port) (c : Connection).

Lemma del_set_fresh {V} k (v : V) d : get k d = None → del k (set k v d) = d.
Proof.
  intros Hk. rewrite set_fresh by done. rewrite !del_as_filter, filter_app.
  rewrite filter_cons_False by (simpl; auto). simpl. rewrite app_nil_r.
  rewrite <- del_as_filter. by apply del_absent.
Qed.

Lemma list_remove_Permutation x (l : list string) : x ∈ l → x :: list_remove x l ≡ₚ l.
Proof.
  induction l as [|y l IH]; [by intros ?%elem_of_nil|]. simpl.
  destruct (decide (y = x)) as [->|Hne]; [done|].
  intros [?|Hin]%elem_of_cons; [congruence|].
  rewrite Permutation_swap. by rewrite IH.
Qed.

Lemma remove_peer_Permutation x p (l : list string) :
  connected_to p ≡ₚ x :: l → connected_to (remove_peer x p) ≡ₚ l.
Proof.
  intros Hp. assert (x ∈ connected_to p) as Hin.
  { rewrite Hp. left. }
  unfold remove_peer. rewrite bool_decide_eq_true_2 by done. simpl.
  apply (Permutation_cons_inv (a := x)).
  by rewrite list_remove_Permutation.
Qed.

Lemma same_port_append x p0 p l :
  same_port_but_peers p0 p l → same_port_but_peers p0 (append_peer x p) (x :: l).
Proof.
  intros (? & ? & ? & ? & ? & ? & ? & Hl). unfold same_port_but_peers. simpl.
  split_and!; try done. by rewrite Permutation_app_comm, Hl.
Qed.

Lemma same_port_remove x p0 p l :
  same_port_but_peers p0 p (x :: l) → same_port_but_peers p0 (remove_peer x p) l.
Proof.
  intros (? & ? & ? & ? & ? & ? & ? & Hl). unfold same_port_but_peers.
  split_and!; [by unfold remove_peer; case_bool_decide..|].
  by apply remove_peer_Permutation.
Qed.

Lemma same_port_refl p : same_port_but_peers p p (connected_to p).
Proof. unfold same_port_but_peers. by split_and!. Qed.
End link_facts.

(** X6. A connect request that succeeds returns the connection built from
    its arguments, stores it under its id without touching any other entry
    of the connection dict, makes the two endpoint ports list each other,
    and leaves every other port, the set of nodes and the counter as they
    were. *)
Theorem add_connection_success fn fp tn tp ct kw uuid self c self' :
  add_connection fn fp tn tp ct kw uuid self = (Some c, self') →
  c = new_connection fn fp tn tp ct kw uuid
  ∧ PyDict.get (c_id c) (connections self') = Some c
  ∧ (∀ k, k ≠ c_id c →
       PyDict.get k (connections self') = PyDict.get k (connections self))
  ∧ back_referenced (nodes self') c
  ∧ (∀ nid pid, (nid, pid) ≠ (fn, fp) → (nid, pid) ≠ (tn, tp) →
       port_at nid pid (nodes self') = port_at nid pid (nodes self))
  ∧ PyDict.keys (nodes self') = PyDict.keys (nodes self)
  ∧ next_id self' = next_id self.
Proof.
  intros Hadd.
  destruct (add_connection_cases fn fp tn tp ct kw uuid self)
    as [[Hfail _]|(p & q & Hp & Hq & _ & Hok)]; [congruence|].
  rewrite Hok in Hadd. injection Hadd as <- <-. simpl.
  split_and!.
  - done.
  - apply PyDictFacts.get_set_eq.
  - intros k Hk. by apply PyDictFacts.get_set_ne.
  - split; simpl.
    + rewrite port_at_mutate by apply append_peer_id.
      rewrite port_at_mutate_eq, Hp by apply append_peer_id. simpl.
      destruct (decide _); simpl; eexists; (split; [done|]); simpl; set_solver.
    + rewrite port_at_mutate_eq by apply append_peer_id.
      destruct (proj2 (port_at_mutate_is_Some fn fp (append_peer tp) (nodes self) tn tp
                         (append_peer_id tp)) (mk_is_Some _ _ Hq)) as [q' Hq'].
      rewrite Hq'. simpl. eexists. split; [done|]. simpl. set_solver.
  - intros nid pid H1 H2. rewrite !port_at_mutate by apply append_peer_id.
    by rewrite !decide_False.
  - by rewrite !keys_mutate_port.
  - done.
Qed.

Lemma add_connection_success_witness :
  ∃ c self',
    add_connection "A" "a" "B" "b" SIMPLE no_props "c1" store_AB = (Some c, self')
    ∧ PyDict.get (c_id c) (connections self') = Some c
    ∧ back_referenced (nodes self') c.
Proof.
  eexists _, _. split; [reflexivity|].
  destruct (add_connection_success "A" "a" "B" "b" SIMPLE no_props "c1" store_AB _ _ eq_refl)
    as (_ & H1 & _ & H2 & _).
  by split.
Defined.

(** X7. Disconnecting a connection right after it was made under an id that
    was free undoes the connect: the connection dict, the counter and the
    set of nodes are as before, and every port is as before up to the order
    of its peer list. *)
Theorem connect_then_disconnect fn fp tn tp ct kw uuid self c self' :
  add_connection fn fp tn tp ct kw uuid self = (Some c, self') →
  PyDict.get (c_id c) (connections self) = None →
  ∃ self'',
    remove_connection (c_id c) self' = (true, self'')
    ∧ connections self'' = connections self
    ∧ next_id self'' = next_id self
    ∧ PyDict.keys (nodes self'') = PyDict.keys (nodes self)
    ∧ ∀ nid pid p, port_at nid pid (nodes self) = Some p →
        ∃ p', port_at nid pid (nodes self'') = Some p' ∧ same_port_up_to_order p p'.
Proof.
  intros Hadd Hfresh.
  destruct (add_connection_cases fn fp tn tp ct kw uuid self)
    as [[Hfail _]|(p & q & Hp & Hq & _ & Hok)]; [congruence|].
  rewrite Hok in Hadd. injection Hadd as <- <-.
  set (c := new_connection fn fp tn tp ct kw uuid) in *.
  unfold remove_connection. simpl connections. rewrite PyDictFacts.get_set_eq.
  change (from_node c) with fn. change (to_node c) with tn.
  change (from_port c) with fp. change (to_port c) with tp.
  unfold get_node. simpl nodes.
  destruct (proj2 (get_mutate_port_is_Some tn tp (append_peer fp)
                     (mutate_port fn fp (append_peer tp) (nodes self)) fn)) as [n1 ->].
  { apply get_mutate_port_is_Some. apply port_at_Some_get in Hp as (? & -> & _). eauto. }
  destruct (proj2 (get_mutate_port_is_Some tn tp (append_peer fp)
                     (mutate_port fn fp (append_peer tp) (nodes self)) tn)) as [n2 ->].
  { apply get_mutate_port_is_Some. apply port_at_Some_get in Hq as (? & -> & _). eauto. }
  eexists. split; [done|]. simpl. split_and!.
  - by apply del_set_fresh.
  - done.
  - by rewrite !keys_mutate_port.
  - intros nid pid p0 Hp0.
    rewrite !port_at_mutate by (apply append_peer_id || apply remove_peer_id).
    rewrite Hp0.
    destruct (decide ((tn, tp) = (nid, pid))) as [[= -> ->]|H1],
             (decide ((fn, fp) = (nid, pid))) as [[= -> ->]|H2]; simpl;
      eexists; (split; [done|]).
    + do 2 apply same_port_remove. do 2 apply same_port_append. apply same_port_refl.
    + apply same_port_remove, same_port_append, same_port_refl.
    + apply same_port_remove, same_port_append, same_port_refl.
    + apply same_port_refl.
Qed.

Lemma connect_then_disconnect_witness :
  ∃ self'',
    remove_connection "c1" store_AB_linked = (true, self'')
    ∧ connections self'' = connections store_AB
    ∧ next_id self'' = next_id store_AB
    ∧ PyDict.keys (nodes self'') = PyDict.keys (nodes store_AB)
    ∧ ∀ nid pid p, port_at nid pid (nodes store_AB) = Some p →
        ∃ p', port_at nid pid (nodes self'') = Some p' ∧ same_port_up_to_order p p'.
Proof.
  exact (connect_then_disconnect "A" "a" "B" "b" SIMPLE no_props "c1" store_AB
           _ _ eq_refl eq_refl).
Defined.

(** ** Path search *)

Section path_facts.
Import PyDict PyDictFacts.
Implicit Types (conns : list (string * Connection)) (path : list string) (V : gset string).

Lemma path_dfs_unfold fuel conns cur target cp st :
  path_dfs (S fuel) conns cur target cp st
  = if bool_decide (cur = target) then
      Ok (true, (st.1 ++ (cp ++ [cur]), st.2))
    else if bool_decide (cur ∈ st.2) then Ok (false, st)
    else
      loop_until
        (λ conn st',
           if bool_decide (from_node conn = cur)
           then path_dfs fuel conns (to_node conn) target (cp ++ [cur]) st'
           else Ok (false, st'))
        (values conns) (st.1, {[cur]} ∪ st.2).
Proof. reflexivity. Qed.

Local Arguments path_dfs : simpl never.

Lemma chain_cons (R : relation string) x y (l : list string) :
  R x y → chain R (y :: l) → chain R (x :: y :: l).
Proof.
  intros Hxy Hc i a b Ha Hb. destruct i as [|i]; simpl in *.
  - by simplify_eq.
  - by apply (Hc i).
Qed.

Lemma chain_singleton (R : relation string) x : chain R [x].
Proof. intros i a b Ha Hb. by destruct i. Qed.

Lemma chain_tail (R : relation string) x (l : list string) : chain R (x :: l) → chain R l.
Proof. intros Hc i a b Ha Hb. by apply (Hc (S i)). Qed.

Lemma chain_rtc (R : relation string) (l : list string) x y :
  head l = Some x → last l = Some y → chain R l → rtc R x y.
Proof.
  revert x. induction l as [|a l IH]; intros x Hh Hl Hc; [done|].
  simpl in Hh. simplify_eq. destruct l as [|b l].
  - simpl in Hl. by simplify_eq.
  - eapply rtc_l; [by apply (Hc 0 x b)|].
    apply IH; [done|done|]. by eapply chain_tail.
Qed.

Lemma route_here conns x : route conns x x [x].
Proof.
  split_and!; [done|done|apply chain_singleton|apply NoDup_singleton].
Qed.

Lemma route_step conns x y z (l : list string) :
  conn_edge conns x y → route conns y z l → x ∉ l → route conns x z (x :: l).
Proof.
  intros Hxy (Hh & Hl & Hc & Hnd) Hx. destruct l as [|y' l]; [done|].
  simpl in Hh. simplify_eq. split_and!.
  - done.
  - done.
  - by apply chain_cons.
  - by apply NoDup_cons.
Qed.

(** The search on [cur]: with a budget above the number of unvisited nodes
    it returns; the visited set grows and never takes the target in; an
    answer [True] has put the route found behind [cp] at the end of [path];
    an answer [False] leaves [path] alone and has visited [cur] and the
    successors of every node it visited. *)
Lemma path_dfs_spec conns target (U : gset string) :
  (∀ kc, kc ∈ conns → to_node kc.2 ∈ U) →
  ∀ fuel cur cp path V,
    cur ∈ U → size (U ∖ V) < fuel → target ∉ V →
    ∃ b path' V',
      path_dfs fuel conns cur target cp (path, V) = Ok (b, (path', V'))
      ∧ V ⊆ V' ∧ (target ∉ V')
      ∧ if b then
          ∃ sfx, path' = path ++ cp ++ sfx ∧ route conns cur target sfx
                 ∧ ∀ x, x ∈ sfx → x ∉ V
        else
          path' = path ∧ cur ∈ V'
          ∧ ∀ x y, x ∈ V' → x ∉ V → conn_edge conns x y → y ∈ V'.
Proof.
  intros HU. induction fuel as [|fuel IH]; intros cur cp path V Hcur Hsize Htarget; [lia|].
  rewrite path_dfs_unfold. simpl.
  case_bool_decide as Heq.
  { subst cur. exists true, (path ++ cp ++ [target]), V. split_and!; try done.
    exists [target]. split_and!; [done|apply route_here|].
    by intros x ->%list_elem_of_singleton. }
  case_bool_decide as Hvis.
  { exists false, path, V. by split_and!. }
  assert (∀ (cs : list (string * Connection)) V0,
            (∀ kc, kc ∈ cs → kc ∈ conns) → size (U ∖ V0) < fuel → target ∉ V0 →
            ∃ b path' V',
              loop_until
                (λ conn st',
                   if bool_decide (from_node conn = cur)
                   then path_dfs fuel conns (to_node conn) target (cp ++ [cur]) st'
                   else Ok (false, st'))
                (values cs) (path, V0) = Ok (b, (path', V'))
              ∧ V0 ⊆ V' ∧ (target ∉ V')
              ∧ if b then
                  ∃ sfx y, path' = path ++ (cp ++ [cur]) ++ sfx
                           ∧ conn_edge conns cur y ∧ route conns y target sfx
                           ∧ ∀ x, x ∈ sfx → x ∉ V0
                else
                  path' = path
                  ∧ (∀ kc, kc ∈ cs → from_node kc.2 = cur → to_node kc.2 ∈ V')
                  ∧ ∀ x y, x ∈ V' → x ∉ V0 → conn_edge conns x y → y ∈ V')
    as Hloop.
  { induction cs as [|[k c] cs IHcs]; intros V0 Hcs Hsz Ht0; simpl.
    - exists false, path, V0. split_and!; try done.
      intros kc Hkc. by apply elem_of_nil in Hkc.
    - assert (∀ kc, kc ∈ cs → kc ∈ conns) as Hcs' by (intros kc ?; apply Hcs; by right).
      case_bool_decide as Hfrom.
      + destruct (IH (to_node c) (cp ++ [cur]) path V0) as (b1 & path1 & V1 & -> & Hsub1 & Ht1 & Hpost1);
          [apply (HU (k, c)), Hcs; left|done|done|].
        destruct b1.
        * destruct Hpost1 as (sfx & -> & Hroute & Hfresh).
          exists true, (path ++ (cp ++ [cur]) ++ sfx), V1. split_and!; try done.
          exists sfx, (to_node c). split_and!; try done.
          exists (k, c). split_and!; [apply Hcs; left|done..].
        * destruct Hpost1 as (-> & Hin1 & Hclosed1).
          destruct (IHcs V1) as (b2 & path2 & V2 & -> & Hsub2 & Ht2 & Hpost2);
            [done| |done|].
          { eapply Nat.le_lt_trans; [|exact Hsz]. apply subseteq_size. set_solver. }
          exists b2, path2, V2. split_and!; [done|set_solver|done|].
          destruct b2.
          -- destruct Hpost2 as (sfx & y & -> & Hedge & Hroute & Hfresh).
             exists sfx, y. split_and!; try done. intros x Hx. specialize (Hfresh x Hx).
             set_solver.
          -- destruct Hpost2 as (-> & Hsucc & Hclosed2). split_and!; [done| |].
             ++ intros kc [->|Hkc]%elem_of_cons Hf; [simpl; set_solver|by apply Hsucc].
             ++ intros x y Hx Hx0 Hedge. destruct (decide (x ∈ V1)) as [Hx1|Hx1].
                ** apply Hsub2. by eapply Hclosed1.
                ** by eapply Hclosed2.
      + destruct (IHcs V0) as (b2 & path2 & V2 & -> & Hsub2 & Ht2 & Hpost2); [done..|].
        exists b2, path2, V2. split_and!; try done.
        destruct b2; [done|]. destruct Hpost2 as (-> & Hsucc & Hclosed2).
        split_and!; [done| |done].
        intros kc [->|Hkc]%elem_of_cons Hf; [done|by apply Hsucc]. }
  destruct (Hloop conns ({[cur]} ∪ V)) as (b & path' & V' & -> & Hsub & Ht & Hpost).
  - done.
  - pose proof (colored_shrinks U V cur Hcur Hvis). lia.
  - set_solver.
  - exists b, path', V'. split_and!; [done|set_solver|done|].
    destruct b.
    + destruct Hpost as (sfx & y & -> & Hedge & Hroute & Hfresh).
      exists (cur :: sfx). split_and!.
      * by rewrite <- !app_assoc.
      * apply (route_step _ _ y); [done|done|]. intros Hin. apply Hfresh in Hin. set_solver.
      * intros x [->|Hx]%elem_of_cons; [done|]. apply Hfresh in Hx. set_solver.
    + destruct Hpost as (-> & Hsucc & Hclosed). split_and!; [done|set_solver|].
      intros x y Hx HxV Hedge. destruct (decide (x = cur)) as [->|Hne].
      * destruct Hedge as (kc & Hkc & Hf & <-). by apply Hsucc.
      * apply (Hclosed x y); [done|set_solver|done].
Qed.

(** The answer of [validate_connection_path]: a route from the start to the
    end when the end can be reached, the empty list when it cannot. *)
Lemma validate_connection_path_spec start_node_id end_node_id self :
  ∃ path,
    validate_connection_path start_node_id end_node_id self = Ok path
    ∧ ((route (connections self) start_node_id end_node_id path
        ∧ rtc (conn_edge (connections self)) start_node_id end_node_id)
       ∨ (path = [] ∧ ¬ rtc (conn_edge (connections self)) start_node_id end_node_id)).
Proof.
  unfold validate_connection_path.
  set (U := {[start_node_id]} ∪ store_node_ids self).
  destruct (path_dfs_spec (connections self) end_node_id U) with
    (fuel := S (size U)) (cur := start_node_id) (cp := @nil string)
    (path := @nil string) (V := (∅ : gset string))
    as (b & path' & V' & -> & _ & Ht & Hpost).
  - intros [k c] Hin. unfold U, store_node_ids. apply elem_of_union_r, elem_of_union_r.
    apply elem_of_list_to_set, list_elem_of_fmap. exists c. split; [done|].
    apply list_elem_of_fmap. by exists (k, c).
  - set_solver.
  - apply Nat.lt_succ_r, subseteq_size. set_solver.
  - set_solver.
  - destruct b.
    + destruct Hpost as (sfx & -> & Hroute & _). exists sfx. split; [done|]. left.
      split; [done|]. destruct Hroute as (Hh & Hl & Hc & _). by eapply chain_rtc.
    + destruct Hpost as (-> & Hin & Hclosed). exists []. split; [done|]. right.
      split; [done|]. intros Hreach.
      assert (end_node_id ∈ V'); [|done].
      revert Hreach. apply (rtc_ind_r (λ z, z ∈ V') start_node_id); [done|].
      intros y z _ Hyz Hy. apply (Hclosed y z); [done|set_solver|done].
Qed.
End path_facts.



(** ** Restricted cycle check: when the answer is empty *)

Section detect_facts.
Import PyDict PyDictFacts.
Implicit Types (conns : list (string * Connection)) (st : cycle_state) (path : list string).

Local Arguments has_cycle : simpl never.

Lemma tc_first_step {A} (R : relation A) x z : tc R x z → ∃ y, R x y ∧ rtc R y z.
Proof.
  intros H. inversion H as [? ? Hxz|? y ? Hxy Hyz]; subst.
  - by exists z.
  - exists y. split; [done|]. by apply tc_rtc.
Qed.

(** A search from a node that reaches no cycle answers [False], reports
    nothing and leaves the recursion stack as it found it. *)
Lemma has_cycle_clean conns :
  ∀ fuel temp path st,
    cycle_free_from conns temp →
    (∀ y, y ∈ rec_stack st → tc (dep_edge conns) y temp) →
    has_cycle fuel conns temp path st = OutOfFuel
    ∨ ∃ st', has_cycle fuel conns temp path st = Ok (false, st')
             ∧ cycles st' = cycles st ∧ rec_stack st' = rec_stack st.
Proof.
  induction fuel as [|fuel IH]; intros temp path st Hclean Hstack; [by left|].
  rewrite has_cycle_unfold. case_bool_decide as Hrec.
  { destruct (Hclean temp); [done|]. by apply Hstack. }
  case_bool_decide as Hvis; [right; by exists st|].
  set (st1 := mkCycleState _ _ _).
  assert (∀ (cs : list (string * Connection)) st0,
            (∀ kc, kc ∈ cs → kc ∈ conns) →
            rec_stack st0 = {[temp]} ∪ rec_stack st →
            loop_until
              (λ conn st',
                 if bool_decide (from_node conn = temp) && is_dependency_edge conn
                 then has_cycle fuel conns (to_node conn) (path ++ [temp]) st'
                 else Ok (false, st')) (values cs) st0 = OutOfFuel
            ∨ ∃ st2,
                loop_until
                  (λ conn st',
                     if bool_decide (from_node conn = temp) && is_dependency_edge conn
                     then has_cycle fuel conns (to_node conn) (path ++ [temp]) st'
                     else Ok (false, st')) (values cs) st0 = Ok (false, st2)
                ∧ cycles st2 = cycles st0 ∧ rec_stack st2 = rec_stack st0) as Hloop.
  { induction cs as [|[k c] cs IHcs]; intros st0 Hcs Hst0; simpl.
    - right. by exists st0.
    - assert (∀ kc, kc ∈ cs → kc ∈ conns) as Hcs' by (intros kc ?; apply Hcs; by right).
      destruct (bool_decide (from_node c = temp) && is_dependency_edge c) eqn:Hedge.
      + apply andb_true_iff in Hedge as [Hfrom%bool_decide_eq_true Hdep].
        assert (dep_edge conns temp (to_node c)) as Hstep.
        { exists (k, c). split_and!; [apply Hcs; left|done..]. }
        destruct (IH (to_node c) (path ++ [temp]) st0) as [->|(st1' & -> & Hc1 & Hr1)].
        * intros y Hy. apply Hclean. by eapply rtc_l.
        * intros y. rewrite Hst0. intros [->%elem_of_singleton|Hy]%elem_of_union.
          -- by apply tc_once.
          -- eapply tc_r; [by apply Hstack|done].
        * by left.
        * destruct (IHcs st1') as [->|(st2 & -> & Hc2 & Hr2)]; [done|congruence|by left|].
          right. exists st2. split_and!; congruence.
      + by apply IHcs. }
  destruct (Hloop conns st1) as [->|(st2 & -> & Hc2 & Hr2)]; [done|done|by left|].
  right. eexists. split; [done|]. simpl. split; [done|].
  rewrite Hr2. unfold st1. simpl. apply set_eq. set_solver.
Qed.

Lemma detect_roots_clean conns fuel roots st :
  (∀ x, x ∈ roots → cycle_free_from conns x) →
  rec_stack st = ∅ → cycles st = [] →
  detect_roots fuel conns roots st = OutOfFuel
  ∨ ∃ st', detect_roots fuel conns roots st = Ok st' ∧ cycles st' = [].
Proof.
  revert st. induction roots as [|node roots IH]; intros st Hroots Hrec Hcyc; simpl.
  - right. by exists st.
  - assert (∀ x, x ∈ roots → cycle_free_from conns x) as Hroots'
      by (intros x ?; apply Hroots; by right).
    case_bool_decide; [by apply IH|].
    destruct (has_cycle_clean conns fuel node [] st) as [->|(st1 & -> & Hc1 & Hr1)].
    + apply Hroots. left.
    + intros y. rewrite Hrec. set_solver.
    + by left.
    + apply IH; [done|congruence..].
Qed.

(** The list of cycles only grows. *)
Lemma has_cycle_cycles_nil conns :
  ∀ fuel temp path st b st',
    has_cycle fuel conns temp path st = Ok (b, st') → cycles st' = [] → cycles st = [].
Proof.
  induction fuel as [|fuel IH]; intros temp path st b st' Hrun Hnil; [done|].
  rewrite has_cycle_unfold in Hrun. case_bool_decide as Hrec.
  { destruct (list_index temp path); [|done]. injection Hrun as _ <-. simpl in Hnil.
    by apply app_eq_nil in Hnil as [_ ?]. }
  case_bool_decide as Hvis; [by injection Hrun as _ <-|].
  assert (∀ (cs : list Connection) st0 b0 st2,
            loop_until
              (λ conn st',
                 if bool_decide (from_node conn = temp) && is_dependency_edge conn
                 then has_cycle fuel conns (to_node conn) (path ++ [temp]) st'
                 else Ok (false, st')) cs st0 = Ok (b0, st2) →
            cycles st2 = [] → cycles st0 = []) as Hloop.
  { induction cs as [|c cs IHcs]; intros st0 b0 st2 Hl H2; simpl in Hl.
    - by injection Hl as _ <-.
    - destruct (bool_decide (from_node c = temp) && is_dependency_edge c).
      + destruct (has_cycle fuel conns (to_node c) (path ++ [temp]) st0)
          as [[b1 st1]| |] eqn:Hcall; try done.
        destruct b1.
        * injection Hl as _ <-. by eapply IH.
        * eapply IH; [exact Hcall|]. by eapply IHcs.
      + by eapply IHcs. }
  destruct (loop_until _ _ _) as [[b2 st2]| |] eqn:Hl; try done.
  assert (cycles st2 = []) as H2.
  { destruct b2; by injection Hrun as _ <-. }
  by apply (Hloop _ _ _ _ Hl) in H2.
Qed.

Lemma detect_roots_cycles_nil conns fuel roots st st' :
  detect_roots fuel conns roots st = Ok st' → cycles st' = [] → cycles st = [].
Proof.
  revert st. induction roots as [|node roots IH]; intros st Hrun Hnil; simpl in Hrun.
  - by injection Hrun as <-.
  - case_bool_decide; [by eapply IH|].
    destruct (has_cycle fuel conns node [] st) as [[b st1]| |] eqn:Hcall; try done.
    eapply has_cycle_cycles_nil; [exact Hcall|]. by eapply IH.
Qed.

Lemma finished_closed_rtc conns st x y :
  finished_closed conns st → x ∈ visited st → x ∉ rec_stack st →
  rtc (dep_edge conns) x y → y ∈ visited st ∧ y ∉ rec_stack st.
Proof.
  intros [Hclosed _] Hx1 Hx2 Hreach. revert Hx1 Hx2.
  induction Hreach as [|x y z Hxy _ IH]; [done|].
  intros Hx1 Hx2. destruct (Hclosed x y Hx1 Hx2 Hxy). by apply IH.
Qed.

(** A search that ends with nothing reported has answered [False], has left
    the node it was called on, and has restored the recursion stack. *)
Lemma has_cycle_finished conns :
  ∀ fuel temp path st b st',
    has_cycle fuel conns temp path st = Ok (b, st') → cycles st' = [] →
    finished_closed conns st →
    b = false ∧ finished_closed conns st' ∧ rec_stack st' = rec_stack st
    ∧ visited st ⊆ visited st' ∧ temp ∈ visited st' ∧ temp ∉ rec_stack st'.
Proof.
  induction fuel as [|fuel IH]; intros temp path st b st' Hrun Hnil Hinv; [done|].
  rewrite has_cycle_unfold in Hrun. case_bool_decide as Hrec.
  { destruct (list_index temp path); [|done]. injection Hrun as _ <-. simpl in Hnil.
    by apply app_eq_nil in Hnil as [_ ?]. }
  case_bool_decide as Hvis; [injection Hrun as <- <-; by split_and!|].
  set (st1 := mkCycleState (cycles st) ({[temp]} ∪ visited st) ({[temp]} ∪ rec_stack st))
    in Hrun.
  assert (finished_closed conns st1) as Hinv1.
  { destruct Hinv as [Hclosed Hfree]. unfold st1. clear IH Hrun. split; simpl.
    - intros x y Hx1 Hx2 Hxy. destruct (Hclosed x y); [set_solver..|done|]. set_solver.
    - intros x Hx1 Hx2. apply Hfree; set_solver. }
  assert (∀ (cs : list (string * Connection)) st0 b0 st2,
            (∀ kc, kc ∈ cs → kc ∈ conns) →
            loop_until
              (λ conn st',
                 if bool_decide (from_node conn = temp) && is_dependency_edge conn
                 then has_cycle fuel conns (to_node conn) (path ++ [temp]) st'
                 else Ok (false, st')) (values cs) st0 = Ok (b0, st2) →
            cycles st2 = [] → finished_closed conns st0 →
            b0 = false ∧ finished_closed conns st2 ∧ rec_stack st2 = rec_stack st0
            ∧ visited st0 ⊆ visited st2
            ∧ ∀ kc, kc ∈ cs → from_node kc.2 = temp → is_dependency_edge kc.2 = true →
                    to_node kc.2 ∈ visited st2 ∧ to_node kc.2 ∉ rec_stack st2) as Hloop.
  { induction cs as [|[k c] cs IHcs]; intros st0 b0 st2 Hcs Hl H2 H0; simpl in Hl.
    - injection Hl as <- <-. split_and!; try done.
      intros kc Hkc. by apply elem_of_nil in Hkc.
    - assert (∀ kc, kc ∈ cs → kc ∈ conns) as Hcs' by (intros kc ?; apply Hcs; by right).
      destruct (bool_decide (from_node c = temp) && is_dependency_edge c) eqn:Hedge.
      + destruct (has_cycle fuel conns (to_node c) (path ++ [temp]) st0)
          as [[b1 st1']| |] eqn:Hcall; try done.
        assert (cycles st1' = []) as H1.
        { destruct b1; [by injection Hl as _ <-|].
          clear -Hl H2 IH. revert st1' Hl.
          induction cs as [|[k' c'] cs IHcs]; intros st1' Hl; simpl in Hl.
          - by injection Hl as _ <-.
          - destruct (bool_decide (from_node c' = temp) && is_dependency_edge c').
            + destruct (has_cycle fuel conns (to_node c') (path ++ [temp]) st1')
                as [[b3 st3]| |] eqn:Hcall; try done.
              eapply has_cycle_cycles_nil; [exact Hcall|].
              destruct b3; [by injection Hl as _ <-|]. by apply IHcs.
            + by apply IHcs. }
        destruct (IH _ _ _ _ _ Hcall H1 H0) as (-> & Hinv1' & Hr1 & Hv1 & Ht1 & Ht1').
        destruct (IHcs st1' b0 st2 Hcs' Hl H2 Hinv1') as (-> & Hinv2 & Hr2 & Hv2 & Hsucc).
        split_and!; [done|done|congruence|by etrans|].
        intros kc [->|Hkc]%elem_of_cons Hf Hd; [|by apply Hsucc].
        simpl. rewrite Hr2. split; [by apply Hv2|done].
      + destruct (IHcs st0 b0 st2 Hcs' Hl H2 H0) as (-> & Hinv2 & Hr2 & Hv2 & Hsucc).
        split_and!; try done.
        intros kc [->|Hkc]%elem_of_cons Hf Hd; [|by apply Hsucc].
        simpl in *. rewrite Hf, Hd in Hedge. by rewrite bool_decide_eq_true_2 in Hedge. }
  destruct (loop_until _ _ st1) as [[b2 st2]| |] eqn:Hl; try done.
  assert (cycles st2 = []) as H2.
  { destruct b2; by injection Hrun as _ <-. }
  destruct (Hloop conns st1 b2 st2 (λ _ H, H) Hl H2 Hinv1)
    as (-> & [Hclosed2 Hfree2] & Hr2 & Hv2 & Hsucc).
  injection Hrun as <- <-. simpl. unfold st1 in Hr2, Hv2. simpl in Hr2, Hv2.
  assert (∀ y, dep_edge conns temp y → y ∈ visited st2 ∧ y ∉ rec_stack st2) as Hsucc'.
  { intros y (kc & Hkc & Hf & <- & Hd). by apply Hsucc. }
  pose proof (finished_closed_rtc conns st2) as Hrtc.
  specialize (Hrtc) with (1 := conj Hclosed2 Hfree2).
  clear IH Hloop Hl Hinv Hinv1 Hsucc st1.
  split_and!.
  - done.
  - split; simpl.
    + intros x y Hx1 Hx2 Hxy. destruct (decide (x = temp)) as [->|Hne].
      * destruct (Hsucc' y Hxy). set_solver.
      * destruct (Hclosed2 x y); [done|set_solver|done|]. set_solver.
    + intros x Hx1 Hx2. destruct (decide (x = temp)) as [->|Hne].
      * intros (y & Hy & Hback)%tc_first_step. destruct (Hsucc' y Hy) as [Hy1 Hy2].
        destruct (Hrtc y temp); [done..|]. set_solver.
      * apply Hfree2; [done|set_solver].
  - rewrite Hr2. apply set_eq. set_solver.
  - set_solver.
  - set_solver.
  - set_solver.
Qed.

Lemma detect_roots_finished conns fuel roots st st' :
  detect_roots fuel conns roots st = Ok st' → cycles st' = [] →
  finished_closed conns st → rec_stack st = ∅ →
  finished_closed conns st' ∧ rec_stack st' = ∅ ∧ visited st ⊆ visited st'
  ∧ ∀ x, x ∈ roots → x ∈ visited st'.
Proof.
  revert st. induction roots as [|node roots IH]; intros st Hrun Hnil Hinv Hrec;
    simpl in Hrun.
  - injection Hrun as <-. split_and!; try done. intros x Hx. by apply elem_of_nil in Hx.
  - case_bool_decide as Hvis.
    + destruct (IH st Hrun Hnil Hinv Hrec) as (Hinv' & Hr' & Hv' & Hroots).
      split_and!; try done. intros x [->|Hx]%elem_of_cons; [set_solver|by apply Hroots].
    + destruct (has_cycle fuel conns node [] st) as [[b st1]| |] eqn:Hcall; try done.
      pose proof (detect_roots_cycles_nil _ _ _ _ _ Hrun Hnil) as H1.
      destruct (has_cycle_finished _ _ _ _ _ _ _ Hcall H1 Hinv)
        as (_ & Hinv1 & Hr1 & Hv1 & Hn1 & _).
      destruct (IH st1 Hrun Hnil Hinv1) as (Hinv' & Hr' & Hv' & Hroots); [congruence|].
      split_and!; [done|done|set_solver|].
      intros x [->|Hx]%elem_of_cons; [set_solver|by apply Hroots].
Qed.

Lemma finished_closed_init conns : finished_closed conns (mkCycleState [] ∅ ∅).
Proof. split; simpl; set_solver. Qed.
End detect_facts.

(** X10. Whenever [detect_circular_dependencies] returns, each list of its
    answer has at least two entries, starts and ends with the same node, and
    has a prerequisite or dependency connection from each entry to the
    next. *)
Theorem detected_cycles_are_closed self result :
  detect_circular_dependencies self = Ok result →
  Forall (closed_cycle (connections self)) result.
Proof. apply detect_circular_dependencies_closed. Qed.

Lemma detected_cycles_are_closed_witness :
  detect_circular_dependencies store_mutual = Ok [["A"; "B"; "A"]]
  ∧ Forall (closed_cycle (connections store_mutual)) [["A"; "B"; "A"]].
Proof.
  split; [by vm_compute|]. apply detected_cycles_are_closed. by vm_compute.
Defined.


(** ** Full-graph circular dependencies: when nothing is reported *)

Section no_finding_facts.
Import PyDict PyDictFacts.
Implicit Types (graph : list (string * list string)) (colors : gmap string dfs_color).
Local Arguments dfs_visit : simpl never.

Lemma list_index_elem x (l : list string) : x ∈ l → is_Some (list_index x l).
Proof.
  induction l as [|y l IH]; [by intros ?%elem_of_nil|]. simpl.
  destruct (decide (y = x)); [eauto|].
  intros [?|Hin]%elem_of_cons; [congruence|]. destruct (IH Hin) as [i ->]. simpl. eauto.
Qed.

Lemma color_of_insert colors x v y :
  color_of (<[x:=v]> colors) y = if decide (x = y) then v else color_of colors y.
Proof.
  unfold color_of. destruct (decide (x = y)) as [->|Hne].
  - by rewrite lookup_insert_eq.
  - by rewrite lookup_insert_ne.
Qed.

Lemma visit_until_issues_nil {S} (issues_of : S → list Issue)
    (visit : string → S → option (bool * S)) (l : list string) :
  (∀ x st b st', x ∈ l → visit x st = Some (b, st') →
                 issues_of st' = [] → issues_of st = []) →
  ∀ st b st', visit_until visit l st = Some (b, st') →
              issues_of st' = [] → issues_of st = [].
Proof.
  induction l as [|x l IH]; intros Hvisit st b st' Hrun Hnil; simpl in Hrun.
  - by injection Hrun as _ <-.
  - destruct (visit x st) as [[b1 st1]|] eqn:Hcall; [|done].
    apply (Hvisit x st b1 st1); [left|done|].
    destruct b1; [by injection Hrun as _ <-|].
    eapply IH; [|exact Hrun|done].
    intros y st0 b0 st0' Hy Hc Hn. apply (Hvisit y st0 b0 st0'); [by right|done..].
Qed.

(** The list of findings only grows. *)
Lemma dfs_visit_issues_nil graph :
  ∀ fuel node path colors issues b colors' issues',
    dfs_visit fuel graph node path (colors, issues) = Some (b, (colors', issues')) →
    issues' = [] → issues = [].
Proof.
  induction fuel as [|fuel IH]; intros node path colors issues b colors' issues' Hrun Hnil;
    [done|].
  rewrite dfs_visit_unfold in Hrun. destruct (default WHITE (colors !! node)).
  - destruct (visit_until _ _ _) as [[b2 [colors2 issues2]]|] eqn:Hl; [|done].
    assert (issues2 = []) as H2.
    { destruct b2; injection Hrun as _ _ <-; done. }
    apply (visit_until_issues_nil snd _ _) with (st := (<[node:=GRAY]> colors, issues))
      in Hl; [done| |done].
    intros x [c0 i0] b0 [c1 i1] _ Hcall. simpl. by eapply IH.
  - injection Hrun as _ _ <-. destruct (list_index node path); [|done].
    by apply app_eq_nil in Hnil as [_ ?].
  - by injection Hrun as _ _ <-.
Qed.

Lemma black_closed_rtc graph colors x y :
  black_closed graph colors → color_of colors x = BLACK →
  rtc (λ a b, b ∈ neighbors graph a) x y → color_of colors y = BLACK.
Proof.
  intros [Hclosed _] Hx Hreach. induction Hreach as [|x y z Hxy _ IH]; [done|].
  apply IH. by eapply Hclosed.
Qed.

(** A traversal that ends with nothing reported has answered [False] and
    has blackened the node it was called on; the gray nodes are those of
    before. *)
Lemma dfs_visit_finished graph :
  ∀ fuel node path colors issues b colors' issues',
    dfs_visit fuel graph node path (colors, issues) = Some (b, (colors', issues')) →
    issues' = [] →
    black_closed graph colors → (∀ x, color_of colors x = GRAY → x ∈ path) →
    b = false ∧ black_closed graph colors' ∧ color_of colors' node = BLACK
    ∧ (∀ x, color_of colors' x = GRAY ↔ color_of colors x = GRAY)
    ∧ (∀ x, color_of colors x = BLACK → color_of colors' x = BLACK).
Proof.
  induction fuel as [|fuel IH];
    intros node path colors issues b colors' issues' Hrun Hnil Hinv Hgray; [done|].
  rewrite dfs_visit_unfold in Hrun.
  destruct (default WHITE (colors !! node)) eqn:Hcol.
  - (* white *)
    assert (∀ (ns : list string) colors0 issues0 b0 colors2 issues2,
              visit_until (λ neighbor st', dfs_visit fuel graph neighbor (path ++ [node]) st')
                          ns (colors0, issues0) = Some (b0, (colors2, issues2)) →
              issues2 = [] → black_closed graph colors0 →
              (∀ x, color_of colors0 x = GRAY → x ∈ path ++ [node]) →
              b0 = false ∧ black_closed graph colors2
              ∧ (∀ x, color_of colors2 x = GRAY ↔ color_of colors0 x = GRAY)
              ∧ (∀ x, color_of colors0 x = BLACK → color_of colors2 x = BLACK)
              ∧ ∀ y, y ∈ ns → color_of colors2 y = BLACK) as Hloop.
    { induction ns as [|n ns IHns]; intros colors0 issues0 b0 colors2 issues2 Hl H2 H0 Hg0;
        simpl in Hl.
      - injection Hl as <- <- <-. split_and!; try done.
        intros y Hy. by apply elem_of_nil in Hy.
      - destruct (dfs_visit fuel graph n (path ++ [node]) (colors0, issues0))
          as [[b1 [colors1 issues1]]|] eqn:Hcall; [|done].
        assert (issues1 = []) as H1.
        { destruct b1; [by injection Hl as _ _ <-|].
          apply (visit_until_issues_nil snd _ _) with (st := (colors1, issues1)) in Hl;
            [done| |done].
          intros x [c0 i0] b3 [c3 i3] _ Hc. simpl. by eapply dfs_visit_issues_nil. }
        destruct (IH _ _ _ _ _ _ _ Hcall H1 H0 Hg0) as (-> & Hinv1 & Hn1 & Hg1 & Hb1).
        destruct (IHns _ _ _ _ _ Hl H2 Hinv1) as (-> & Hinv2 & Hg2 & Hb2 & Hns).
        { intros x Hx. by apply Hg0, Hg1. }
        split_and!; [done|done| | |].
        + intros x. by rewrite Hg2, Hg1.
        + intros x Hx. by apply Hb2, Hb1.
        + intros y [->|Hy]%elem_of_cons; [by apply Hb2|by apply Hns]. }
    destruct (visit_until _ _ _) as [[b2 [colors2 issues2]]|] eqn:Hl; [|done].
    assert (issues2 = []) as H2.
    { destruct b2; injection Hrun as _ _ <-; done. }
    destruct (Hloop _ _ _ _ _ _ Hl H2) as (-> & [Hclosed2 Hfree2] & Hg2 & Hb2 & Hns).
    { destruct Hinv as [Hclosed Hfree]. split.
      - intros x y. rewrite !color_of_insert.
        destruct (decide (node = x)) as [->|Hx]; [done|]. intros Hbx Hy.
        specialize (Hclosed x y Hbx Hy). destruct (decide (node = y)) as [<-|]; [|done].
        unfold color_of in Hclosed. congruence.
      - intros x. rewrite color_of_insert. destruct (decide (node = x)); [done|].
        apply Hfree. }
    { intros x. rewrite color_of_insert. destruct (decide (node = x)) as [->|].
      - intros _. apply elem_of_app. right. left.
      - intros Hx. apply elem_of_app. left. by apply Hgray. }
    injection Hrun as <- <- <-.
    assert (color_of colors2 node = GRAY) as Hnode.
    { apply Hg2. rewrite color_of_insert. by rewrite decide_True. }
    pose proof (black_closed_rtc graph colors2) as Hrtc.
    specialize Hrtc with (1 := conj Hclosed2 Hfree2).
    clear IH Hloop Hl.
    split_and!.
    + done.
    + split.
      * intros x y. rewrite !color_of_insert.
        destruct (decide (node = x)) as [->|Hx].
        -- intros _ Hy. destruct (decide (x = y)); [done|]. by apply Hns.
        -- intros Hbx Hy. destruct (decide (node = y)); [done|]. by eapply Hclosed2.
      * intros x. rewrite color_of_insert. destruct (decide (node = x)) as [->|Hx].
        -- intros _ (y & Hy & Hback)%tc_first_step.
           assert (color_of colors2 x = BLACK); [|congruence].
           apply (Hrtc y x); [by apply Hns|done].
        -- apply Hfree2.
    + rewrite color_of_insert. by rewrite decide_True.
    + intros x. rewrite color_of_insert. destruct (decide (node = x)) as [->|Hx].
      * unfold color_of. rewrite Hcol. done.
      * rewrite Hg2, color_of_insert. by rewrite decide_False.
    + intros x Hx. rewrite color_of_insert. destruct (decide (node = x)); [done|].
      apply Hb2. rewrite color_of_insert. by rewrite decide_False.
  - (* gray *)
    injection Hrun as _ _ <-.
    destruct (list_index_elem node path) as [i Hi].
    { apply Hgray. done. }
    rewrite Hi in Hnil. by apply app_eq_nil in Hnil as [_ ?].
  - (* black *)
    injection Hrun as <- <- <-. by split_and!.
Qed.

Lemma visit_roots_issues_nil graph fuel roots :
  ∀ colors issues colors' issues',
    visit_roots fuel graph roots (colors, issues) = Some (colors', issues') →
    issues' = [] → issues = [].
Proof.
  induction roots as [|node roots IH]; intros colors issues colors' issues' Hrun Hnil;
    simpl in Hrun.
  - by injection Hrun as _ <-.
  - assert (∀ b c1 i1, dfs_visit fuel graph node [] (colors, issues) = Some (b, (c1, i1)) →
              visit_roots fuel graph roots (c1, i1) = Some (colors', issues') →
              issues = []) as Hcall.
    { intros b c1 i1 H1 H2. eapply dfs_visit_issues_nil; [exact H1|]. by eapply IH. }
    destruct (colors !! node) as [[]|];
      try (by eapply IH);
      (destruct (dfs_visit fuel graph node [] (colors, issues)) as [[b [c1 i1]]|] eqn:H1;
         [|done]; by eapply Hcall).
Qed.

Lemma visit_roots_finished graph fuel roots :
  ∀ colors issues colors' issues',
    visit_roots fuel graph roots (colors, issues) = Some (colors', issues') →
    issues' = [] →
    black_closed graph colors → (∀ x, color_of colors x ≠ GRAY) →
    black_closed graph colors' ∧ (∀ x, color_of colors' x ≠ GRAY)
    ∧ (∀ x, color_of colors x = BLACK → color_of colors' x = BLACK)
    ∧ ∀ x, x ∈ roots → color_of colors' x = BLACK.
Proof.
  induction roots as [|node roots IH];
    intros colors issues colors' issues' Hrun Hnil Hinv Hgray; simpl in Hrun.
  - injection Hrun as <- <-. split_and!; try done. intros x Hx. by apply elem_of_nil in Hx.
  - assert (∀ b c1 i1, dfs_visit fuel graph node [] (colors, issues) = Some (b, (c1, i1)) →
              visit_roots fuel graph roots (c1, i1) = Some (colors', issues') →
              black_closed graph colors' ∧ (∀ x, color_of colors' x ≠ GRAY)
              ∧ (∀ x, color_of colors x = BLACK → color_of colors' x = BLACK)
              ∧ ∀ x, x ∈ node :: roots → color_of colors' x = BLACK) as Hcall.
    { intros b c1 i1 H1 H2.
      pose proof (visit_roots_issues_nil _ _ _ _ _ _ _ H2 Hnil) as Hi1.
      destruct (dfs_visit_finished _ _ _ _ _ _ _ _ _ H1 Hi1 Hinv) as (_ & Hinv1 & Hn1 & Hg1 & Hb1).
      { intros x Hx. by apply Hgray in Hx. }
      destruct (IH _ _ _ _ H2 Hnil Hinv1) as (Hinv' & Hg' & Hb' & Hroots).
      { intros x Hx. apply Hg1 in Hx. by apply Hgray in Hx. }
      split_and!; [done|done| |].
      - intros x Hx. by apply Hb', Hb1.
      - intros x [->|Hx]%elem_of_cons; [by apply Hb'|by apply Hroots]. }
    destruct (colors !! node) as [[]|] eqn:Hcol.
    + destruct (dfs_visit fuel graph node [] (colors, issues)) as [[b [c1 i1]]|] eqn:H1;
        [|done]. by eapply Hcall.
    + destruct (Hgray node). unfold color_of. by rewrite Hcol.
    + destruct (IH _ _ _ _ Hrun Hnil Hinv Hgray) as (Hinv' & Hg' & Hb' & Hroots).
      split_and!; try done.
      intros x [->|Hx]%elem_of_cons; [|by apply Hroots].
      apply Hb'. unfold color_of. by rewrite Hcol.
    + destruct (dfs_visit fuel graph node [] (colors, issues)) as [[b [c1 i1]]|] eqn:H1;
        [|done]. by eapply Hcall.
Qed.

Lemma neighbors_keys graph x y : y ∈ neighbors graph x → x ∈ keys graph.
Proof.
  unfold neighbors. destruct (get x graph) as [l|] eqn:Hg; simpl.
  - intros _. apply list_elem_of_fmap. exists (x, l). split; [done|].
    by apply get_Some_elem.
  - by intros ?%elem_of_nil.
Qed.

Lemma validate_circular_dependencies_nil conns :
  _validate_circular_dependencies conns = Some [] → acyclic conns.
Proof.
  unfold _validate_circular_dependencies.
  destruct (visit_roots _ _ _ _) as [[colors' issues']|] eqn:Hrun; [|done].
  simpl. intros [= ->].
  destruct (visit_roots_finished _ _ _ _ _ _ _ Hrun eq_refl)
    as ([_ Hfree] & _ & _ & Hroots).
  - split; intros x; unfold color_of; by rewrite lookup_empty.
  - intros x. unfold color_of. by rewrite lookup_empty.
  - intros x Hx.
    assert (tc (λ a b, b ∈ neighbors (build_graph conns) a) x x) as Hx'.
    { eapply (tc_congruence id); [|exact Hx]. intros a b. apply neighbors_build_graph. }
    apply (Hfree x); [|done]. apply Hroots.
    apply tc_first_step in Hx' as (y & Hy & _). by eapply neighbors_keys.
Qed.
End no_finding_facts.


(** ** Further analyses of the validation engine *)

Ltac levels :=
  repeat first [apply List.Forall_nil
               | apply List.Forall_cons; [first [by left|by right]|]].

Section analysis_facts.
Import PyDict PyDictFacts.
Implicit Types (conns : list (string * Connection)).

Lemma flat_map_eq_nil {A B} (f : A → list B) (l : list A) :
  flat_map f l = [] ↔ ∀ x, x ∈ l → f x = [].
Proof.
  induction l as [|a l IH]; simpl.
  - split; [|done]. intros _ x Hx. by apply elem_of_nil in Hx.
  - split.
    + intros [Ha Hl]%app_eq_nil x [->|Hx]%elem_of_cons; [done|]. by apply IH.
    + intros H. rewrite (H a) by left. simpl. apply IH. intros x Hx. apply H. by right.
Qed.

Lemma Forall_flat_map {A B} (P : B → Prop) (f : A → list B) (l : list A) :
  (∀ x, x ∈ l → Forall P (f x)) → Forall P (flat_map f l).
Proof.
  induction l as [|a l IH]; intros H; simpl; [constructor|].
  apply Forall_app. split; [apply H; left|]. apply IH. intros x Hx. apply H. by right.
Qed.

Lemma elem_of_flat_map {A B} (f : A → list B) (l : list A) y :
  y ∈ flat_map f l ↔ ∃ x, x ∈ l ∧ y ∈ f x.
Proof.
  rewrite list_elem_of_In, in_flat_map. split.
  - intros (x & Hx & Hy). exists x. by rewrite !list_elem_of_In.
  - intros (x & Hx & Hy). exists x. by rewrite <- !list_elem_of_In.
Qed.

Lemma findings_of_flat_map {A} (P : A → Prop) (mk : A → Issue) (f : A → list Issue)
    (l : list A) :
  (∀ x, x ∈ l → (P x ∧ f x = [mk x]) ∨ (¬ P x ∧ f x = [])) →
  findings_of P mk l (flat_map f l).
Proof.
  induction l as [|a l IH]; intros H; simpl; [constructor|].
  assert (findings_of P mk l (flat_map f l)) as Hl.
  { apply IH. intros x Hx. apply H. by right. }
  destruct (H a) as [[HP ->]|[HP ->]]; [left|..]; simpl.
  - by apply findings_flag.
  - by apply findings_pass.
Qed.

Lemma is_empty_text_spec s : is_empty_text s = true ↔ is_blank s.
Proof.
  unfold is_empty_text. rewrite orb_true_iff, !bool_decide_eq_true, <- strip_blank.
  split; [|by right]. by intros [->|?].
Qed.

Lemma has_outgoing_spec conns x :
  match get x (build_graph conns) with
  | None => true
  | Some targets => bool_decide (length targets = 0)
  end = true ↔ ¬ has_outgoing conns x.
Proof.
  assert (neighbors (build_graph conns) x = [] ↔ ¬ has_outgoing conns x) as Hn.
  { split.
    - intros Hnil ([k c] & Hin & Hf).
      assert (to_node c ∈ neighbors (build_graph conns) x) as Hy.
      { apply neighbors_build_graph. by exists (k, c). }
      rewrite Hnil in Hy. by apply elem_of_nil in Hy.
    - intros Hnone. destruct (neighbors (build_graph conns) x) as [|y l] eqn:Hl; [done|].
      destruct Hnone. assert (y ∈ neighbors (build_graph conns) x) as Hy.
      { rewrite Hl. left. }
      apply neighbors_build_graph in Hy as (kc & ? & ? & ?). by exists kc. }
  rewrite <- Hn. unfold neighbors.
  destruct (get x (build_graph conns)) as [l|]; simpl; [|done].
  rewrite bool_decide_eq_true. by destruct l.
Qed.

Lemma NodeType_value_no_end t : NodeType_value t ∉ ["end"; "complete"].
Proof. destruct t; by apply (bool_decide_unpack _). Qed.

Lemma has_end_word_spec title :
  existsb (λ end_word, str_in end_word (lower title)) end_words = true
  ↔ has_end_word title.
Proof.
  rewrite existsb_exists. unfold has_end_word. split.
  - intros (w & Hw & Hs). exists w. split; [by apply list_elem_of_In|].
    by apply str_in_spec.
  - intros (w & Hw & Hs). exists w. split; [by apply list_elem_of_In|].
    by apply str_in_spec.
Qed.

Lemma dead_end_issues_spec conns node_id (node : BaseNode) :
  (¬ has_end_word (title node) ∧ ¬ has_outgoing conns node_id
   ∧ dead_end_issues (build_graph conns) node_id node = [dead_end_issue node_id node])
  ∨ (¬ (¬ has_end_word (title node) ∧ ¬ has_outgoing conns node_id)
     ∧ dead_end_issues (build_graph conns) node_id node = []).
Proof.
  unfold dead_end_issues.
  destruct (existsb _ end_words) eqn:Hw.
  { right. split; [|done]. apply has_end_word_spec in Hw. tauto. }
  assert (¬ has_end_word (title node)) as Hnw.
  { rewrite <- has_end_word_spec. congruence. }
  rewrite bool_decide_eq_false_2 by apply NodeType_value_no_end.
  destruct (match get node_id (build_graph conns) with
            | None => true | Some targets => bool_decide (length targets = 0) end) eqn:Ho.
  - left. apply has_outgoing_spec in Ho. done.
  - right. split; [|done]. rewrite <- has_outgoing_spec. intros [_ ?]. congruence.
Qed.

Lemma elem_of_connected_nodes conns x :
  x ∈ connected_nodes conns ↔ has_incoming conns x ∨ has_outgoing conns x.
Proof.
  unfold connected_nodes, values, has_incoming, has_outgoing.
  assert (∀ (cs : list Connection) (s : gset string),
            x ∈ foldl (λ s conn, {[to_node conn]} ∪ ({[from_node conn]} ∪ s)) s cs
            ↔ x ∈ s ∨ ∃ c, c ∈ cs ∧ (to_node c = x ∨ from_node c = x)) as Hfold.
  { induction cs as [|c cs IH]; intros s; simpl.
    - split; [by left|]. intros [?|(c & Hc & _)]; [done|]. by apply elem_of_nil in Hc.
    - rewrite IH. split.
      + intros [Hx|(c' & Hc' & Hx)].
        * apply elem_of_union in Hx as [Hx%elem_of_singleton|Hx].
          { right. exists c. split; [left|by left]. }
          apply elem_of_union in Hx as [Hx%elem_of_singleton|Hx]; [|by left].
          right. exists c. split; [left|by right].
        * right. exists c'. split; [by right|done].
      + intros [Hx|(c' & [->|Hc']%elem_of_cons & Hx)].
        * left. set_solver.
        * left. set_solver.
        * right. by exists c'. }
  rewrite Hfold. split.
  - intros [?|(c & ([k c'] & -> & Hin)%list_elem_of_fmap & [Hx|Hx])]; [set_solver|..].
    + left. by exists (k, c').
    + right. by exists (k, c').
  - intros [([k c] & Hin & Hx)|([k c] & Hin & Hx)]; right; exists c;
      (split; [apply list_elem_of_fmap; by exists (k, c)|]); [by left|by right].
Qed.

Lemma is_start_dialogue_spec (node : Node) :
  is_start_dialogue node = true ↔ starts_a_dialogue node.
Proof.
  unfold is_start_dialogue, starts_a_dialogue.
  destruct (as_dialogue node) as [d|].
  - rewrite str_in_spec. split; [by split; [eauto|]|by intros [_ ?]].
  - split; [done|]. by intros [[? ?] _].
Qed.

Lemma orphaned_node_issues_spec conns node_id (node : Node) :
  (unconnected conns node_id ∧ ¬ starts_a_dialogue node
   ∧ orphaned_node_issues (connected_nodes conns) node_id node
     = [orphaned_node_issue node_id node])
  ∨ (¬ (unconnected conns node_id ∧ ¬ starts_a_dialogue node)
     ∧ orphaned_node_issues (connected_nodes conns) node_id node = []).
Proof.
  unfold orphaned_node_issues, unconnected. case_bool_decide as Hc.
  - rewrite elem_of_connected_nodes in Hc.
    destruct (is_start_dialogue node) eqn:Hs; simpl.
    + right. split; [|done]. apply is_start_dialogue_spec in Hs. tauto.
    + left. split_and!; [tauto..| |done].
      rewrite <- is_start_dialogue_spec. congruence.
  - right. split; [|done].
    rewrite elem_of_connected_nodes in Hc. tauto.
Qed.

Lemma dfs_visit_issues_level graph :
  ∀ fuel node path colors issues b colors' issues',
    dfs_visit fuel graph node path (colors, issues) = Some (b, (colors', issues')) →
    Forall error_or_warning issues → Forall error_or_warning issues'.
Proof.
  induction fuel as [|fuel IH]; intros node path colors issues b colors' issues' Hrun Hlv;
    [done|].
  rewrite dfs_visit_unfold in Hrun. destruct (default WHITE (colors !! node)).
  - assert (∀ (ns : list string) st b0 st2,
              visit_until (λ neighbor st', dfs_visit fuel graph neighbor (path ++ [node]) st')
                          ns st = Some (b0, st2) →
              Forall error_or_warning st.2 → Forall error_or_warning st2.2) as Hloop.
    { induction ns as [|n ns IHns]; intros st b0 st2 Hl H0; simpl in Hl.
      - by injection Hl as _ <-.
      - destruct st as [c0 i0].
        destruct (dfs_visit fuel graph n (path ++ [node]) (c0, i0))
          as [[b1 [c1 i1]]|] eqn:Hcall; [|done].
        assert (Forall error_or_warning i1) as H1 by (by eapply IH).
        destruct b1; [by injection Hl as _ <-|]. by eapply IHns. }
    destruct (visit_until _ _ _) as [[b2 [colors2 issues2]]|] eqn:Hl; [|done].
    apply Hloop in Hl; [|done]. simpl in Hl.
    destruct b2; injection Hrun as _ _ <-; done.
  - injection Hrun as _ _ <-. destruct (list_index node path); [|done].
    apply Forall_app. split; [done|]. constructor; [by left|constructor].
  - by injection Hrun as _ _ <-.
Qed.

Lemma visit_roots_issues_level graph fuel roots :
  ∀ colors issues st',
    visit_roots fuel graph roots (colors, issues) = Some st' →
    Forall error_or_warning issues → Forall error_or_warning st'.2.
Proof.
  induction roots as [|node roots IH]; intros colors issues st' Hrun Hlv; simpl in Hrun.
  - by injection Hrun as <-.
  - assert (∀ b c1 i1, dfs_visit fuel graph node [] (colors, issues) = Some (b, (c1, i1)) →
              visit_roots fuel graph roots (c1, i1) = Some st' →
              Forall error_or_warning st'.2) as Hcall.
    { intros b c1 i1 H1 H2. eapply IH; [exact H2|]. by eapply dfs_visit_issues_level. }
    destruct (colors !! node) as [[]|];
      try (by eapply IH);
      (destruct (dfs_visit fuel graph node [] (colors, issues)) as [[b [c1 i1]]|] eqn:H1;
         [|done]; by eapply Hcall).
Qed.

Lemma validate_conditions_level (nodes : list (string * BaseNode)) conns :
  Forall error_or_warning (_validate_conditions nodes conns).
Proof.
  unfold _validate_conditions. apply Forall_app. split; apply Forall_flat_map.
  - intros kn _. unfold node_conditions_issues. apply Forall_flat_map. intros c _.
    destruct (negb _); repeat constructor.
  - intros kc _. unfold connection_condition_issues.
    destruct (_ && _); repeat constructor.
Qed.
Lemma validate_basic_nodes_level nodes :
  Forall error_or_warning (_validate_basic_nodes nodes).
Proof.
  apply Forall_flat_map. intros kn _. unfold basic_node_issues.
  apply Forall_app; split; [|apply Forall_app; split].
  - destruct (is_empty_text _); levels.
  - destruct (as_dialogue _); [|levels]. destruct (is_empty_text _); levels.
  - destruct (as_quest _); [|levels]. case_bool_decide; levels.
Qed.

Lemma validate_connections_level {N} conns (nodes : list (string * N)) :
  Forall error_or_warning (_validate_connections conns nodes).
Proof.
  apply Forall_flat_map. intros kc _. unfold connection_issues.
  apply Forall_app; split; destruct (negb _); levels.
Qed.

Lemma validate_circular_dependencies_level conns circular :
  _validate_circular_dependencies conns = Some circular →
  Forall error_or_warning circular.
Proof.
  unfold _validate_circular_dependencies.
  destruct (visit_roots _ _ _ _) as [st'|] eqn:Hv; [|done]. intros [= <-].
  eapply visit_roots_issues_level; [exact Hv|constructor].
Qed.

Lemma validate_dead_ends_level (nodes : list (string * BaseNode)) conns :
  Forall error_or_warning (_validate_dead_ends nodes conns).
Proof.
  apply Forall_flat_map. intros kn _.
  destruct (dead_end_issues_spec conns kn.1 kn.2) as [(_ & _ & ->)|[_ ->]]; levels.
Qed.

Lemma validate_orphaned_nodes_level nodes conns :
  Forall error_or_warning (_validate_orphaned_nodes nodes conns).
Proof.
  apply Forall_flat_map. intros kn _.
  destruct (orphaned_node_issues_spec conns kn.1 kn.2) as [(_ & _ & ->)|[_ ->]]; levels.
Qed.

Lemma validate_resource_requirements_level (nodes : list (string * BaseNode)) conns :
  Forall error_or_warning (_validate_resource_requirements nodes conns).
Proof.
  apply Forall_flat_map. intros kn _. unfold resource_issues.
  apply Forall_flat_map. intros ra _. repeat case_bool_decide; levels.
Qed.

Lemma validate_quest_chains_level nodes conns :
  Forall error_or_warning (_validate_quest_chains nodes conns).
Proof.
  apply Forall_flat_map. intros kn _. unfold quest_chain_issues.
  destruct (as_quest _); [|levels]. apply Forall_app. split.
  - destruct (_ && _); levels.
  - apply Forall_flat_map. intros obj _. apply Forall_flat_map. intros dep _.
    case_bool_decide; levels.
Qed.

Lemma validate_dialogue_flows_level nodes conns :
  Forall error_or_warning (_validate_dialogue_flows nodes conns).
Proof.
  apply Forall_flat_map. intros kn _. unfold dialogue_flow_issues.
  destruct (as_dialogue _); [|levels]. apply Forall_app. split.
  - destruct (_ && _); levels.
  - destruct (_ && _); levels.
Qed.
End analysis_facts.

(** X13. The basic-node analysis reports nothing exactly when no title is
    empty or made of white space only, no dialogue node has such a text, and
    every quest node has an objective. *)
Theorem basic_nodes_clean_iff nodes :
  _validate_basic_nodes nodes = []
  ↔ ∀ k n, (k, n) ∈ nodes →
      ¬ is_blank (title (base n))
      ∧ (∀ d, as_dialogue n = Some d → ¬ is_blank (text d))
      ∧ (∀ q, as_quest n = Some q → objectives q ≠ []).
Proof.
  unfold _validate_basic_nodes. rewrite flat_map_eq_nil.
  assert (∀ k n,
            basic_node_issues k n = []
            ↔ ¬ is_blank (title (base n))
              ∧ (∀ d, as_dialogue n = Some d → ¬ is_blank (text d))
              ∧ (∀ q, as_quest n = Some q → objectives q ≠ [])) as Hnode.
  { intros k n. unfold basic_node_issues.
    destruct (is_empty_text (title (base n))) eqn:Ht.
    { apply is_empty_text_spec in Ht. split; [done|]. by intros [? _]. }
    assert (¬ is_blank (title (base n))) as Ht'.
    { rewrite <- is_empty_text_spec. congruence. }
    simpl.
    assert (match as_dialogue n with
            | Some d => if is_empty_text (text d) then [empty_text_issue k n] else []
            | None => []
            end = [] ↔ ∀ d, as_dialogue n = Some d → ¬ is_blank (text d)) as Hd.
    { destruct (as_dialogue n) as [d|]; [|done].
      destruct (is_empty_text (text d)) eqn:Hd.
      - apply is_empty_text_spec in Hd. split; [done|]. intros H. by destruct (H d).
      - split; [|done]. intros _ ? [= <-]. rewrite <- is_empty_text_spec. congruence. }
    assert (match as_quest n with
            | Some q =>
                if bool_decide (length (objectives q) = 0)
                then [no_objectives_issue k n] else []
            | None => []
            end = [] ↔ ∀ q, as_quest n = Some q → objectives q ≠ []) as Hq.
    { destruct (as_quest n) as [q|]; [|done]. case_bool_decide as Hq.
      - apply nil_length_inv in Hq. split; [done|]. intros H. by destruct (H q).
      - split; [|done]. intros _ ? [= <-] Hnil. by rewrite Hnil in Hq. }
    rewrite <- Hd, <- Hq. split.
    - by intros [? ?]%app_eq_nil.
    - intros (_ & -> & ->). done. }
  split.
  - intros H k n Hin. apply (Hnode k n). by apply (H (k, n)).
  - intros H [k n] Hin. apply Hnode. by apply (H k n).
Qed.

(** X14. The orphan analysis emits, in the order of the node dict, one
    warning for each node that is neither source nor destination of any
    connection, unless the node is a dialogue node whose title holds the
    word start in any case of its letters; it emits nothing else. *)
Theorem orphaned_findings nodes conns :
  findings_of (λ kn, unconnected conns kn.1 ∧ ¬ starts_a_dialogue kn.2)
              (λ kn, orphaned_node_issue kn.1 kn.2)
              nodes (_validate_orphaned_nodes nodes conns).
Proof.
  unfold _validate_orphaned_nodes. apply findings_of_flat_map. intros [k n] _. simpl.
  destruct (orphaned_node_issues_spec conns k n) as [(? & ? & ?)|[? ?]]; [left|right]; done.
Qed.

(** X15. The dead-end analysis emits, in the order of the node dict, one
    warning for each node that no connection leaves, unless the title of the
    node holds one of the words end, finish, complete and exit in any case
    of its letters; it emits nothing else. The type of a node never exempts
    it: no node type has the value end or complete. *)
Theorem dead_end_findings nodes conns :
  findings_of (λ kn, ¬ has_end_word (title kn.2) ∧ ¬ has_outgoing conns kn.1)
              (λ kn, dead_end_issue kn.1 kn.2)
              nodes (_validate_dead_ends nodes conns).
Proof.
  unfold _validate_dead_ends. apply findings_of_flat_map. intros [k n] _. simpl.
  destruct (dead_end_issues_spec conns k n) as [(? & ? & ?)|[? ?]]; [left|right]; done.
Qed.

(** X16. Every node the orphan analysis flags is flagged as a dead end as
    well, unless its title holds one of the end words. *)
Theorem orphan_is_dead_end nodes conns k :
  k ∈ issue_targets (_validate_orphaned_nodes nodes conns) →
  (∀ n, (k, n) ∈ nodes → ¬ has_end_word (title (base n))) →
  k ∈ issue_targets (_validate_dead_ends (base_nodes nodes) conns).
Proof.
  unfold issue_targets, _validate_orphaned_nodes, _validate_dead_ends.
  rewrite !list_elem_of_omap.
  intros (i & Hi & Hk) Hword.
  apply elem_of_flat_map in Hi as ([k' n] & Hin & Hi). simpl in Hi.
  destruct (orphaned_node_issues_spec conns k' n) as [([_ Hout] & _ & Heq)|[_ Heq]];
    rewrite Heq in Hi; [|by apply elem_of_nil in Hi].
  apply list_elem_of_singleton in Hi as ->. simpl in Hk. injection Hk as ->.
  exists (dead_end_issue k (base n)). split; [|done].
  apply elem_of_flat_map. exists (k, base n). split.
  - unfold base_nodes. apply list_elem_of_fmap. by exists (k, n).
  - simpl. destruct (dead_end_issues_spec conns k (base n)) as [(_ & _ & ->)|[Hno _]].
    + left.
    + destruct Hno. split; [by apply Hword|done].
Qed.

Lemma orphan_is_dead_end_witness :
  "D" ∈ issue_targets
          (_validate_dead_ends
             (base_nodes (prod_map id (λ b, mkNode b IsBaseNode) <$> nodes_ABD))
             connections_AB).
Proof.
  apply orphan_is_dead_end.
  - by apply (bool_decide_unpack _); vm_compute.
  - intros n Hin. assert (title (base n) = "D") as ->.
    { unfold nodes_ABD in Hin. simpl in Hin.
      apply elem_of_cons in Hin as [[=]|Hin].
      apply elem_of_cons in Hin as [[=]|Hin].
      apply elem_of_cons in Hin as [[= ->]|Hin]; [done|].
      by apply elem_of_nil in Hin. }
    rewrite <- has_end_word_spec. by vm_compute.
Defined.

(** X17. The resource analysis reports nothing exactly when every amount a
    node requires lies between 0 and 999999, both included; the
    requirements of the connections play no part. *)
Theorem resource_requirements_clean_iff nodes conns :
  _validate_resource_requirements nodes conns = []
  ↔ ∀ k n resource amount,
      (k, n) ∈ nodes → (resource, amount) ∈ n_required_resources n →
      (0 ≤ amount ≤ 999999)%Z.
Proof.
  unfold _validate_resource_requirements. rewrite flat_map_eq_nil. split.
  - intros H k n resource amount Hin Hra. specialize (H (k, n) Hin). simpl in H.
    unfold resource_issues in H. rewrite flat_map_eq_nil in H.
    specialize (H (resource, amount) Hra). simpl in H.
    repeat case_bool_decide; try done. lia.
  - intros H [k n] Hin. simpl. unfold resource_issues. apply flat_map_eq_nil.
    intros [resource amount] Hra. simpl. specialize (H k n resource amount Hin Hra).
    rewrite !bool_decide_eq_false_2 by lia. done.
Qed.

(** X18. The quest-chain analysis reports nothing exactly when every quest
    node with a positive time limit can fail and every dependency of an
    objective names an objective of the same quest. *)
Theorem quest_chains_clean_iff nodes conns :
  _validate_quest_chains nodes conns = []
  ↔ ∀ k n q, (k, n) ∈ nodes → as_quest n = Some q →
      ((0 < time_limit q)%Z → can_fail q = true)
      ∧ ∀ obj dep, obj ∈ objectives q → dep ∈ dependencies obj →
                   dep ∈ o_id <$> objectives q.
Proof.
  unfold _validate_quest_chains. rewrite flat_map_eq_nil. split.
  - intros H k n q Hin Hq. specialize (H (k, n) Hin). simpl in H.
    unfold quest_chain_issues in H. rewrite Hq in H.
    apply app_eq_nil in H as [Ht Hd]. split.
    + intros Hpos. destruct (can_fail q); [done|].
      rewrite bool_decide_eq_true_2 in Ht by lia. done.
    + intros obj dep Hobj Hdep. unfold objective_dependency_issues in Hd.
      rewrite flat_map_eq_nil in Hd. specialize (Hd obj Hobj). simpl in Hd.
      rewrite flat_map_eq_nil in Hd. specialize (Hd dep Hdep). simpl in Hd.
      case_bool_decide as Hno; [done|]. first [done|by apply dec_stable].
  - intros H [k n] Hin. simpl. unfold quest_chain_issues.
    destruct (as_quest n) as [q|] eqn:Hq; [|done].
    destruct (H k n q Hin Hq) as [Ht Hd]. apply app_nil. split.
    + case_bool_decide as Hpos; [|done]. rewrite Ht by lia. done.
    + apply flat_map_eq_nil. intros obj Hobj. apply flat_map_eq_nil. intros dep Hdep.
      rewrite bool_decide_eq_false_2; [done|]. intros Hno. apply Hno. by eapply Hd.
Qed.

(** X19. The dialogue-flow analysis reports nothing exactly when every
    dialogue node of type choice has a choice and every hub dialogue has a
    return text. *)
Theorem dialogue_flows_clean_iff nodes conns :
  _validate_dialogue_flows nodes conns = []
  ↔ ∀ k n d, (k, n) ∈ nodes → as_dialogue n = Some d →
      (node_type (base n) = NT_CHOICE → choices d ≠ [])
      ∧ (is_hub d = true → hub_return_text d ≠ "").
Proof.
  unfold _validate_dialogue_flows. rewrite flat_map_eq_nil. split.
  - intros H k n d Hin Hd. specialize (H (k, n) Hin). simpl in H.
    unfold dialogue_flow_issues in H. rewrite Hd in H.
    apply app_eq_nil in H as [Hc Hh]. split.
    + intros Hty Hnil. rewrite Hty, Hnil in Hc. done.
    + intros Hhub Hnil. rewrite Hhub, Hnil in Hh. done.
  - intros H [k n] Hin. simpl. unfold dialogue_flow_issues.
    destruct (as_dialogue n) as [d|] eqn:Hd; [|done].
    destruct (H k n d Hin Hd) as [Hc Hh]. apply app_nil. split.
    + case_bool_decide as Hty; [|done]. simpl.
      rewrite bool_decide_eq_false_2; [done|]. intros Hlen%nil_length_inv.
      apply Hc; [|done]. by destruct (node_type (base n)).
    + destruct (is_hub d); [|done]. simpl.
      rewrite bool_decide_eq_false_2; [done|]. by apply Hh.
Qed.


(** ** Importing twice *)

Section import_facts.
Import PyDict PyDictFacts.
Implicit Types (self : NodeManager) (c : Connection) (ns : list (string * BaseNode)).

Lemma import_connection_of_data uuid data self c :
  connection_of_data uuid data = Some c →
  import_connection uuid data self = import_connection "" (export_connection c) self.
Proof.
  intros Hc. unfold import_connection. by rewrite Hc, connection_of_data_export.
Qed.

Lemma import_loop_exported uuid4 uuid4' i j (cs : list Connection) self :
  import_loop uuid4 i (export_connection <$> cs) self
  = import_loop uuid4' j (export_connection <$> cs) self.
Proof.
  revert i j self. induction cs as [|c cs IH]; intros i j self; simpl; [done|].
  rewrite (import_connection_of_data (uuid4 i) _ _ c) by apply connection_of_data_export.
  rewrite (import_connection_of_data (uuid4' j) _ _ c) by apply connection_of_data_export.
  apply IH.
Qed.

Lemma import_loop_imported uuid4 i data self :
  import_loop uuid4 i data self
  = import_loop uuid4 0 (export_connection <$> imported_connections uuid4 i data) self.
Proof.
  revert i self. induction data as [|d data IH]; intros i self; simpl; [done|].
  destruct (connection_of_data (uuid4 i) d) as [c|] eqn:Hc.
  - rewrite fmap_cons. simpl. rewrite IH.
    rewrite (import_connection_of_data _ _ _ c Hc).
    rewrite (import_connection_of_data (uuid4 0) _ _ c) by apply connection_of_data_export.
    apply import_loop_exported.
  - rewrite IH. unfold import_connection. by rewrite Hc.
Qed.

Lemma update_port_fix pid f (ps : list Port) p :
  find_port pid ps = Some p → f p = p → update_port pid f ps = ps.
Proof.
  unfold find_port. induction ps as [|p0 ps IH]; simpl; [done|].
  case_bool_decide as Hid.
  - intros [= ->] Hf. rewrite decide_True by done. by rewrite Hf.
  - intros Hp Hf. rewrite decide_False by done. by rewrite IH.
Qed.

Lemma mutate_port_fix nid pid f ns p :
  port_at nid pid ns = Some p → f p = p → mutate_port nid pid f ns = ns.
Proof.
  unfold port_at, mutate_port. destruct (get nid ns) as [n|] eqn:Hn; [|done].
  intros Hp Hf. rewrite (update_port_fix _ _ _ p), set_ports_same by done.
  by apply set_same.
Qed.

Lemma add_peer_once_fix x p : x ∈ connected_to p → add_peer_once x p = p.
Proof. intros Hx. unfold add_peer_once. by rewrite bool_decide_eq_true_2. Qed.

(** An import step changes no node when the ports of the connection list
    each other already. *)
Lemma import_connection_nodes_fix c self :
  (is_Some (port_at (from_node c) (from_port c) (nodes self)) →
   is_Some (port_at (to_node c) (to_port c) (nodes self)) →
   back_referenced (nodes self) c) →
  nodes (import_connection "" (export_connection c) self) = nodes self.
Proof.
  intros Hback. rewrite import_connection_export. simpl.
  destruct (port_at (from_node c) (from_port c) (nodes self)) as [p|] eqn:Hp; [|done].
  destruct (port_at (to_node c) (to_port c) (nodes self)) as [q|] eqn:Hq; [|done].
  destruct Hback as [(p' & Hp' & Hin1) (q' & Hq' & Hin2)]; [eauto..|].
  assert (p' = p) as -> by congruence. assert (q' = q) as -> by congruence.
  rewrite (mutate_port_fix (from_node c) _ _ _ p) by (done || by apply add_peer_once_fix).
  by rewrite (mutate_port_fix (to_node c) _ _ _ q) by (done || by apply add_peer_once_fix).
Qed.

Lemma import_loop_nodes_fix (cs : list Connection) self :
  (∀ c, c ∈ cs →
     is_Some (port_at (from_node c) (from_port c) (nodes self)) →
     is_Some (port_at (to_node c) (to_port c) (nodes self)) →
     back_referenced (nodes self) c) →
  nodes (import_loop (λ _, "") 0 (export_connection <$> cs) self) = nodes self.
Proof.
  generalize 0. revert self. induction cs as [|c cs IH]; intros self i Hback; simpl; [done|].
  assert (nodes (import_connection "" (export_connection c) self) = nodes self) as Hfix.
  { apply import_connection_nodes_fix. apply Hback. left. }
  rewrite IH; [done|]. rewrite Hfix. intros c' Hc'. apply Hback. by right.
Qed.

Lemma import_loop_connections_only (cs : list Connection) self self' i :
  connections self = connections self' →
  connections (import_loop (λ _, "") i (export_connection <$> cs) self)
  = connections (import_loop (λ _, "") i (export_connection <$> cs) self').
Proof.
  revert self self' i. induction cs as [|c cs IH]; intros self self' i Heq; simpl; [done|].
  apply IH. rewrite !import_connection_export. simpl. by rewrite Heq.
Qed.

Lemma peers_extend_is_Some ns ns' nid pid :
  peers_extend ns ns' → is_Some (port_at nid pid ns) → is_Some (port_at nid pid ns').
Proof. intros Hext [p Hp]. destruct (Hext _ _ _ Hp) as (p' & -> & _). eauto. Qed.

Lemma import_loop_is_Some_inv (cs : list Connection) self i nid pid :
  is_Some (port_at nid pid
             (nodes (import_loop (λ _, "") i (export_connection <$> cs) self))) →
  is_Some (port_at nid pid (nodes self)).
Proof.
  revert self i. induction cs as [|c cs IH]; intros self i; simpl; [done|].
  intros H%IH. rewrite import_connection_export in H. simpl in H.
  destruct (port_at (from_node c) (from_port c) (nodes self)); [|done].
  destruct (port_at (to_node c) (to_port c) (nodes self)); [|done].
  by rewrite !port_at_mutate_is_Some in H by apply add_peer_once_id.
Qed.

Lemma import_connections_as_loop uuid4 data self :
  import_connections uuid4 data self
  = import_loop (λ _, "") 0 (export_connection <$> imported_connections uuid4 0 data)
                (mkManager (nodes self) [] (next_id self)).
Proof.
  unfold import_connections. rewrite import_loop_imported. apply import_loop_exported.
Qed.
End import_facts.


(** ** Persistence of quests *)

Section quest_facts.
Import PyDict PyDictFacts.

Lemma port_of_data_export p : port_of_data (export_port p) = Some p.
Proof. by destruct p. Qed.

Lemma mapM_port_of_data_export (ps : list Port) :
  mapM port_of_data (export_port <$> ps) = Some ps.
Proof.
  induction ps as [|p ps IH]; [done|].
  rewrite fmap_cons. cbn [mapM]. rewrite port_of_data_export. simpl.
  rewrite IH. done.
Qed.

Lemma mapM_objective_of_data_export (objs : list QuestObjective) :
  ∃ objs',
    mapM objective_of_data (export_objective <$> objs) = Some objs'
    ∧ export_objective <$> objs' = export_objective <$> objs
    ∧ Forall (λ obj, completed obj = false) objs'.
Proof.
  induction objs as [|o objs (objs' & IH & Hexp & Hopen)].
  - exists []. by split_and!.
  - rewrite fmap_cons. cbn [mapM]. destruct o. simpl. rewrite IH. simpl.
    eexists. split; [done|]. split.
    + rewrite fmap_cons. by rewrite Hexp.
    + by constructor.
Qed.

(** One saved quest read back. *)
Lemma quest_of_data_export uuid4 n (quest : QuestNode) :
  ∃ quest' n',
    quest_of_data uuid4 n (export_quest quest) = Some (quest', n')
    ∧ export_quest quest' = export_quest quest
    ∧ as_loaded quest'.
Proof.
  destruct quest as [b q]. unfold quest_of_data, export_quest.
  cbn [qd_id qd_title qd_description qd_priority qd_position qd_prerequisites
       qd_reward_xp qd_reward_gold qd_auto_start qd_repeatable qd_time_limit
       qd_region_locked qd_level_requirement qd_can_fail qd_failure_conditions
       qd_branches qd_ports qd_objectives q_base q_fields default from_option id
       mbind option_bind].
  unfold QuestNode_post_init.
  cbn [q_base q_fields ports bool_decide decide_rel].
  rewrite bool_decide_eq_true_2 by done.
  cbn [q_base q_fields objectives app id].
  destruct (mapM_objective_of_data_export (objectives q)) as (objs' & -> & Hexp & Hopen).
  cbn [mbind option_bind]. rewrite mapM_port_of_data_export. cbn [mbind option_bind].
  eexists _, _. split; [done|]. split.
  - unfold export_quest. destruct q, b. simpl in *. by rewrite Hexp.
  - unfold as_loaded. simpl. by split_and!.
Qed.

Lemma import_quests_loop_export uuid4 (l : list (string * QuestNode)) :
  ∀ n acc,
    Forall (λ kq, kq.1 = n_id (q_base kq.2)) l →
    NoDup (keys acc ++ keys l) →
    ∃ l',
      import_quests_loop uuid4 n (export_quest <$> values l) acc = Some (acc ++ l')
      ∧ Forall2 (λ kq kq', kq'.1 = kq.1 ∧ kq'.1 = n_id (q_base kq'.2)
                           ∧ export_quest kq'.2 = export_quest kq.2
                           ∧ as_loaded kq'.2) l l'.
Proof.
  induction l as [|[k quest] l IH]; intros n acc Hk Hnd.
  - exists []. split; [by rewrite app_nil_r|constructor].
  - apply Forall_cons in Hk as [Hkq Hk]. simpl in Hkq. subst k.
    unfold values. rewrite !fmap_cons. cbn [import_quests_loop snd].
    destruct (quest_of_data_export uuid4 n quest) as (quest' & n' & -> & Hexp & Hld).
    assert (n_id (q_base quest') = n_id (q_base quest)) as Hid.
    { unfold export_quest in Hexp. by injection Hexp. }
    assert (get (n_id (q_base quest')) acc = None) as Hfresh.
    { apply get_None_keys. apply NoDup_app in Hnd as (_ & Hdisj & _).
      intros Hin. apply (Hdisj _ Hin). rewrite Hid. left. }
    rewrite set_fresh by done.
    destruct (IH n' (acc ++ [(n_id (q_base quest'), quest')]) Hk) as (l' & Hrun & Hall).
    { unfold keys in *. rewrite fmap_app, <- app_assoc. simpl. by rewrite Hid. }
    unfold values in Hrun. rewrite Hrun.
    exists ((n_id (q_base quest'), quest') :: l'). split.
    + by rewrite <- app_assoc.
    + constructor; [|done]. simpl. by split_and!.
Qed.
Lemma port_of_data_is_Some port_data :
  is_Some (port_of_data port_data) ↔ port_keys_present port_data.
Proof.
  unfold port_of_data, port_keys_present.
  destruct (pd_id port_data), (pd_name port_data), (pd_port_type port_data),
    (pd_data_type port_data); simpl.
  all: split; [|intros (H1 & H2 & H3 & H4)].
  all: try by intros [? [=]].
  all: try (by destruct H1 as [? [=]]).
  all: try (by destruct H2 as [? [=]]).
  all: try (by destruct H3 as [? [=]]).
  all: by destruct H4 as [? [=]].
Qed.

Lemma mapM_port_of_data_is_Some ports_data :
  is_Some (mapM port_of_data ports_data) ↔ Forall port_keys_present ports_data.
Proof.
  rewrite mapM_is_Some. apply Forall_proper; [|done].
  intros port_data. apply port_of_data_is_Some.
Qed.

Lemma mapM_objective_of_data_is_Some objs_data :
  is_Some (mapM objective_of_data objs_data)
  ↔ Forall (λ obj_data, is_Some (od_id obj_data)) objs_data.
Proof.
  rewrite mapM_is_Some. apply Forall_proper; [|done].
  intros obj_data. unfold compose, objective_of_data.
  destruct (od_id obj_data); simpl; split; intros H.
  all: first [by destruct H as [? [=]]|by eexists].
Qed.

Lemma quest_of_data_is_Some uuid4 n data :
  is_Some (quest_of_data uuid4 n data) ↔ quest_keys_present data.
Proof.
  unfold quest_of_data, quest_keys_present.
  destruct (qd_id data) as [i|]; cbn [mbind option_bind].
  2: { split; [by intros [? [=]]|by intros [[? [=]] _]]. }
  destruct (QuestNode_post_init _ _ _) as [quest n'].
  rewrite <- mapM_objective_of_data_is_Some.
  destruct (mapM objective_of_data _) as [objs|]; cbn [mbind option_bind].
  2: { split; [by intros [? [=]]|by intros (_ & [? [=]] & _)]. }
  destruct (qd_ports data) as [ports_data|]; cbn [default from_option id].
  - rewrite <- mapM_port_of_data_is_Some.
    destruct (mapM port_of_data ports_data); cbn [mbind option_bind].
    + split; intros _; [by split_and!|by eexists].
    + split; [by intros [? [=]]|by intros (_ & _ & [? [=]])].
  - cbn [mbind option_bind]. split; intros _; [by split_and!|by eexists].
Qed.

Lemma import_quests_loop_is_Some uuid4 quest_data :
  ∀ n acc,
    is_Some (import_quests_loop uuid4 n quest_data acc)
    ↔ Forall quest_keys_present quest_data.
Proof.
  induction quest_data as [|data rest IH]; intros n acc; simpl.
  - split; [constructor|by eexists].
  - rewrite Forall_cons, <- (quest_of_data_is_Some uuid4 n).
    destruct (quest_of_data uuid4 n data) as [[quest n']|].
    + rewrite IH. split; [by split|by intros [_ ?]].
    + split; [by intros [? [=]]|by intros [[? [=]] _]].
Qed.
End quest_facts.

(** X22. Saving the quests and loading the result gives back every quest
    under its key and in its place with all that the export writes: the
    export of the loaded quests equals the export of the original ones. What
    the export leaves out comes back with the value the constructor gives
    it; in particular every objective is open again. *)
Theorem quest_export_import_roundtrip uuid4 (self other : QuestManager) :
  quests_keyed_by_id (quests self) →
  ∃ loaded,
    import_quests uuid4 (export_quests self) other = Some loaded
    ∧ export_quests loaded = export_quests self
    ∧ PyDict.keys (quests loaded) = PyDict.keys (quests self)
    ∧ Forall (λ kq, as_loaded kq.2) (quests loaded)
    ∧ quests_keyed_by_id (quests loaded)
    ∧ qm_objectives loaded = [].
Proof.
  intros [Hk Hnd]. unfold import_quests, export_quests.
  destruct (import_quests_loop_export uuid4 (quests self) 0 [] Hk Hnd)
    as (l' & -> & Hall).
  simpl. eexists. split; [done|]. simpl.
  assert (PyDict.keys l' = PyDict.keys (quests self)) as Hkeys.
  { unfold PyDict.keys. induction Hall as [|kq kq' l l' (H1 & _) _ IH]; [done|].
    rewrite !fmap_cons, H1. f_equal. apply IH.
    - by apply Forall_cons in Hk as [_ ?].
    - by apply NoDup_cons in Hnd as [_ ?]. }
  split_and!.
  - unfold PyDict.values. clear Hkeys Hk Hnd.
    induction Hall as [|kq kq' l l' (_ & _ & H3 & _) _ IH]; [done|].
    rewrite !fmap_cons, H3. by f_equal.
  - done.
  - clear Hkeys Hk Hnd. induction Hall as [|kq kq' l l' (_ & _ & _ & H4) _ IH];
      constructor; done.
  - split; [|by rewrite Hkeys]. clear Hkeys Hk Hnd.
    induction Hall as [|kq kq' l l' (_ & H2 & _ & _) _ IH]; constructor; done.
  - done.
Qed.

Lemma quest_export_import_roundtrip_witness :
  ∃ loaded,
    import_quests (λ _, "") (export_quests daily_quests) daily_quests = Some loaded
    ∧ export_quests loaded = export_quests daily_quests
    ∧ Forall (λ kq, as_loaded kq.2) (quests loaded).
Proof.
  destruct (quest_export_import_roundtrip (λ _, "") daily_quests daily_quests)
    as (loaded & H1 & H2 & _ & H3 & _).
  - split; [by repeat constructor|]. by apply (bool_decide_unpack _); vm_compute.
  - by exists loaded.
Defined.

(** X26. Loading quests fails exactly when an entry lacks a key that is
    read without a default: the id of the quest, the id of one of its
    objectives, or the id, the name, the port type or the data type of one
    of its ports. Every other key may be absent. *)
Theorem import_quests_succeeds_iff uuid4 quest_data (self : QuestManager) :
  is_Some (import_quests uuid4 quest_data self)
  ↔ Forall quest_keys_present quest_data.
Proof.
  unfold import_quests. rewrite <- (import_quests_loop_is_Some uuid4 quest_data 0 []).
  destruct (import_quests_loop uuid4 0 quest_data []); simpl; split; try done.
  all: by eexists.
Qed.

(** ** Persistence of dialogues *)

Section dialogue_facts.
Import PyDict PyDictFacts.
Context (dict_str : list (string * pyval) → string).
Context (int_dict_str : list (string * Z) → string).
Context (uuid4 : nat → string).

Lemma export_choice_of_data c :
  export_choice (choice_of_data (export_choice c)) = export_choice c.
Proof. by destruct c. Qed.

Lemma node_post_init_fields n self type color size dt specs props resize :
  let r := (node_post_init uuid4 n self type color size dt specs props resize).1 in
  n_id r = n_id self ∧ node_type r = type ∧ n_color r = color
  ∧ title r = title self ∧ n_position r = n_position self
  ∧ n_state_changes r = n_state_changes self.
Proof. unfold node_post_init. by case_bool_decide. Qed.

(** What the loop body makes of any entry it accepts. *)
Lemma dialogue_of_data_loaded n data node n' :
  dialogue_of_data dict_str int_dict_str uuid4 n data = Some (node, n') →
  loaded_dialogue node ∧ dd_id data = Some (n_id (base node)).
Proof.
  unfold dialogue_of_data. destruct (dd_id data) as [i|]; [|done].
  cbn [mbind option_bind].
  unfold ConditionNode_post_init, MergeNode_post_init, StateChangeNode_post_init,
    DialogueNode_post_init.
  repeat case_bool_decide.
  all: match goal with
       | |- context [node_post_init ?u ?m ?s ?t ?c ?sz ?dt ?sp ?pr ?rs] =>
           pose proof (node_post_init_fields m s t c sz dt sp pr rs) as Hf;
           destruct (node_post_init u m s t c sz dt sp pr rs) as [b m'] eqn:Hb
       end;
       cbn [fst] in Hf;
       destruct Hf as (Hid & Hty & Hcol & _).
  all: destruct (first_line data) as [line|];
       (destruct (match dd_ports data with
                  | Some ports_data => mapM port_of_data ports_data
                  | None => _
                  end) as [ports'|]; [|done]);
       cbn [mbind option_bind]; intros [= <- <-];
       unfold loaded_dialogue, _update_node_properties; cbn; by rewrite ?Hid, ?Hty, ?Hcol.
Qed.

Lemma loaded_dialogue_class node : loaded_dialogue node → dialogue_class node.
Proof.
  unfold loaded_dialogue, dialogue_class. destruct (subclass node); try done.
  intros [? _]. by left.
Qed.

Lemma Forall_set {V} (Q : string * V → Prop) k v d :
  Forall Q d → Q (k, v) → Forall Q (set k v d).
Proof.
  intros Hd Hkv. induction d as [|[k0 v0] d IH]; simpl.
  - by repeat constructor.
  - apply Forall_cons in Hd as [H0 Hd]. case_decide; constructor; auto.
Qed.

Lemma import_dialogues_loop_loaded dialogue_data :
  ∀ n acc loaded,
    import_dialogues_loop dict_str int_dict_str uuid4 n dialogue_data acc = Some loaded →
    dialogues_keyed_by_id acc →
    Forall (λ kn, loaded_dialogue kn.2) acc →
    dialogues_keyed_by_id loaded
    ∧ Forall (λ kn, loaded_dialogue kn.2) loaded
    ∧ (∀ k, k ∈ keys loaded ↔ k ∈ keys acc ∨ Some k ∈ dd_id <$> dialogue_data).
Proof.
  induction dialogue_data as [|data rest IH]; intros n acc loaded; simpl.
  - intros [= <-] Hk Hl. split_and!; [done..|]. intros k. rewrite elem_of_nil. tauto.
  - destruct (dialogue_of_data _ _ _ n data) as [[node n']|] eqn:Hd; [|done].
    apply dialogue_of_data_loaded in Hd as [Hld Hid].
    intros Hrun [Hk Hnd] Hl.
    apply IH in Hrun as (Hk' & Hl' & Hkeys).
    + split_and!; [done..|]. intros k. rewrite Hkeys, elem_of_cons, Hid.
      split.
      * intros [Hin|?]; [|by auto].
        apply keys_set_elem in Hin as [->|?]; auto.
      * intros [Hin|[[= ->]|?]]; [| |by auto]; left.
        -- unfold keys in *. apply list_elem_of_fmap in Hin as ([k0 v0] & -> & Hin).
           simpl. clear -Hin. induction acc as [|[k1 v1] acc IHa]; [by apply elem_of_nil in Hin|].
           simpl. apply elem_of_cons in Hin as [[= <- <-]|Hin].
           ++ case_decide; simpl; [subst|]; left.
           ++ case_decide; simpl; [|right; by apply IHa].
              right. apply list_elem_of_fmap. by exists (k0, v0).
        -- unfold keys. clear. induction acc as [|[k1 v1] acc IHa]; simpl; [left|].
           case_decide; simpl; [subst; left|by right].
    + split; [|by apply NoDup_keys_set]. by apply Forall_set.
    + by apply Forall_set.
Qed.

Local Arguments PyDict.set : simpl never.
Local Arguments dict_update : simpl never.
Local Arguments py_str_dict : simpl never.

Ltac node_fields :=
  cbn [base subclass n_id node_type title n_position n_size n_color ports properties
       collapsed needs_resize conditions n_required_resources n_required_flags
       n_state_changes fst snd mbind option_bind].

Lemma export_dialogue_update node :
  export_dialogue (_update_node_properties dict_str node) = export_dialogue node.
Proof.
  destruct node as [b c]. unfold _update_node_properties, export_dialogue, export_line,
    as_dialogue, set_properties.
  node_fields. done.
Qed.

Ltac line_fields :=
  cbn [ld_speaker ld_text ld_condition ld_once_only ld_is_hub ld_return_text
       ld_choices ld_next ld_condition_check ld_true_path ld_false_path
       ld_state_changes ld_reputation_changes
       speaker text choices next is_hub hub_return_text display_condition once_only
       times_seen default_dialogue_fields
       default from_option id mbind option_bind app].

(** The line of a dialogue node that was read from its own line. *)
Lemma export_line_loaded b b' d :
  node_type b = NT_DIALOGUE ∨ node_type b = NT_HUB →
  node_type b' = NT_DIALOGUE →
  export_line
    (mkNode b' (IsDialogueNode
                  (dialogue_fields_of_line default_dialogue_fields
                     (export_line (mkNode b (IsDialogueNode d))))))
  = export_line (mkNode b (IsDialogueNode d)).
Proof.
  intros Hc Hb'. destruct d as [sp tx chs nx hub ret dc once seen].
  unfold export_line at 2 3. unfold as_dialogue. node_fields. line_fields.
  assert ((match node_type b with NT_CONDITION => Some "" | _ => None end) = None
          ∧ (match node_type b with
             | NT_STATE_CHANGE => Some (n_state_changes b) | _ => None end) = None
          ∧ (match node_type b with NT_STATE_CHANGE => @None (list (string * Z))
             | _ => None end) = None)
    as (-> & -> & ->) by (destruct Hc as [-> | ->]; done).
  unfold dialogue_fields_of_line, export_line, as_dialogue. node_fields. line_fields.
  rewrite Hb'.
  assert (export_choice <$> (choice_of_data <$> (export_choice <$> chs))
          = export_choice <$> chs) as Hchs.
  { rewrite <- !list_fmap_compose. apply list_fmap_ext. intros _ c _. simpl.
    apply export_choice_of_data. }
  destruct hub, once; line_fields.
  all: destruct (decide (dc = "")) as [->|Hdc];
    [rewrite !(bool_decide_eq_true_2 ("" = "")) by done
    |rewrite !(bool_decide_eq_false_2 (dc = "")) by done]; line_fields.
  all: destruct chs as [|c chs];
    [rewrite !(bool_decide_eq_true_2 ([] = [])) by done
    |rewrite !(bool_decide_eq_false_2 (c :: chs = [])) by done]; line_fields.
  all: try (rewrite (bool_decide_eq_false_2 (_ = [])) by done; by rewrite Hchs).
  all: destruct (decide (nx = "")) as [->|Hnx];
    [rewrite !(bool_decide_eq_true_2 ("" = "")) by done
    |rewrite !(bool_decide_eq_false_2 (nx = "")) by done]; line_fields.
  all: rewrite ?(bool_decide_eq_true_2 ("" = "")) by done;
       rewrite ?(bool_decide_eq_true_2 ([] = [])) by done;
       rewrite ?(bool_decide_eq_false_2 (nx = "")) by done;
       rewrite ?(bool_decide_eq_false_2 (dc = "")) by done; try done.
Qed.

(** One saved dialogue read back. *)
Lemma dialogue_of_data_export n (node : Node) :
  dialogue_class node →
  ∃ node' n',
    dialogue_of_data dict_str int_dict_str uuid4 n (export_dialogue node)
      = Some (node', n')
    ∧ export_dialogue node' = saved_as_plain (export_dialogue node).
Proof.
  destruct node as [b c]. unfold dialogue_class. cbn [subclass base].
  intros Hc.
  assert (∀ s, s ≠ "dialogue" → s ≠ "hub" →
            bool_decide (NodeType_value (node_type b) = s)
            = bool_decide (NodeType_value (node_type b) = s)) as _ by done.
  destruct c as [|d|cond tp fp|mt|rep| |]; try done.
  all: eexists _, _; split;
    [unfold dialogue_of_data, export_dialogue;
     cbn [dd_id dd_title dd_position dd_node_type dd_ports dd_lines first_line base
          subclass default from_option id mbind option_bind];
     rewrite mapM_port_of_data_export;
     unfold ConditionNode_post_init, MergeNode_post_init, StateChangeNode_post_init,
       DialogueNode_post_init, node_post_init, fresh_base, set_state_changes, set_ports;
     cbn [is_hub default_dialogue_fields]; node_fields;
     rewrite !(bool_decide_eq_true_2 ([] = [])) by done;
     first [ rewrite Hc; cbn [NodeType_value]
           | destruct Hc as [-> | ->]; cbn [NodeType_value] ];
     rewrite ?(bool_decide_eq_true_2 ("condition" = "condition")) by done;
     rewrite ?(bool_decide_eq_true_2 ("merge" = "merge")) by done;
     rewrite ?(bool_decide_eq_true_2 ("state_change" = "state_change")) by done;
     rewrite ?(bool_decide_eq_false_2 ("merge" = "condition")) by done;
     rewrite ?(bool_decide_eq_false_2 ("state_change" = "condition")) by done;
     rewrite ?(bool_decide_eq_false_2 ("state_change" = "merge")) by done;
     rewrite ?(bool_decide_eq_false_2 ("dialogue" = "condition")) by done;
     rewrite ?(bool_decide_eq_false_2 ("dialogue" = "merge")) by done;
     rewrite ?(bool_decide_eq_false_2 ("dialogue" = "state_change")) by done;
     rewrite ?(bool_decide_eq_false_2 ("hub" = "condition")) by done;
     rewrite ?(bool_decide_eq_false_2 ("hub" = "merge")) by done;
     rewrite ?(bool_decide_eq_false_2 ("hub" = "state_change")) by done;
     node_fields; reflexivity|].
  all: rewrite export_dialogue_update.
  all: unfold export_dialogue, saved_as_plain; node_fields;
       cbn [dd_id dd_title dd_position dd_node_type dd_ports dd_lines].
  - f_equal.
    + destruct Hc as [-> | ->]; done.
    + by rewrite export_line_loaded.
  - unfold export_line, as_dialogue. node_fields. rewrite !Hc. line_fields.
    cbn [NodeType_value]. by rewrite bool_decide_eq_false_2.
  - unfold export_line, as_dialogue. node_fields. rewrite !Hc. line_fields.
    cbn [NodeType_value]. by rewrite bool_decide_eq_false_2.
  - unfold export_line, as_dialogue. node_fields. rewrite !Hc. line_fields.
    cbn [NodeType_value]. by rewrite bool_decide_eq_false_2.
Qed.

Lemma import_dialogues_loop_export (l : list (string * Node)) :
  ∀ n acc,
    Forall (λ kn, kn.1 = n_id (base kn.2)) l →
    Forall (λ kn, dialogue_class kn.2) l →
    NoDup (keys acc ++ keys l) →
    ∃ l',
      import_dialogues_loop dict_str int_dict_str uuid4 n
        (export_dialogue <$> values l) acc = Some (acc ++ l')
      ∧ Forall2 (λ kn kn', kn'.1 = kn.1
                           ∧ export_dialogue kn'.2 = saved_as_plain (export_dialogue kn.2))
                l l'.
Proof.
  induction l as [|[k node] l IH]; intros n acc Hk Hc Hnd.
  - exists []. split; [by rewrite app_nil_r|constructor].
  - apply Forall_cons in Hk as [Hkn Hk]. simpl in Hkn. subst k.
    apply Forall_cons in Hc as [Hcn Hc]. simpl in Hcn.
    unfold values. rewrite !fmap_cons. cbn [import_dialogues_loop snd].
    destruct (dialogue_of_data_export n node Hcn) as (node' & n' & -> & Hexp).
    assert (n_id (base node') = n_id (base node)) as Hid.
    { unfold export_dialogue, saved_as_plain in Hexp. by injection Hexp. }
    assert (get (n_id (base node')) acc = None) as Hfresh.
    { apply get_None_keys. apply NoDup_app in Hnd as (_ & Hdisj & _).
      intros Hin. apply (Hdisj _ Hin). rewrite Hid. left. }
    rewrite set_fresh by done.
    destruct (IH n' (acc ++ [(n_id (base node'), node')]) Hk Hc) as (l' & Hrun & Hall).
    { unfold keys in *. rewrite fmap_app, <- app_assoc. simpl. by rewrite Hid. }
    unfold values in Hrun. rewrite Hrun.
    exists ((n_id (base node'), node') :: l'). split.
    + by rewrite <- app_assoc.
    + constructor; [|done]. simpl. by split.
Qed.

Lemma saved_as_plain_no_hub node :
  node_type (base node) ≠ NT_HUB →
  saved_as_plain (export_dialogue node) = export_dialogue node.
Proof.
  intros Hh. unfold saved_as_plain, export_dialogue.
  cbn [dd_id dd_title dd_position dd_node_type dd_ports dd_lines].
  rewrite bool_decide_eq_false_2; [done|].
  intros [= Hv]. by destruct (node_type (base node)).
Qed.

Lemma dialogue_of_data_is_Some n data :
  is_Some (dialogue_of_data dict_str int_dict_str uuid4 n data)
  ↔ dialogue_keys_present data.
Proof.
  unfold dialogue_of_data, dialogue_keys_present.
  destruct (dd_id data) as [i|]; cbn [mbind option_bind].
  2: { split; [by intros [? [=]]|by intros [[? [=]] _]]. }
  match goal with
  | |- context [let '(node, n') := ?x in _] => destruct x as [node n']
  end.
  destruct (dd_ports data) as [ports_data|]; cbn [default from_option id].
  - rewrite <- mapM_port_of_data_is_Some.
    destruct (mapM port_of_data ports_data); cbn [mbind option_bind].
    + split; [by split|by eexists].
    + split; [by intros [? [=]]|by intros [_ [? [=]]]].
  - cbn [mbind option_bind]. split; [by split|by eexists].
Qed.

Lemma import_dialogues_loop_is_Some dialogue_data :
  ∀ n acc,
    is_Some (import_dialogues_loop dict_str int_dict_str uuid4 n dialogue_data acc)
    ↔ Forall dialogue_keys_present dialogue_data.
Proof.
  induction dialogue_data as [|data rest IH]; intros n acc; simpl.
  - split; [constructor|by eexists].
  - rewrite Forall_cons, <- (dialogue_of_data_is_Some n).
    destruct (dialogue_of_data _ _ _ n data) as [[node n']|].
    + rewrite IH. split; [by split|by intros [_ ?]].
    + split; [by intros [? [=]]|by intros [[? [=]] _]].
Qed.
End dialogue_facts.

(** X23. Whatever list of saved dialogues is loaded, each node that comes
    back has one of the four types the import knows, by the class it was
    given: a node of the dialogue class has the type and the colour of a
    plain dialogue even when it is a hub, so no loaded node has the type of
    a hub or of a choice. The loaded dict is keyed by the ids of its nodes,
    and its keys are the ids of the saved entries. *)
Theorem import_dialogues_loaded dict_str int_dict_str uuid4 dialogue_data dialogues loaded :
  import_dialogues dict_str int_dict_str uuid4 dialogue_data dialogues = Some loaded →
  dialogues_keyed_by_id loaded
  ∧ Forall (λ kn, loaded_dialogue kn.2) loaded
  ∧ (∀ kn, kn ∈ loaded →
       node_type (base kn.2) ≠ NT_HUB ∧ node_type (base kn.2) ≠ NT_CHOICE)
  ∧ (∀ k, k ∈ PyDict.keys loaded ↔ Some k ∈ dd_id <$> dialogue_data).
Proof.
  unfold import_dialogues. intros Hrun.
  apply import_dialogues_loop_loaded in Hrun as (Hk & Hl & Hkeys).
  - split_and!; [done..| |].
    + intros kn Hin. rewrite Forall_forall in Hl. specialize (Hl kn Hin).
      unfold loaded_dialogue in Hl. destruct (subclass kn.2); try done.
      * destruct Hl as [-> _]. done.
      * by rewrite Hl.
      * by rewrite Hl.
      * by rewrite Hl.
    + intros k. rewrite Hkeys. unfold PyDict.keys. simpl. rewrite elem_of_nil. tauto.
  - split; [constructor|apply NoDup_nil_2].
  - constructor.
Qed.

Lemma import_dialogues_loaded_witness :
  ∃ node,
    import_dialogues (λ _, "") (λ _, "") (λ _, "") (export_dialogues hub_dialogues) []
      = Some [("u0", node)]
    ∧ is_hub <$> as_dialogue node = Some true
    ∧ node_type (base node) ≠ NT_HUB.
Proof.
  eexists. split; [vm_compute; reflexivity|]. split; [reflexivity|].
  refine (proj1 (proj1 (proj2 (proj2
    (import_dialogues_loaded (λ _, "") (λ _, "") (λ _, "")
       (export_dialogues hub_dialogues) [] _ _))) (_, _) _)).
  - vm_compute. reflexivity.
  - left.
Defined.

(** X24. Saving the dialogues and loading the result gives back every node
    under its key and in its place. The export of the loaded nodes is the
    export of the original ones, except that a node saved with the type of
    a hub is now saved with the type of a plain dialogue; when no node is a
    hub the two exports are equal. The loaded nodes can be saved and loaded
    again. *)
Theorem dialogue_export_import_roundtrip dict_str int_dict_str uuid4
    (dialogues other : list (string * Node)) :
  dialogues_keyed_by_id dialogues →
  Forall (λ kn, dialogue_class kn.2) dialogues →
  ∃ loaded,
    import_dialogues dict_str int_dict_str uuid4 (export_dialogues dialogues) other
      = Some loaded
    ∧ export_dialogues loaded = saved_as_plain <$> export_dialogues dialogues
    ∧ (Forall (λ kn, node_type (base kn.2) ≠ NT_HUB) dialogues →
       export_dialogues loaded = export_dialogues dialogues)
    ∧ PyDict.keys loaded = PyDict.keys dialogues
    ∧ dialogues_keyed_by_id loaded
    ∧ Forall (λ kn, dialogue_class kn.2) loaded.
Proof.
  intros [Hk Hnd] Hc. unfold import_dialogues, export_dialogues.
  destruct (import_dialogues_loop_export dict_str int_dict_str uuid4 dialogues 0 []
              Hk Hc Hnd) as (l' & Hrun & Hall).
  rewrite Hrun. simpl. exists l'. split; [done|].
  destruct (import_dialogues_loop_loaded _ _ _ _ _ _ _ Hrun) as (Hk' & Hl' & _).
  { split; [constructor|apply NoDup_nil_2]. }
  { constructor. }
  simpl in Hk', Hl'.
  assert (export_dialogue <$> PyDict.values l'
          = saved_as_plain <$> (export_dialogue <$> PyDict.values dialogues)) as Hexp.
  { unfold PyDict.values. clear -Hall.
    induction Hall as [|kn kn' l l' (_ & H2) _ IH]; [done|].
    rewrite !fmap_cons, H2. by f_equal. }
  split_and!.
  - done.
  - intros Hh. rewrite Hexp. unfold PyDict.values. clear -Hh.
    induction Hh as [|kn l Hkn _ IH]; [done|].
    rewrite !fmap_cons, IH. f_equal. by apply saved_as_plain_no_hub.
  - unfold PyDict.keys. clear -Hall.
    induction Hall as [|kn kn' l l' (H1 & _) _ IH]; [done|].
    rewrite !fmap_cons, H1. by f_equal.
  - done.
  - eapply Forall_impl; [exact Hl'|]. intros kn. apply loaded_dialogue_class.
Qed.

Lemma dialogue_export_import_roundtrip_witness :
  ∃ loaded,
    import_dialogues (λ _, "") (λ _, "") (λ _, "") (export_dialogues hub_dialogues)
      hub_dialogues = Some loaded
    ∧ export_dialogues loaded = saved_as_plain <$> export_dialogues hub_dialogues
    ∧ PyDict.keys loaded = ["u0"].
Proof.
  destruct (dialogue_export_import_roundtrip (λ _, "") (λ _, "") (λ _, "")
              hub_dialogues hub_dialogues) as (loaded & H1 & H2 & _ & H3 & _).
  - split; [by repeat constructor|]. by apply (bool_decide_unpack _); vm_compute.
  - constructor; [vm_compute; by right|constructor].
  - by exists loaded.
Defined.

(** X25. Loading dialogues fails exactly when an entry lacks a key that is
    read without a default: the id of the entry, or the id, the name, the
    port type or the data type of one of its ports. Every other key may be
    absent. *)
Theorem import_dialogues_succeeds_iff dict_str int_dict_str uuid4 dialogue_data dialogues :
  is_Some (import_dialogues dict_str int_dict_str uuid4 dialogue_data dialogues)
  ↔ Forall dialogue_keys_present dialogue_data.
Proof. unfold import_dialogues. apply import_dialogues_loop_is_Some. Qed.

(** ** Prerequisites after a connect *)

(** X27. A connect request that succeeds under a connection id not in use
    adds its source node at the end of the prerequisites of its target node
    when the connection is a prerequisite or a dependency, and changes the
    prerequisites of no other node; a connection of any other type changes
    no prerequisites at all. *)
Theorem connect_adds_prerequisite fn fp tn tp ct kw uuid self c self' :
  add_connection fn fp tn tp ct kw uuid self = (Some c, self') →
  PyDict.get (c_id c) (connections self) = None →
  ∀ node_id,
    get_prerequisites node_id self'
    = get_prerequisites node_id self
      ++ (if bool_decide (node_id = tn ∧ ct ∈ [PREREQUISITE; DEPENDENCY])
          then [fn] else []).
Proof.
  intros Hadd Hfresh node_id.
  destruct (add_connection_cases fn fp tn tp ct kw uuid self)
    as [[Hfail _]|(p & q & _ & _ & _ & Hok)]; [congruence|].
  rewrite Hok in Hadd. injection Hadd as <- <-.
  unfold get_prerequisites. cbn [connections].
  rewrite PyDictFacts.set_fresh by done.
  unfold PyDict.values. rewrite fmap_app, filter_app, fmap_app. f_equal.
  cbn [fmap list_fmap snd]. rewrite filter_cons, filter_nil.
  unfold is_dependency_edge, new_connection. cbn [to_node connection_type from_node].
  destruct (decide (ct ∈ [PREREQUISITE; DEPENDENCY])) as [Hct|Hct].
  - rewrite (bool_decide_eq_true_2 _ Hct).
    destruct (decide (node_id = tn)) as [->|Hne].
    + rewrite decide_True by done. by rewrite bool_decide_eq_true_2.
    + rewrite decide_False by (intros [? _]; done).
      rewrite bool_decide_eq_false_2; [done|]. by intros [? _].
  - rewrite (bool_decide_eq_false_2 _ Hct).
    rewrite decide_False by (intros [_ ?]; done).
    rewrite bool_decide_eq_false_2; [done|]. by intros [_ ?].
Qed.

Lemma connect_adds_prerequisite_witness :
  ∃ c self',
    add_connection "A" "a" "B" "b" PREREQUISITE no_props "c1" store_AB = (Some c, self')
    ∧ get_prerequisites "B" self' = get_prerequisites "B" store_AB ++ ["A"].
Proof.
  eexists _, _. split; [reflexivity|].
  exact (connect_adds_prerequisite "A" "a" "B" "b" PREREQUISITE no_props "c1"
           store_AB _ _ eq_refl eq_refl "B").
Defined.
